(** * Task orchestration and communication fabric: embedding and properties

    The development follows the TypeScript sources of the task queue, the
    scheduler, the task router, the service registry and the enhanced
    communication protocol.  Part I holds the embedding (one module per
    source class), Part II the lemmas about it.

    Conventions of the embedding:
    - a JS [number] that holds a count, a priority or a millisecond
      timestamp is a [Z]; a [Date] is its [getTime()] value;
    - an optional field ([x?: T]) is an [option];
    - a JS [Map] whose iteration order is observable is an insertion-ordered
      association list ([JsMap]); the other maps are [gmap]s;
    - every read of the clock ([Date.now()], [new Date()]) inside one call
      is the argument [now] of the embedded function; where the outcome of
      a request depends on how far the readings are apart, a second
      definition (its name ends in [At]) takes them one by one;
    - a method that throws returns [Throw] with the state it leaves. *)

From Stdlib Require Import ZArith Lia Sorted.
From stdpp Require Import gmap strings list fin_maps pretty sorting.

Local Open Scope Z_scope.

(** * Part I: the embedding *)

(** ** Insertion-ordered [Map<string, V>] *)

Module JsMap.
Section Ops.
Context {V : Type}.

(** [Map.prototype.get] *)
Fixpoint get (k : string) (m : list (string * V)) : option V :=
  match m with
  | [] => None
  | (k', v) :: m' => if decide (k' = k) then Some v else get k m'
  end.

(** [Map.prototype.set]: an existing key keeps its position. *)
Fixpoint set (k : string) (v : V) (m : list (string * V)) : list (string * V) :=
  match m with
  | [] => [(k, v)]
  | (k', v') :: m' =>
      if decide (k' = k) then (k, v) :: m' else (k', v') :: set k v m'
  end.

(** [Map.prototype.delete]; the keys of a map are distinct, so this removes
    the one entry of the key. *)
Fixpoint del (k : string) (m : list (string * V)) : list (string * V) :=
  match m with
  | [] => []
  | (k', v') :: m' =>
      if decide (k' = k) then del k m' else (k', v') :: del k m'
  end.

Definition keys (m : list (string * V)) : list string := m.*1.
Definition values (m : list (string * V)) : list V := m.*2.
Definition size (m : list (string * V)) : Z := Z.of_nat (length m).
End Ops.
End JsMap.

Abbreviation JsMap V := (list (string * V)).

(** ** Task types (task/types.ts) *)

Inductive TaskStatus :=
  | PENDING | QUEUED | ASSIGNED | RUNNING | COMPLETED | FAILED | CANCELLED | TIMEOUT.

#[global] Instance TaskStatus_eq_dec : EqDecision TaskStatus.
Proof. solve_decision. Defined.

Record Task := mkTask {
  id : string;
  type : string;
  subtype : option string;
  priority : Z;
  status : TaskStatus;
  data : string;
  result : option string;
  error : option string;
  created_at : Z;
  updated_at : Z;
  assigned_agent : option string;
  assigned_at : option Z;
  started_at : option Z;
  completed_at : option Z;
  retry_count : Z;
  max_retries : Z;
  timeout : Z;
  tags : list string;
  metadata : list (string * string)
}.

Record TaskConfig := mkTaskConfig {
  max_concurrent_tasks : Z;
  default_timeout : Z;
  cfg_max_retries : Z;
  retry_delay : Z;
  cleanup_interval : Z;
  task_retention_days : Z
}.

(** Field assignments [task.f = v] on a task object. *)
Definition set_status (s : TaskStatus) (t : Task) : Task :=
  mkTask (id t) (type t) (subtype t) (priority t) s (data t) (result t) (error t)
    (created_at t) (updated_at t) (assigned_agent t) (assigned_at t) (started_at t)
    (completed_at t) (retry_count t) (max_retries t) (timeout t) (tags t) (metadata t).
Definition set_result (r : option string) (t : Task) : Task :=
  mkTask (id t) (type t) (subtype t) (priority t) (status t) (data t) r (error t)
    (created_at t) (updated_at t) (assigned_agent t) (assigned_at t) (started_at t)
    (completed_at t) (retry_count t) (max_retries t) (timeout t) (tags t) (metadata t).
Definition set_error (e : option string) (t : Task) : Task :=
  mkTask (id t) (type t) (subtype t) (priority t) (status t) (data t) (result t) e
    (created_at t) (updated_at t) (assigned_agent t) (assigned_at t) (started_at t)
    (completed_at t) (retry_count t) (max_retries t) (timeout t) (tags t) (metadata t).
Definition set_updated_at (d : Z) (t : Task) : Task :=
  mkTask (id t) (type t) (subtype t) (priority t) (status t) (data t) (result t) (error t)
    (created_at t) d (assigned_agent t) (assigned_at t) (started_at t)
    (completed_at t) (retry_count t) (max_retries t) (timeout t) (tags t) (metadata t).
Definition set_assigned_agent (a : option string) (t : Task) : Task :=
  mkTask (id t) (type t) (subtype t) (priority t) (status t) (data t) (result t) (error t)
    (created_at t) (updated_at t) a (assigned_at t) (started_at t)
    (completed_at t) (retry_count t) (max_retries t) (timeout t) (tags t) (metadata t).
Definition set_assigned_at (d : option Z) (t : Task) : Task :=
  mkTask (id t) (type t) (subtype t) (priority t) (status t) (data t) (result t) (error t)
    (created_at t) (updated_at t) (assigned_agent t) d (started_at t)
    (completed_at t) (retry_count t) (max_retries t) (timeout t) (tags t) (metadata t).
Definition set_started_at (d : option Z) (t : Task) : Task :=
  mkTask (id t) (type t) (subtype t) (priority t) (status t) (data t) (result t) (error t)
    (created_at t) (updated_at t) (assigned_agent t) (assigned_at t) d
    (completed_at t) (retry_count t) (max_retries t) (timeout t) (tags t) (metadata t).
Definition set_completed_at (d : option Z) (t : Task) : Task :=
  mkTask (id t) (type t) (subtype t) (priority t) (status t) (data t) (result t) (error t)
    (created_at t) (updated_at t) (assigned_agent t) (assigned_at t) (started_at t)
    d (retry_count t) (max_retries t) (timeout t) (tags t) (metadata t).
Definition set_retry_count (n : Z) (t : Task) : Task :=
  mkTask (id t) (type t) (subtype t) (priority t) (status t) (data t) (result t) (error t)
    (created_at t) (updated_at t) (assigned_agent t) (assigned_at t) (started_at t)
    (completed_at t) n (max_retries t) (timeout t) (tags t) (metadata t).

(** The argument of [enqueue]:
    [Omit<Task, 'id' | 'created_at' | 'updated_at' | 'retry_count' | 'status'>]. *)
Record TaskInput := mkTaskInput {
  in_type : string;
  in_subtype : option string;
  in_priority : Z;
  in_data : string;
  in_result : option string;
  in_error : option string;
  in_assigned_agent : option string;
  in_assigned_at : option Z;
  in_started_at : option Z;
  in_completed_at : option Z;
  in_max_retries : Z;
  in_timeout : Z;
  in_tags : list string;
  in_metadata : list (string * string)
}.

(** ** The task queue (task/task-queue.ts) *)

Module TaskQueue.

Record t := mk {
  queue : list Task;
  processing : JsMap Task;
  completed : JsMap Task;
  config : TaskConfig
}.

(** What a call leaves behind: its return value, or the message of the
    [Error] it throws, with the queue in the state the call left it. *)
Inductive outcome (A : Type) :=
  | Ok (a : A) (q : t)
  | Throw (msg : string) (q : t).
Arguments Ok {A} a q.
Arguments Throw {A} msg q.

Definition state_of {A} (o : outcome A) : t :=
  match o with Ok _ q => q | Throw _ q => q end.

Definition new (cfg : TaskConfig) : t := mk [] [] [] cfg.

(** [this.queue.sort((a, b) => b.priority - a.priority)]: the sort is
    stable, so it is the insertion of each element, from the right, in
    front of the first element whose priority is not greater. *)
Fixpoint sort_insert (x : Task) (l : list Task) : list Task :=
  match l with
  | [] => [x]
  | y :: l' =>
      if decide (priority x < priority y) then y :: sort_insert x l'
      else x :: y :: l'
  end.

Definition sort_by_priority (l : list Task) : list Task :=
  foldr sort_insert [] l.

(** [enqueue(task)]; [uuid] is the value [uuidv4()] returns. *)
Definition enqueue (task : TaskInput) (uuid : string) (now : Z) (q : t) : outcome Task :=
  let newTask :=
    mkTask uuid (in_type task) (in_subtype task) (in_priority task) PENDING
      (in_data task) (in_result task) (in_error task) now now
      (in_assigned_agent task) (in_assigned_at task) (in_started_at task)
      (in_completed_at task) 0 (in_max_retries task) (in_timeout task)
      (in_tags task) (in_metadata task) in
  Ok newTask
     (mk (sort_by_priority (queue q ++ [newTask])) (processing q) (completed q) (config q)).

(** [dequeue(agentId?)] *)
Definition dequeue (agentId : option string) (now : Z) (q : t) : outcome (option Task) :=
  match queue q with
  | [] => Ok None q
  | head :: rest =>
      if decide (JsMap.size (processing q) >= max_concurrent_tasks (config q))
      then Ok None q
      else
        let task :=
          set_updated_at now
            (set_assigned_at (Some now)
               (set_assigned_agent agentId (set_status ASSIGNED head))) in
        Ok (Some task)
           (mk rest (JsMap.set (id task) task (processing q)) (completed q) (config q))
  end.

Definition not_found (taskId : string) : string :=
  "Task " +:+ taskId +:+ " not found in processing".

(** [startTask(taskId)] *)
Definition startTask (taskId : string) (now : Z) (q : t) : outcome unit :=
  match JsMap.get taskId (processing q) with
  | None => Throw (not_found taskId) q
  | Some task =>
      let task := set_updated_at now (set_started_at (Some now) (set_status RUNNING task)) in
      Ok tt (mk (queue q) (JsMap.set taskId task (processing q)) (completed q) (config q))
  end.

(** [completeTask(taskId, result)] *)
Definition completeTask (taskId : string) (res : option string) (now : Z) (q : t)
  : outcome unit :=
  match JsMap.get taskId (processing q) with
  | None => Throw (not_found taskId) q
  | Some task =>
      let task :=
        set_updated_at now
          (set_completed_at (Some now) (set_result res (set_status COMPLETED task))) in
      Ok tt (mk (queue q) (JsMap.del taskId (processing q))
               (JsMap.set taskId task (completed q)) (config q))
  end.

(** [failTask(taskId, error)] *)
Definition failTask (taskId : string) (err : string) (now : Z) (q : t) : outcome unit :=
  match JsMap.get taskId (processing q) with
  | None => Throw (not_found taskId) q
  | Some task =>
      let task :=
        set_updated_at now
          (set_error (Some err) (set_retry_count (retry_count task + 1) task)) in
      if decide (retry_count task >= max_retries task) then
        let task := set_completed_at (Some now) (set_status FAILED task) in
        Ok tt (mk (queue q) (JsMap.del taskId (processing q))
                 (JsMap.set taskId task (completed q)) (config q))
      else
        let task :=
          set_started_at None
            (set_assigned_at None (set_assigned_agent None (set_status PENDING task))) in
        Ok tt (mk (queue q ++ [task]) (JsMap.del taskId (processing q))
                 (completed q) (config q))
  end.

(** [this.queue.findIndex(t => t.id === taskId)] followed by
    [splice(queueIndex, 1)]: the first task with that id and the queue
    without it. *)
Fixpoint splice_id (taskId : string) (l : list Task) : option (Task * list Task) :=
  match l with
  | [] => None
  | x :: l' =>
      if decide (id x = taskId) then Some (x, l')
      else match splice_id taskId l' with
           | Some (y, r) => Some (y, x :: r)
           | None => None
           end
  end.

(** [cancelTask(taskId)] *)
Definition cancelTask (taskId : string) (now : Z) (q : t) : outcome unit :=
  match splice_id taskId (queue q) with
  | Some (task, rest) =>
      let task := set_updated_at now (set_status CANCELLED task) in
      Ok tt (mk rest (processing q) (JsMap.set taskId task (completed q)) (config q))
  | None =>
      match JsMap.get taskId (processing q) with
      | Some processingTask =>
          let processingTask :=
            set_completed_at (Some now)
              (set_updated_at now (set_status CANCELLED processingTask)) in
          Ok tt (mk (queue q) (JsMap.del taskId (processing q))
                   (JsMap.set taskId processingTask (completed q)) (config q))
      | None => Ok tt q
      end
  end.

(** [getTask(taskId)] *)
Definition getTask (taskId : string) (q : t) : option Task :=
  match List.find (fun x => bool_decide (id x = taskId)) (queue q) with
  | Some x => Some x
  | None =>
      match JsMap.get taskId (processing q) with
      | Some x => Some x
      | None => JsMap.get taskId (completed q)
      end
  end.

(** [cleanup()]: an entry goes when [task.completed_at! < cutoffDate];
    with [completed_at] undefined the comparison is false. *)
Definition cleanup (now : Z) (q : t) : outcome unit :=
  let cutoffDate := now - task_retention_days (config q) * 24 * 60 * 60 * 1000 in
  let tasksToRemove :=
    List.filter (fun e : string * Task =>
                   match completed_at e.2 with
                   | Some c => (c <? cutoffDate)%Z
                   | None => false
                   end) (completed q) in
  Ok tt (mk (queue q) (processing q)
           (foldl (fun m e => JsMap.del e.1 m) (completed q) tasksToRemove) (config q)).

(** [checkTimeouts()]: the ids are collected first, then failed in the
    order of the processing map. *)
Definition timedOut (now : Z) (e : string * Task) : bool :=
  match started_at e.2 with
  | Some s => (now - s >? timeout e.2)%Z
  | None => false
  end.

Fixpoint failAll (ids : list string) (now : Z) (q : t) : outcome unit :=
  match ids with
  | [] => Ok tt q
  | taskId :: ids' =>
      match failTask taskId "Task timeout" now q with
      | Ok _ q' => failAll ids' now q'
      | Throw msg q' => Throw msg q'
      end
  end.

Definition checkTimeouts (now : Z) (q : t) : outcome unit :=
  let timedOutTasks := (List.filter (timedOut now) (processing q)).*1 in
  failAll timedOutTasks now q.

(** [getAgentTasks(agentId)] *)
Definition getAgentTasks (agentId : string) (q : t) : list Task :=
  filter (fun x => assigned_agent x = Some agentId) (JsMap.values (processing q)).

(** *** Sequences of calls *)

Inductive Op :=
  | OpEnqueue (task : TaskInput) (uuid : string) (now : Z)
  | OpDequeue (agentId : option string) (now : Z)
  | OpStartTask (taskId : string) (now : Z)
  | OpCompleteTask (taskId : string) (res : option string) (now : Z)
  | OpFailTask (taskId : string) (err : string) (now : Z)
  | OpCancelTask (taskId : string) (now : Z)
  | OpCheckTimeouts (now : Z)
  | OpCleanup (now : Z).

Definition apply (q : t) (op : Op) : t :=
  match op with
  | OpEnqueue task uuid now => state_of (enqueue task uuid now q)
  | OpDequeue agentId now => state_of (dequeue agentId now q)
  | OpStartTask taskId now => state_of (startTask taskId now q)
  | OpCompleteTask taskId res now => state_of (completeTask taskId res now q)
  | OpFailTask taskId err now => state_of (failTask taskId err now q)
  | OpCancelTask taskId now => state_of (cancelTask taskId now q)
  | OpCheckTimeouts now => state_of (checkTimeouts now q)
  | OpCleanup now => state_of (cleanup now q)
  end.

(** Every id the queue holds, store by store. *)
Definition ids (q : t) : list string :=
  (id <$> queue q) ++ JsMap.keys (processing q) ++ JsMap.keys (completed q).

(** [uuidv4()] returns an id no task of the queue has. *)
Definition fresh_uuid (q : t) (op : Op) : Prop :=
  match op with
  | OpEnqueue _ uuid _ => uuid ∉ ids q
  | _ => True
  end.

(** The states that calls allowed by [ok] reach from a queue just
    constructed. *)
Inductive reachable_by (ok : t -> Op -> Prop) (cfg : TaskConfig) : t -> Prop :=
  | reach_new : reachable_by ok cfg (new cfg)
  | reach_step q op :
      reachable_by ok cfg q -> ok q op -> reachable_by ok cfg (apply q op).

(** A sequence of calls, and what [ok] asks of each of them. *)
Definition run (ops : list Op) (q : t) : t := foldl apply q ops.

Fixpoint allowed (ok : t -> Op -> Prop) (ops : list Op) (q : t) : Prop :=
  match ops with
  | [] => True
  | op :: ops' => ok q op /\ allowed ok ops' (apply q op)
  end.

#[global] Instance fresh_uuid_dec q op : Decision (fresh_uuid q op).
Proof. destruct op; simpl; apply _. Defined.

#[global] Instance allowed_dec (ok : t -> Op -> Prop)
  `{!forall q op, Decision (ok q op)} ops q : Decision (allowed ok ops q).
Proof. revert q. induction ops as [|op ops IH]; intros q; simpl; apply _. Defined.

(** The states the operations reach: any calls, with fresh ids. *)
Definition reachable : TaskConfig -> t -> Prop := reachable_by fresh_uuid.

(** Callers that name the agent in every [dequeue], and callers that
    enqueue tasks without an [assigned_agent]. *)
Definition dequeues_for_agent (q : t) (op : Op) : Prop :=
  fresh_uuid q op /\
  match op with
  | OpDequeue agentId _ => is_Some agentId
  | _ => True
  end.

Definition enqueues_unassigned (q : t) (op : Op) : Prop :=
  fresh_uuid q op /\
  match op with
  | OpEnqueue task _ _ => in_assigned_agent task = None
  | _ => True
  end.

#[global] Instance dequeues_for_agent_dec q op : Decision (dequeues_for_agent q op).
Proof. unfold dequeues_for_agent. destruct op; apply _. Defined.

#[global] Instance enqueues_unassigned_dec q op : Decision (enqueues_unassigned q op).
Proof. unfold enqueues_unassigned. destruct op; apply _. Defined.

(** Every task the queue holds. *)
Definition tasks (q : t) : list Task :=
  queue q ++ JsMap.values (processing q) ++ JsMap.values (completed q).

Definition in_progress (task : Task) : Prop :=
  status task = ASSIGNED \/ status task = RUNNING.

Definition terminal (task : Task) : Prop :=
  status task = COMPLETED \/ status task = FAILED \/ status task = CANCELLED.

(** *** A task that always fails *)

(** One attempt: the task is dequeued, then failed. *)
Definition attempt (agentId : option string) (taskId err : string) (now : Z) (q : t) : t :=
  state_of (failTask taskId err now (state_of (dequeue agentId now q))).

(** The first [k] attempts; attempt number [i] happens at time [clock i]. *)
Fixpoint attempts (agentId : option string) (taskId err : string) (clock : nat -> Z)
  (k : nat) (q : t) : t :=
  match k with
  | O => q
  | S k' => attempt agentId taskId err (clock k') (attempts agentId taskId err clock k' q)
  end.

(** Attempts are made as long as the task comes back to the pending
    collection.  The result counts the [failTask] calls made and the
    re-insertions seen; [None] when [fuel] attempts were not enough. *)
Fixpoint retry_loop (fuel : nat) (agentId : option string) (taskId err : string)
  (clock : nat -> Z) (calls requeues : nat) (q : t) : option (nat * nat * t) :=
  match fuel with
  | O => None
  | S fuel' =>
      let q' := attempt agentId taskId err (clock calls) q in
      if bool_decide (taskId ∈ id <$> queue q')
      then retry_loop fuel' agentId taskId err clock (S calls) (S requeues) q'
      else Some (S calls, requeues, q')
  end.

(** The task as a retry puts it back: dequeued at [now], failed with
    [err], re-inserted. *)
Definition retried (err : string) (now : Z) (task : Task) : Task :=
  mkTask (id task) (type task) (subtype task) (priority task) PENDING (data task)
    (result task) (Some err) (created_at task) now None None None (completed_at task)
    (retry_count task + 1) (max_retries task) (timeout task) (tags task) (metadata task).

Fixpoint retried_n (err : string) (clock : nat -> Z) (k : nat) (task : Task) : Task :=
  match k with
  | O => task
  | S k' => retried err (clock k') (retried_n err clock k' task)
  end.

(** The task as its last failure leaves it: dequeued for [agentId] at
    [now], failed with [err]. *)
Definition exhausted (agentId : option string) (err : string) (now : Z) (task : Task)
  : Task :=
  mkTask (id task) (type task) (subtype task) (priority task) FAILED (data task)
    (result task) (Some err) (created_at task) now agentId (Some now) (started_at task)
    (Some now) (retry_count task + 1) (max_retries task) (timeout task) (tags task)
    (metadata task).

(** *** Invariants of the stores *)

(** No id occurs twice, within a store or across two of them. *)
Definition disjoint_stores (q : t) : Prop := NoDup (ids q).

(** A map holds every task under the task's own id. *)
Definition keyed (m : JsMap Task) : Prop := Forall (fun e => id e.2 = e.1) m.

Definition wf (q : t) : Prop := disjoint_stores q /\ keyed (processing q).

(** The status of a task tells its store; [agent] is what is known of the
    [assigned_agent] of a task in the processing map. *)
Definition status_inv (agent : option string -> Prop) (q : t) : Prop :=
  Forall (fun task => status task = PENDING) (queue q) /\
  Forall (fun e => in_progress e.2 /\ agent (assigned_agent e.2)) (processing q) /\
  Forall (fun e => terminal e.2) (completed q).

(** Pending tasks that carry no agent. *)
Definition pending_unassigned (q : t) : Prop :=
  Forall (fun task => assigned_agent task = None) (queue q).

(** *** The failures of one task among others *)

(** Whether the operation makes a call of [failTask] for [taskId] that
    finds the task in the processing map: a call of [failTask] itself, or
    [checkTimeouts] when the task has timed out. *)
Definition fails_now (taskId : string) (op : Op) (q : t) : bool :=
  match op with
  | OpFailTask taskId' _ _ =>
      bool_decide (taskId' = taskId) &&
      bool_decide (is_Some (JsMap.get taskId (processing q)))
  | OpCheckTimeouts now =>
      bool_decide (taskId ∈ (List.filter (timedOut now) (processing q)).*1)
  | _ => false
  end.

(** The number of such calls in a sequence of operations. *)
Fixpoint failures (taskId : string) (ops : list Op) (q : t) : nat :=
  match ops with
  | [] => 0
  | op :: ops' =>
      ((if fails_now taskId op q then 1 else 0) + failures taskId ops' (apply q op))%nat
  end.

(** Calls that leave the task to [dequeue] and [failTask]: the ids are
    fresh, [uuidv4()] does not return the id of the task again, and the
    task is neither completed nor cancelled. *)
Definition retries_only (taskId : string) (q : t) (op : Op) : Prop :=
  fresh_uuid q op /\
  match op with
  | OpEnqueue _ uuid _ => uuid ≠ taskId
  | OpCompleteTask taskId' _ _ => taskId' ≠ taskId
  | OpCancelTask taskId' _ => taskId' ≠ taskId
  | _ => True
  end.

#[global] Instance retries_only_dec taskId q op : Decision (retries_only taskId q op).
Proof. unfold retries_only. destruct op; apply _. Defined.

(** The task, with [k] failures behind it and [max_retries = n], is
    pending or in the processing map. *)
Definition alive (taskId : string) (k n : Z) (q : t) : Prop :=
  (exists task, task ∈ queue q /\ id task = taskId /\
     retry_count task = k /\ max_retries task = n) \/
  (exists task, JsMap.get taskId (processing q) = Some task /\
     retry_count task = k /\ max_retries task = n).

(** The task is neither pending nor in the processing map. *)
Definition gone (taskId : string) (q : t) : Prop :=
  (taskId ∉ id <$> queue q) /\ (taskId ∉ JsMap.keys (processing q)).

(** The task as a retry leaves it: pending again, with its agent and its
    times of assignment and start cleared. *)
Definition requeued (taskId : string) (k n : Z) (q : t) : Prop :=
  exists task,
    task ∈ queue q /\ id task = taskId /\ status task = PENDING /\
    retry_count task = k /\ max_retries task = n /\
    assigned_agent task = None /\ assigned_at task = None /\ started_at task = None.

(** The task as its last failure leaves it. *)
Definition failed_for_good (taskId : string) (k : Z) (q : t) : Prop :=
  exists task,
    JsMap.get taskId (completed q) = Some task /\ status task = FAILED /\
    retry_count task = k.

(** Where the task is after its [k]-th failure. *)
Definition after_failure (taskId : string) (k n : Z) (q : t) : Prop :=
  (taskId ∉ JsMap.keys (processing q)) /\
  (k < n -> requeued taskId k n q /\ (taskId ∉ JsMap.keys (completed q))) /\
  (k >= n -> failed_for_good taskId k q /\ (taskId ∉ id <$> queue q)).

(** Where the task is with [k] failures behind it. *)
Definition situation (taskId : string) (k n : Z) (q : t) : Prop :=
  wf q /\ ((k < n /\ alive taskId k n q) \/ (k = n /\ gone taskId q)).

(** *** Counts and order *)

(** [getQueueStatus()] *)
Record QueueStatus := mkQueueStatus {
  queued : Z;
  in_processing : Z;
  in_completed : Z;
  max_concurrent : Z
}.

Definition getQueueStatus (q : t) : QueueStatus :=
  mkQueueStatus (Z.of_nat (length (queue q))) (JsMap.size (processing q))
    (JsMap.size (completed q)) (max_concurrent_tasks (config q)).

(** The number of tasks in the three stores, from the counts of
    [getQueueStatus]. *)
Definition total (q : t) : Z :=
  queued (getQueueStatus q) + in_processing (getQueueStatus q)
  + in_completed (getQueueStatus q).

(** What a call adds to that number. *)
Definition enqueued (op : Op) : Z :=
  match op with
  | OpEnqueue _ _ _ => 1
  | _ => 0
  end.

(** Calls that neither add a task nor purge the completed store. *)
Definition quiet (op : Op) : Prop :=
  match op with
  | OpEnqueue _ _ _ => False
  | OpCleanup _ => False
  | _ => True
  end.

(** The task as the scheduler starts it: dequeued without an agent id and
    started, both at [now]. *)
Definition started (now : Z) (task : Task) : Task :=
  mkTask (id task) (type task) (subtype task) (priority task) RUNNING (data task)
    (result task) (error task) (created_at task) now None (Some now) (Some now)
    (completed_at task) (retry_count task) (max_retries task) (timeout task)
    (tags task) (metadata task).

(** What [cleanup] at [now] removes. *)
Definition expired (now : Z) (q : t) (e : string * Task) : bool :=
  match completed_at e.2 with
  | Some c => (c <? now - task_retention_days (config q) * 24 * 60 * 60 * 1000)%Z
  | None => false
  end.

(** A task id that is pending or in the completed store. *)
Definition settled (taskId : string) (q : t) : Prop :=
  taskId ∈ (id <$> queue q) \/ taskId ∈ JsMap.keys (completed q).

(** The order [dequeue] is meant to follow: a higher priority first, and
    among equal priorities the earlier creation time first. *)
Definition goes_before (a b : Task) : Prop :=
  priority b < priority a \/
  (priority b = priority a /\ created_at a <= created_at b).

(** Calls with fresh ids and a clock that does not run backwards at
    [enqueue], none of which re-inserts a failed task. *)
Definition without_retry (q : t) (op : Op) : Prop :=
  fresh_uuid q op /\
  match op with
  | OpEnqueue _ _ now => Forall (fun task => created_at task <= now) (queue q)
  | OpFailTask _ _ _ => False
  | OpCheckTimeouts _ => False
  | _ => True
  end.

End TaskQueue.

(** ** The task router and the load balancer (task/task-router.ts) *)

Module TaskRouter.

Definition initializeRoutes : gmap string (list string) :=
  <["cleanup_data" := ["processor"]]>
  (<["generate_report" := ["analyzer"]]>
  (<["extract_events" := ["processor"]]>
  (<["extract_entities" := ["processor"]]>
  (<["detect_risks" := ["analyzer"]]>
  (<["analyze_sentiment" := ["analyzer"]]>
  (<["process_content" := ["processor"]]>
  (<["collect_news" := ["collector"]]> ∅))))))).

(** [routeBySubtype(taskType, subtype, capableAgents)] *)
Definition routeBySubtype (taskType subtype : string) (capableAgents : list string)
  : list string :=
  if decide (taskType = "collect_news") then
    if decide (subtype = "rss") then ["collector"]
    else if decide (subtype = "web") then ["collector"]
    else if decide (subtype = "api") then ["collector"]
    else capableAgents
  else if decide (taskType = "process_content") then
    if decide (subtype = "clean") then ["processor"]
    else if decide (subtype = "extract") then ["processor"]
    else capableAgents
  else if decide (taskType = "analyze_sentiment") then
    if decide (subtype = "basic") then ["analyzer"]
    else if decide (subtype = "advanced") then ["analyzer"]
    else capableAgents
  else capableAgents.

(** [routeTask(task)]; [if (task.subtype)] holds for a non-empty string. *)
Definition routeTask (routeTable : gmap string (list string)) (task : Task)
  : list string :=
  let capableAgents := default [] (routeTable !! type task) in
  match subtype task with
  | Some sub =>
      if decide (sub = "") then capableAgents
      else routeBySubtype (type task) sub capableAgents
  | None => capableAgents
  end.

Definition addRoute (taskType : string) (agents : list string)
  (routeTable : gmap string (list string)) : gmap string (list string) :=
  <[taskType := agents]> routeTable.

Definition removeRoute (taskType : string)
  (routeTable : gmap string (list string)) : gmap string (list string) :=
  delete taskType routeTable.

(** [canAgentHandleTask(agentType, taskType)] *)
Definition canAgentHandleTask (routeTable : gmap string (list string))
  (agentType taskType : string) : bool :=
  bool_decide (agentType ∈ default [] (routeTable !! taskType)).

(** The task types and subtypes for which [routeBySubtype] names the agent
    itself. *)
Definition subtype_routes : list (string * string * string) :=
  [("collect_news", "rss", "collector"); ("collect_news", "web", "collector");
   ("collect_news", "api", "collector"); ("process_content", "clean", "processor");
   ("process_content", "extract", "processor");
   ("analyze_sentiment", "basic", "analyzer");
   ("analyze_sentiment", "advanced", "analyzer")].

End TaskRouter.

Module LoadBalancer.

Record t := mk {
  agentLoads : gmap string Z;
  agentStatus : gmap string bool
}.

Definition updateAgentLoad (agentId : string) (load : Z) (lb : t) : t :=
  mk (<[agentId := load]> (agentLoads lb)) (agentStatus lb).

Definition updateAgentStatus (agentId : string) (isHealthy : bool) (lb : t) : t :=
  mk (agentLoads lb) (<[agentId := isHealthy]> (agentStatus lb)).

(** [this.agentLoads.get(a) || 0] *)
Definition loadOf (lb : t) (agentId : string) : Z :=
  default 0 (agentLoads lb !! agentId).

(** The loop over [healthyAgents[1..]]: a candidate replaces the best one
    only with a strictly lower load. *)
Fixpoint pickLowest (lb : t) (bestAgent : string) (lowestLoad : Z)
  (rest : list string) : string :=
  match rest with
  | [] => bestAgent
  | a :: rest' =>
      let currentLoad := loadOf lb a in
      if decide (currentLoad < lowestLoad) then pickLowest lb a currentLoad rest'
      else pickLowest lb bestAgent lowestLoad rest'
  end.

(** [selectBestAgent(candidateAgents)] *)
Definition selectBestAgent (candidateAgents : list string) (lb : t) : option string :=
  let healthyAgents :=
    List.filter (fun a => negb (bool_decide (agentStatus lb !! a = Some false)))
      candidateAgents in
  match healthyAgents with
  | [] => None
  | first :: rest => Some (pickLowest lb first (loadOf lb first) rest)
  end.

(** [resetAgentLoad(agentId)] *)
Definition resetAgentLoad (agentId : string) (lb : t) : t :=
  mk (delete agentId (agentLoads lb)) (agentStatus lb).

(** [removeAgent(agentId)] *)
Definition removeAgent (agentId : string) (lb : t) : t :=
  mk (delete agentId (agentLoads lb)) (delete agentId (agentStatus lb)).

(** A candidate [selectBestAgent] does not filter out. *)
Definition eligible (lb : t) (agentId : string) : Prop :=
  agentStatus lb !! agentId ≠ Some false.

End LoadBalancer.

Module TaskPriorityManager.

(** [enum TaskPriority] *)
Definition LOW : Z := 1.
Definition NORMAL : Z := 2.
Definition HIGH : Z := 3.
Definition CRITICAL : Z := 4.

(** The fields of the [Partial<Task>] that [calculatePriority] reads. *)
Record PartialTask := mkPartial {
  p_type : option string;
  p_tags : option (list string);
  p_timeout : option Z
}.

(** [task.tags?.includes(tag)] *)
Definition has_tag (tag : string) (task : PartialTask) : bool :=
  match p_tags task with
  | Some tags => bool_decide (tag ∈ tags)
  | None => false
  end.

(** [calculatePriority(task)] *)
Definition calculatePriority (task : PartialTask) : Z :=
  let priority :=
    if bool_decide (p_type task = Some "detect_risks") then HIGH else NORMAL in
  let priority :=
    if has_tag "urgent" task then Z.min (priority + 1) CRITICAL else priority in
  let priority :=
    if has_tag "low-priority" task then Z.max (priority - 1) LOW else priority in
  let priority :=
    match p_timeout task with
    | Some timeout =>
        if bool_decide (timeout ≠ 0 /\ timeout < 30000)
        then Z.min (priority + 1) CRITICAL else priority
    | None => priority
    end in
  priority.

(** [compareTasks(taskA, taskB)] *)
Definition compareTasks (taskA taskB : Task) : Z :=
  if bool_decide (priority taskA ≠ priority taskB)
  then priority taskB - priority taskA
  else created_at taskA - created_at taskB.

End TaskPriorityManager.

(** ** The scheduler (task/task-scheduler.ts) *)

Module TaskScheduler.

Record t := mk {
  taskQueue : TaskQueue.t;
  routeTable : gmap string (list string);
  loadBalancer : LoadBalancer.t
}.

Definition new (cfg : TaskConfig) : t :=
  mk (TaskQueue.new cfg) TaskRouter.initializeRoutes (LoadBalancer.mk ∅ ∅).

Definition with_queue (s : t) (q : TaskQueue.t) : t :=
  mk q (routeTable s) (loadBalancer s).

(** [assignTaskToAgent(task, agentId)] up to the point where it hands the
    task to [simulateTaskExecution], which it does not await.  An error
    of [startTask] is caught and the task failed; an error of that
    [failTask] is caught by the caller. *)
Definition assignTaskToAgent (task : Task) (agentId : string) (now : Z) (s : t) : t :=
  let currentLoad := LoadBalancer.loadOf (loadBalancer s) agentId in
  let lb := LoadBalancer.updateAgentLoad agentId (currentLoad + 1) (loadBalancer s) in
  match TaskQueue.startTask (id task) now (taskQueue s) with
  | TaskQueue.Ok _ q => mk q (routeTable s) lb
  | TaskQueue.Throw msg q =>
      mk (TaskQueue.state_of
            (TaskQueue.failTask (id task) ("Assignment failed: Error: " +:+ msg) now q))
         (routeTable s) lb
  end.

(** [scheduleNextTask()]; [!selectedAgent] holds for [null] and for the
    empty string. *)
Definition scheduleNextTask (now : Z) (s : t) : t :=
  match TaskQueue.dequeue None now (taskQueue s) with
  | TaskQueue.Throw _ q => with_queue s q
  | TaskQueue.Ok None q => with_queue s q
  | TaskQueue.Ok (Some task) q =>
      let capableAgents := TaskRouter.routeTask (routeTable s) task in
      match capableAgents with
      | [] =>
          with_queue s
            (TaskQueue.state_of
               (TaskQueue.failTask (id task) "No capable agents available" now q))
      | _ :: _ =>
          match LoadBalancer.selectBestAgent capableAgents (loadBalancer s) with
          | Some selectedAgent =>
              if decide (selectedAgent = "") then
                with_queue s
                  (TaskQueue.state_of
                     (TaskQueue.failTask (id task) "No healthy agents available" now q))
              else assignTaskToAgent task selectedAgent now (with_queue s q)
          | None =>
              with_queue s
                (TaskQueue.state_of
                   (TaskQueue.failTask (id task) "No healthy agents available" now q))
          end
      end
  end.

(** [scheduleTasks()]: one [scheduleNextTask] per free slot counted at the
    start of the tick. *)
Definition scheduleTasks (now : Z) (s : t) : t :=
  let processing := JsMap.size (TaskQueue.processing (taskQueue s)) in
  let max_concurrent := max_concurrent_tasks (TaskQueue.config (taskQueue s)) in
  if decide (processing >= max_concurrent) then s
  else
    let availableSlots := max_concurrent - processing in
    Nat.iter (Z.to_nat availableSlots) (scheduleNextTask now) s.

(** [createTask] hands the task to [enqueue]; the priority manager is not
    part of this development, so the caller gives the priority. *)
Definition enqueueTask (task : TaskInput) (uuid : string) (now : Z) (s : t) : t :=
  with_queue s (TaskQueue.state_of (TaskQueue.enqueue task uuid now (taskQueue s))).




End TaskScheduler.

(** ** The communication protocol (enhanced communication protocol) *)

Module Protocol.

Inductive BreakerState := CLOSED | OPEN | HALF_OPEN.

#[global] Instance BreakerState_eq_dec : EqDecision BreakerState.
Proof. solve_decision. Defined.

Record CircuitBreakerState := mkBreaker {
  state : BreakerState;
  failures : Z;
  last_failure_time : Z;
  success_count : Z
}.

Record CircuitBreakerConfig := mkBreakerConfig {
  enabled : bool;
  failure_threshold : Z;
  recovery_timeout : Z;
  monitoring_period : Z
}.

Record RateLimitConfig := mkRateLimit {
  rl_enabled : bool;
  max_requests : Z;
  time_window : Z
}.

(** [AgentMessage] as it arrives in a request body: a field can be absent. *)
Record AgentMessage := mkMessage {
  from : option string;
  to : option string;
  type : option string;
  action : option string;
  data : string;
  timestamp : option Z;
  message_id : option string
}.

(** A registered handler returns, or throws an error with a message. *)
Definition Handler := AgentMessage -> option string.

Record t := mk {
  circuitBreakerConfig : CircuitBreakerConfig;
  rate_limit : RateLimitConfig;
  messageHandlers : gmap string Handler;
  circuitBreaker : gmap string CircuitBreakerState;
  rateLimiter : gmap string (list Z);
  (** the messages handed to a handler so far, oldest first *)
  dispatched : list AgentMessage
}.

Definition with_breakers (p : t) (cb : gmap string CircuitBreakerState) : t :=
  mk (circuitBreakerConfig p) (rate_limit p) (messageHandlers p) cb (rateLimiter p)
     (dispatched p).

Definition with_rateLimiter (p : t) (rl : gmap string (list Z)) : t :=
  mk (circuitBreakerConfig p) (rate_limit p) (messageHandlers p) (circuitBreaker p) rl
     (dispatched p).

Definition with_dispatched (p : t) (d : list AgentMessage) : t :=
  mk (circuitBreakerConfig p) (rate_limit p) (messageHandlers p) (circuitBreaker p)
     (rateLimiter p) d.

(** What a middleware or an endpoint does with the request. *)
Inductive Reply :=
  | Next
  | Respond (code : Z) (err : option string).

(** *** Circuit breaker *)

(** [initializeCircuitBreakerForAgent(agentName)] *)
Definition initializeCircuitBreakerForAgent (agentName : string) (p : t) : t :=
  if negb (enabled (circuitBreakerConfig p)) then p
  else with_breakers p (<[agentName := mkBreaker CLOSED 0 0 0]> (circuitBreaker p)).

(** The two branches of [updateCircuitBreaker] on the breaker object. *)
Definition recordSuccess (breaker : CircuitBreakerState) : CircuitBreakerState :=
  let success_count' := success_count breaker + 1 in
  if decide (state breaker = HALF_OPEN /\ success_count' >= 3)
  then mkBreaker CLOSED 0 (last_failure_time breaker) 0
  else mkBreaker (state breaker) 0 (last_failure_time breaker) success_count'.

Definition recordFailure (cfg : CircuitBreakerConfig) (now : Z)
  (breaker : CircuitBreakerState) : CircuitBreakerState :=
  let failures' := failures breaker + 1 in
  if decide (failures' >= failure_threshold cfg)
  then mkBreaker OPEN failures' now 0
  else mkBreaker (state breaker) failures' now 0.

(** [updateCircuitBreaker(agentName, success)] *)
Definition updateCircuitBreaker (agentName : string) (success : bool) (now : Z) (p : t)
  : t :=
  if negb (enabled (circuitBreakerConfig p)) then p
  else
    match circuitBreaker p !! agentName with
    | None => p
    | Some breaker =>
        let breaker' :=
          if success then recordSuccess breaker
          else recordFailure (circuitBreakerConfig p) now breaker in
        with_breakers p (<[agentName := breaker']> (circuitBreaker p))
    end.

(** [isCircuitBreakerOpen(agentName)] *)
Definition isCircuitBreakerOpen (agentName : string) (now : Z) (p : t) : bool * t :=
  if negb (enabled (circuitBreakerConfig p)) then (false, p)
  else
    match circuitBreaker p !! agentName with
    | None => (false, p)
    | Some breaker =>
        if decide (state breaker = OPEN) then
          if decide (now - last_failure_time breaker
                     > recovery_timeout (circuitBreakerConfig p))
          then
            (false,
             with_breakers p
               (<[agentName := mkBreaker HALF_OPEN (failures breaker)
                                 (last_failure_time breaker) 0]> (circuitBreaker p)))
          else (true, p)
        else (false, p)
    end.


(** A run of failure reports, one per time of [times], and a run of
    success reports. *)
Definition reportFailures (agentName : string) (times : list Z) (p : t) : t :=
  foldl (fun p now => updateCircuitBreaker agentName false now p) p times.

Definition reportSuccesses (agentName : string) (times : list Z) (p : t) : t :=
  foldl (fun p now => updateCircuitBreaker agentName true now p) p times.

(** *** Rate limiter *)

(** [rateLimitMiddleware(req, res, next)] for a request of [clientIp]. *)
Definition rateLimitMiddleware (clientIp : string) (now : Z) (p : t) : Reply * t :=
  let windowStart := now - time_window (rate_limit p) in
  let requests := default [] (rateLimiter p !! clientIp) in
  let requests := List.filter (fun time => (time >? windowStart)%Z) requests in
  if decide (Z.of_nat (length requests) >= max_requests (rate_limit p)) then
    (Respond 429 (Some "Rate limit exceeded"), p)
  else
    (Next, with_rateLimiter p (<[clientIp := requests ++ [now]]> (rateLimiter p))).

(** The middleware over a stream of requests, each with its client and
    its arrival time; the replies are paired with the clients. *)
Fixpoint serve (reqs : list (string * Z)) (p : t) : list (string * Reply) * t :=
  match reqs with
  | [] => ([], p)
  | (clientIp, now) :: rest =>
      let '(r, p') := rateLimitMiddleware clientIp now p in
      let '(rs, p'') := serve rest p' in
      ((clientIp, r) :: rs, p'')
  end.

(** What a stream holds for one client, in order. *)
Definition of_client {A} (clientIp : string) (l : list (string * A)) : list A :=
  (List.filter (fun x : string * A => bool_decide (x.1 = clientIp)) l).*2.

(** The earliest of the times [t0 :: ts]. *)
Definition oldest (t0 : Z) (ts : list Z) : Z := foldr Z.min t0 ts.

(** The timestamps stored for a client. *)
Definition stored (clientIp : string) (p : t) : list Z :=
  default [] (rateLimiter p !! clientIp).

(** The middleware over the requests of one client alone. *)
Definition serve_client (clientIp : string) (times : list Z) (p : t)
  : list (string * Reply) * t :=
  serve ((fun now => (clientIp, now)) <$> times) p.

(** Inside the window of length [time_window] that starts at [b]: the
    rate-limit settings are those of [p0], and the timestamps stored for the
    client are expired ones followed by [admitted], which lie in the
    window. *)
Definition inside (clientIp : string) (b : Z) (p0 : t) (admitted : list Z) (p : t)
  : Prop :=
  rate_limit p = rate_limit p0 /\
  exists expired,
    stored clientIp p = expired ++ admitted /\
    Forall (fun x => x <= b - time_window (rate_limit p0)) expired /\
    Forall (fun x => b <= x < b + time_window (rate_limit p0)) admitted.

(** *** Inbound messages *)

(** [!message[field]] for a string field and for the timestamp. *)
Definition missing_str (f : option string) : bool :=
  match f with
  | Some v => bool_decide (v = "")
  | None => true
  end.

Definition missing_num (f : option Z) : bool :=
  match f with
  | Some v => bool_decide (v = 0)
  | None => true
  end.

(** The first of the required fields, in the order of [requiredFields],
    that the message lacks. *)
Definition first_missing (message : AgentMessage) : option string :=
  if missing_str (from message) then Some "from"
  else if missing_str (to message) then Some "to"
  else if missing_str (type message) then Some "type"
  else if missing_str (action message) then Some "action"
  else if missing_num (timestamp message) then Some "timestamp"
  else if missing_str (message_id message) then Some "message_id"
  else None.

Definition MESSAGE_TYPES : list string := ["request"; "response"; "event"].

(** [validateMessage(req, res, next)] *)
Definition validateMessage (now : Z) (message : AgentMessage) : Reply :=
  match first_missing message with
  | Some field => Respond 400 (Some ("Missing required field: " +:+ field))
  | None =>
      let ty := default "" (type message) in
      if negb (bool_decide (ty ∈ MESSAGE_TYPES)) then
        Respond 400 (Some ("Invalid message type: " +:+ ty))
      else if decide (Z.abs (now - default 0 (timestamp message)) > 300000) then
        Respond 400 (Some "Message timestamp too old or too new")
      else Next
  end.

(** The loop of [validateBatchMessages] over the entries. *)
Fixpoint validateEntries (i : Z) (messages : list AgentMessage) : Reply :=
  match messages with
  | [] => Next
  | message :: rest =>
      match first_missing message with
      | Some field =>
          Respond 400
            (Some ("Message " +:+ pretty i +:+ " missing required field: " +:+ field))
      | None => validateEntries (i + 1) rest
      end
  end.

(** [validateBatchMessages(req, res, next)] for a body that is an array. *)
Definition validateBatchMessages (messages : list AgentMessage) : Reply :=
  if decide (Z.of_nat (length messages) > 100) then
    Respond 400 (Some "Batch size cannot exceed 100 messages")
  else validateEntries 0 messages.

(** [handleMessageInternal(message)]: the handler's error, if it throws. *)
Definition handleMessageInternal (message : AgentMessage) (p : t) : option string * t :=
  match messageHandlers p !! default "" (action message) with
  | Some handler => (handler message, with_dispatched p (dispatched p ++ [message]))
  | None => (None, p)
  end.

Definition sender (message : AgentMessage) : string := default "" (from message).

(** [handleMessage(req, res)] *)
Definition handleMessage (now : Z) (message : AgentMessage) (p : t) : Reply * t :=
  let '(isOpen, p) := isCircuitBreakerOpen (sender message) now p in
  if isOpen then
    (Respond 500 (Some ("Circuit breaker is open for agent: " +:+ sender message)),
     updateCircuitBreaker (sender message) false now p)
  else
    match handleMessageInternal message p with
    | (None, p) => (Respond 200 None, p)
    | (Some err, p) =>
        (Respond 500 (Some err), updateCircuitBreaker (sender message) false now p)
    end.

(** One turn of the loop of [handleBatchMessages]: the entry of [results]
    for the message. *)
Definition handleBatchEntry (now : Z) (message : AgentMessage) (p : t)
  : (bool * option string) * t :=
  let '(isOpen, p) := isCircuitBreakerOpen (sender message) now p in
  if isOpen then ((false, Some "Circuit breaker is open"), p)
  else
    match handleMessageInternal message p with
    | (None, p) => ((true, None), updateCircuitBreaker (sender message) true now p)
    | (Some err, p) =>
        ((false, Some err), updateCircuitBreaker (sender message) false now p)
    end.

(** [handleBatchMessages(req, res)] *)
Fixpoint handleBatchMessages (now : Z) (messages : list AgentMessage) (p : t)
  : list (bool * option string) * t :=
  match messages with
  | [] => ([], p)
  | message :: rest =>
      let '(r, p) := handleBatchEntry now message p in
      let '(rs, p) := handleBatchMessages now rest p in
      (r :: rs, p)
  end.

(** [POST /message]: the validator, then the handler. *)
Definition postMessage (now : Z) (message : AgentMessage) (p : t) : Reply * t :=
  match validateMessage now message with
  | Next => handleMessage now message p
  | reply => (reply, p)
  end.

(** [POST /messages/batch]: the validator, then the handler, which answers
    200 with the list of results. *)
Definition postBatch (now : Z) (messages : list AgentMessage) (p : t)
  : Reply * list (bool * option string) * t :=
  match validateBatchMessages messages with
  | Next =>
      let '(results, p) := handleBatchMessages now messages p in
      (Respond 200 None, results, p)
  | reply => (reply, [], p)
  end.

(** *** The clock while a request is served *)

(** The handlers above read the clock once; the code reads [Date.now()]
    in [validateMessage], again in [isCircuitBreakerOpen] and again in
    [updateCircuitBreaker], and the readings may differ. *)
Record Readings := mkReadings {
  received : Z;
  checked : Z;
  recorded : Z
}.

(** [handleMessage(req, res)], reading by reading. *)
Definition handleMessageAt (clock : Readings) (message : AgentMessage) (p : t)
  : Reply * t :=
  let '(isOpen, p) := isCircuitBreakerOpen (sender message) (checked clock) p in
  if isOpen then
    (Respond 500 (Some ("Circuit breaker is open for agent: " +:+ sender message)),
     updateCircuitBreaker (sender message) false (recorded clock) p)
  else
    match handleMessageInternal message p with
    | (None, p) => (Respond 200 None, p)
    | (Some err, p) =>
        (Respond 500 (Some err),
         updateCircuitBreaker (sender message) false (recorded clock) p)
    end.

(** [POST /message], reading by reading. *)
Definition postMessageAt (clock : Readings) (message : AgentMessage) (p : t)
  : Reply * t :=
  match validateMessage (received clock) message with
  | Next => handleMessageAt clock message p
  | reply => (reply, p)
  end.

(** [POST /message] over a stream of messages. *)
Fixpoint postMessagesAt (msgs : list (Readings * AgentMessage)) (p : t)
  : list Reply * t :=
  match msgs with
  | [] => ([], p)
  | (clock, message) :: rest =>
      let '(r, p) := postMessageAt clock message p in
      let '(rs, p) := postMessagesAt rest p in
      (r :: rs, p)
  end.

(** One turn of the loop of [handleBatchMessages], reading by reading
    ([received] is not read: the batch validator reads no clock). *)
Definition handleBatchEntryAt (clock : Readings) (message : AgentMessage) (p : t)
  : (bool * option string) * t :=
  let '(isOpen, p) := isCircuitBreakerOpen (sender message) (checked clock) p in
  if isOpen then ((false, Some "Circuit breaker is open"), p)
  else
    match handleMessageInternal message p with
    | (None, p) =>
        ((true, None), updateCircuitBreaker (sender message) true (recorded clock) p)
    | (Some err, p) =>
        ((false, Some err),
         updateCircuitBreaker (sender message) false (recorded clock) p)
    end.

(** [handleBatchMessages(req, res)] with the readings of each turn. *)
Fixpoint handleBatchMessagesAt (entries : list (Readings * AgentMessage)) (p : t)
  : list (bool * option string) * t :=
  match entries with
  | [] => ([], p)
  | (clock, message) :: rest =>
      let '(r, p) := handleBatchEntryAt clock message p in
      let '(rs, p) := handleBatchMessagesAt rest p in
      (r :: rs, p)
  end.

(** All readings of a request at [now]. *)
Definition at_once (now : Z) : Readings := mkReadings now now now.

(** *** Outbound messages *)

(** [AGENT_PORTS] of the shared configuration (its own keys; the members
    that a JavaScript object inherits are not considered). *)
Definition AGENT_PORTS : gmap string Z :=
  <["coordinator" := 3000]> (<["collector" := 3001]> (<["processor" := 3002]>
    (<["analyzer" := 3003]> ∅))).

(** What the request of [sendMessage] comes to: a response that is [ok] and
    whose body parses, or an error thrown inside the [try] (network error,
    abort on timeout, a response that is not ok, a body that does not
    parse), with its message. *)
Inductive Fetch :=
  | Fetched
  | FetchFailed (err : string).

(** How [sendMessage] ends: it returns the peer's result, it throws before
    the request is made, or it throws after the request was made. *)
Inductive Sent :=
  | Returned
  | Refused (err : string)
  | Failed (err : string).

(** [sendMessage(targetAgent, action, data)], called at [now], the request
    settling at [settled]; no other call runs in between. *)
Definition sendMessage (targetAgent : string) (now : Z) (fetch : Fetch) (settled : Z)
  (p : t) : Sent * t :=
  match AGENT_PORTS !! targetAgent with
  | None => (Refused ("Unknown target agent: " +:+ targetAgent), p)
  | Some targetPort =>
      let '(isOpen, p) := isCircuitBreakerOpen targetAgent now p in
      if isOpen then
        (Refused ("Circuit breaker is open for agent: " +:+ targetAgent), p)
      else
        match fetch with
        | Fetched => (Returned, updateCircuitBreaker targetAgent true settled p)
        | FetchFailed err =>
            (Failed err, updateCircuitBreaker targetAgent false settled p)
        end
  end.

(** [sendMessage] to one target, call after call. *)
Fixpoint sendMessages (targetAgent : string) (sends : list (Z * Fetch * Z)) (p : t)
  : list Sent * t :=
  match sends with
  | [] => ([], p)
  | (now, fetch, settled) :: rest =>
      let '(r, p) := sendMessage targetAgent now fetch settled p in
      let '(rs, p) := sendMessages targetAgent rest p in
      (r :: rs, p)
  end.

(** *** Further notions for the statements below *)

(** Each admission check comes at most [d] after the failure recorded
    before it, the first one at most [d] after [t0]. *)
Fixpoint gaps_within (d t0 : Z) (clocks : list Readings) : Prop :=
  match clocks with
  | [] => True
  | clock :: rest => checked clock - t0 <= d /\ gaps_within d (recorded clock) rest
  end.

(** The message passes [validateMessage]. *)
Definition passes (m : Readings * AgentMessage) : bool :=
  match validateMessage (received m.1) m.2 with
  | Next => true
  | Respond _ _ => false
  end.

(** The reply to a message of a peer that is shut out: that of the
    validator, or the 500 of the breaker. *)
Definition shut_out (peer : string) (m : Readings * AgentMessage) : Reply :=
  match validateMessage (received m.1) m.2 with
  | Next => Respond 500 (Some ("Circuit breaker is open for agent: " +:+ peer))
  | reply => reply
  end.

(** No admission check of the batch comes later than [d] after a failure
    recorded in the batch. *)
Definition served_within (d : Z) (entries : list (Readings * AgentMessage)) : Prop :=
  Forall (fun e : Readings * AgentMessage =>
            Forall (fun e' : Readings * AgentMessage =>
                      checked e'.1 - recorded e.1 <= d) entries) entries.

(** The handler registered for the message's action throws on it. *)
Definition handler_throws (p : t) (message : AgentMessage) : Prop :=
  exists handler err,
    messageHandlers p !! default "" (action message) = Some handler /\
    handler message = Some err.

(** A required string field that is there and not empty. *)
Definition present (f : option string) : Prop := exists v, f = Some v /\ v ≠ "".

(** A message with all six required fields; a [timestamp] of 0 counts as
    missing, like an empty string. *)
Definition complete (message : AgentMessage) : Prop :=
  present (from message) /\ present (to message) /\ present (type message) /\
  present (action message) /\
  (exists ts, timestamp message = Some ts /\ ts ≠ 0) /\
  present (message_id message).

(** No client has more timestamps stored than the ceiling. *)
Definition within_limit (p : t) : Prop :=
  forall clientIp, Z.of_nat (length (stored clientIp p)) <= max_requests (rate_limit p).

(** An OPEN breaker whose recovery window has passed at [now]. *)
Definition stale (cfg : CircuitBreakerConfig) (now : Z) (breaker : CircuitBreakerState)
  : Prop :=
  state breaker = OPEN /\ now - last_failure_time breaker > recovery_timeout cfg.

End Protocol.

(** ** The service registry (service registry and discovery) *)

(** ** Agent registration (EnhancedCommunicationProtocol, continued) *)

Module Registration.
Import Protocol.

(** [AgentStatus] as it arrives in a request body; [capabilities] is [None]
    when the field of the body is not an array. *)
Record AgentStatus := mkStatus {
  agent_name : string;
  status : string;
  port : Z;
  uptime : Z;
  last_heartbeat : Z;
  capabilities : option (list string)
}.

(** The protocol object with its [connectedAgents] map. *)
Record t := mk {
  protocol : Protocol.t;
  connectedAgents : gmap string AgentStatus
}.

(** [ValidationUtils.isValidPort(port)] *)
Definition isValidPort (port : Z) : bool := (0 <? port) && (port <=? 65535).

(** A character of the class [[a-zA-Z0-9_-]]. *)
Definition name_char (c : Ascii.ascii) : bool :=
  let n := Z.of_N (Ascii.N_of_ascii c) in
  ((97 <=? n) && (n <=? 122)) || ((65 <=? n) && (n <=? 90)) ||
  ((48 <=? n) && (n <=? 57)) || (n =? 95) || (n =? 45).

(** [ValidationUtils.isValidAgentName(name)]: the regular expression
    [/^[a-zA-Z0-9_-]+$/], then the length. *)
Definition isValidAgentName (name : string) : bool :=
  (match String.list_ascii_of_string name with
   | [] => false
   | chars => forallb name_char chars
   end) && (0 <? Z.of_nat (String.length name)).

(** [validateAgentStatus(agentStatus)] *)
Definition validateAgentStatus (agentStatus : AgentStatus) : bool :=
  isValidAgentName (agent_name agentStatus) && isValidPort (port agentStatus) &&
  bool_decide (is_Some (capabilities agentStatus)).

(** [handleAgentRegistration(req, res)] *)
Definition handleAgentRegistration (agentStatus : AgentStatus) (h : t) : Reply * t :=
  if negb (validateAgentStatus agentStatus) then
    (Respond 400 (Some "Invalid agent status"), h)
  else
    (Respond 200 None,
     mk (initializeCircuitBreakerForAgent (agent_name agentStatus) (protocol h))
        (<[agent_name agentStatus := agentStatus]> (connectedAgents h))).

(** [handleAgentUnregistration(req, res)]: the reply and its [deleted]. *)
Definition handleAgentUnregistration (agentName : string) (h : t) : Reply * bool * t :=
  let deleted := bool_decide (is_Some (connectedAgents h !! agentName)) in
  let p := protocol h in
  let p := with_breakers p (delete agentName (circuitBreaker p)) in
  let p := with_rateLimiter p (delete agentName (rateLimiter p)) in
  (Respond 200 None, deleted, mk p (delete agentName (connectedAgents h))).

End Registration.

Module ServiceRegistry.

Inductive ServiceStatus := healthy | unhealthy | unknown.

Record ServiceInstance := mkInstance {
  id : string;
  name : string;
  type : string;
  host : string;
  port : Z;
  status : ServiceStatus;
  capabilities : list string;
  metadata : list (string * string);
  last_heartbeat : Z;
  registered_at : Z;
  health_check_url : option string;
  version : option string;
  tags : list string
}.

Inductive Event :=
  | service_registered (s : ServiceInstance)
  | service_updated (s : ServiceInstance)
  | service_unregistered (s : ServiceInstance).

(** The registry: the [services] map and the events emitted so far. *)
Record t := mk {
  services : gmap string ServiceInstance;
  events : list Event
}.

(** [generateServiceId(name, host, port)] *)
Definition generateServiceId (name host : string) (port now : Z) : string :=
  name +:+ "-" +:+ host +:+ "-" +:+ pretty port +:+ "-" +:+ pretty now.

(** [register(service)]; the [id], [registered_at] and [last_heartbeat] of
    the argument are not read. *)
Definition register (service : ServiceInstance) (now : Z) (r : t) : string * t :=
  let serviceId := generateServiceId (name service) (host service) (port service) now in
  let existingService := services r !! serviceId in
  let serviceInstance :=
    mkInstance serviceId (name service) (type service) (host service) (port service)
      healthy (capabilities service) (metadata service) now now
      (health_check_url service) (version service) (tags service) in
  (serviceId,
   mk (<[serviceId := serviceInstance]> (services r))
      (events r ++ [match existingService with
                    | Some _ => service_updated serviceInstance
                    | None => service_registered serviceInstance
                    end])).

(** [unregister(serviceId)] *)
Definition unregister (serviceId : string) (r : t) : bool * t :=
  match services r !! serviceId with
  | None => (false, r)
  | Some service =>
      (true, mk (delete serviceId (services r)) (events r ++ [service_unregistered service]))
  end.

(** [getService(serviceId)] *)
Definition getService (serviceId : string) (r : t) : option ServiceInstance :=
  services r !! serviceId.

(** The events emitted so far, each with its name and the id of its
    service. *)
Definition event_log (r : t) : list (string * string) :=
  (fun e => match e with
            | service_registered s => ("service_registered", id s)
            | service_updated s => ("service_updated", id s)
            | service_unregistered s => ("service_unregistered", id s)
            end) <$> events r.

(** *** Heartbeats, health checks, expiry and tags *)

#[global] Instance ServiceStatus_eq_dec : EqDecision ServiceStatus.
Proof. solve_decision. Defined.

Record ServiceRegistryConfig := mkConfig {
  heartbeat_interval : Z;
  heartbeat_timeout : Z;
  cleanup_interval : Z;
  enable_health_checks : bool;
  health_check_timeout : Z
}.

(** The events of the operations below. [events] logs those of [register]
    and [unregister]; an operation below returns the ones it emits. *)
Inductive Signal :=
  | service_status_changed (s : ServiceInstance) (oldStatus : ServiceStatus)
  | service_tag_added (s : ServiceInstance) (tag : string)
  | service_tag_removed (s : ServiceInstance) (tag : string)
  | service_expired (s : ServiceInstance).

Definition with_services (r : t) (m : gmap string ServiceInstance) : t :=
  mk m (events r).

(** Assignments to fields of a stored instance. *)
Definition with_heartbeat (s : ServiceInstance) (now : Z) (st : ServiceStatus)
  : ServiceInstance :=
  mkInstance (id s) (name s) (type s) (host s) (port s) st (capabilities s)
    (metadata s) now (registered_at s) (health_check_url s) (version s) (tags s).

Definition with_tags (s : ServiceInstance) (l : list string) : ServiceInstance :=
  mkInstance (id s) (name s) (type s) (host s) (port s) (status s) (capabilities s)
    (metadata s) (last_heartbeat s) (registered_at s) (health_check_url s) (version s) l.

(** [heartbeat(serviceId, status?)] *)
Definition heartbeat (serviceId : string) (status' : option ServiceStatus) (now : Z)
  (r : t) : bool * list Signal * t :=
  match services r !! serviceId with
  | None => (false, [], r)
  | Some service =>
      let oldStatus := status service in
      let service' := with_heartbeat service now (default oldStatus status') in
      (true,
       if decide (oldStatus = status service') then []
       else [service_status_changed service' oldStatus],
       with_services r (<[serviceId := service']> (services r)))
  end.

(** [checkServiceHealth(service)]: [ok] tells whether the request came back
    with a response that is [ok]; a response that is not, and a request that
    throws, both lead to 'unhealthy'. *)
Definition checkServiceHealth (service : ServiceInstance) (ok : bool) (now : Z) (r : t)
  : list Signal * t :=
  match health_check_url service with
  | None => ([], r)
  | Some url =>
      if decide (url = "") then ([], r)
      else
        let newStatus := if ok then healthy else unhealthy in
        if decide (status service = newStatus) then ([], r)
        else
          let '(_, emitted, r) := heartbeat (id service) (Some newStatus) now r in
          (emitted, r)
  end.

(** The test of the first loop of [cleanupExpiredServices]: more than
    [heartbeat_timeout] has passed since the last heartbeat. *)
Definition overdue (cfg : ServiceRegistryConfig) (now : Z) (s : ServiceInstance) : Prop :=
  now - last_heartbeat s > heartbeat_timeout cfg.

#[global] Instance overdue_dec cfg now s : Decision (overdue cfg now s).
Proof. unfold overdue. apply _. Defined.

(** One turn of the second loop of [cleanupExpiredServices]. *)
Definition expire (acc : list Signal * t) (serviceId : string) : list Signal * t :=
  match services acc.2 !! serviceId with
  | Some service =>
      (acc.1 ++ [service_expired service],
       with_services acc.2 (delete serviceId (services acc.2)))
  | None => acc
  end.

(** [cleanupExpiredServices()]. The ids are collected, and the events
    emitted, in the order of the keys here, of insertion in the code. *)
Definition cleanupExpiredServices (cfg : ServiceRegistryConfig) (now : Z) (r : t)
  : list Signal * t :=
  let expiredServices :=
    (map_to_list
       (filter (fun kv : string * ServiceInstance => overdue cfg now kv.2)
               (services r))).*1 in
  foldl expire ([], r) expiredServices.

(** [tags.splice(tags.indexOf(tag), 1)] for a tag that occurs. *)
Fixpoint splice_tag (tag : string) (l : list string) : list string :=
  match l with
  | [] => []
  | x :: rest => if decide (x = tag) then rest else x :: splice_tag tag rest
  end.

(** [addTag(serviceId, tag)] *)
Definition addTag (serviceId tag : string) (r : t) : bool * list Signal * t :=
  match services r !! serviceId with
  | None => (false, [], r)
  | Some service =>
      if bool_decide (tag ∈ tags service) then (true, [], r)
      else
        let service' := with_tags service (tags service ++ [tag]) in
        (true, [service_tag_added service' tag],
         with_services r (<[serviceId := service']> (services r)))
  end.

(** [removeTag(serviceId, tag)] *)
Definition removeTag (serviceId tag : string) (r : t) : bool * list Signal * t :=
  match services r !! serviceId with
  | None => (false, [], r)
  | Some service =>
      if bool_decide (tag ∈ tags service) then
        let service' := with_tags service (splice_tag tag (tags service)) in
        (true, [service_tag_removed service' tag],
         with_services r (<[serviceId := service']> (services r)))
      else (true, [], r)
  end.

End ServiceRegistry.

(** ** Sample data for the examples *)

Module Sample.

Definition cfg : TaskConfig := mkTaskConfig 2 30000 3 1000 60000 7.

Definition input (ty : string) (prio retries : Z) : TaskInput :=
  mkTaskInput ty None prio "{}" None None None None None None retries 30000 [] [].

(** One task enqueued, then dequeued the way the scheduler does it. *)
Definition scheduler_ops : list TaskQueue.Op :=
  [TaskQueue.OpEnqueue (input "collect_news" 2 3) "t1" 1000;
   TaskQueue.OpDequeue None 1001].

(** One task enqueued, dequeued for a named agent, started and completed. *)
Definition agent_ops : list TaskQueue.Op :=
  [TaskQueue.OpEnqueue (input "collect_news" 2 3) "t1" 1000;
   TaskQueue.OpDequeue (Some "collector-1") 1001;
   TaskQueue.OpStartTask "t1" 1002;
   TaskQueue.OpCompleteTask "t1" (Some "done") 1003].

(** One task enqueued with an [assigned_agent] already in its data. *)
Definition preassigned_ops : list TaskQueue.Op :=
  [TaskQueue.OpEnqueue
     (mkTaskInput "collect_news" None 2 "{}" None None (Some "collector-1") None None
        None 3 30000 [] [])
     "t1" 1000].

(** Two tasks, the first one dequeued for a named agent and started. *)
Definition two_ops : list TaskQueue.Op :=
  [TaskQueue.OpEnqueue (input "collect_news" 2 3) "t1" 1000;
   TaskQueue.OpEnqueue (input "detect_risks" 3 3) "t2" 1001;
   TaskQueue.OpDequeue (Some "analyzer-1") 1002;
   TaskQueue.OpStartTask "t2" 1003].

(** A task of priority 1, then one of priority 3 that is dequeued and
    fails once. *)
Definition retry_ops : list TaskQueue.Op :=
  [TaskQueue.OpEnqueue (input "collect_news" 1 3) "t1" 1000;
   TaskQueue.OpEnqueue (input "detect_risks" 3 3) "t2" 1001;
   TaskQueue.OpDequeue (Some "analyzer-1") 1002;
   TaskQueue.OpFailTask "t2" "boom" 1003].

(** Two tasks enqueued; "t1" may fail twice. *)
Definition pair_ops : list TaskQueue.Op :=
  [TaskQueue.OpEnqueue (input "collect_news" 2 2) "t1" 1000;
   TaskQueue.OpEnqueue (input "detect_risks" 3 3) "t2" 1001].

(** Calls on both tasks: both are dequeued, "t1" fails and "t2" is
    completed; "t1" is dequeued again and started. *)
Definition retry_among_ops : list TaskQueue.Op :=
  [TaskQueue.OpDequeue (Some "analyzer-1") 1002;
   TaskQueue.OpDequeue (Some "collector-1") 1003;
   TaskQueue.OpFailTask "t1" "boom" 1004;
   TaskQueue.OpCompleteTask "t2" (Some "done") 1005;
   TaskQueue.OpDequeue (Some "collector-1") 1006;
   TaskQueue.OpStartTask "t1" 1007].

(** A pending task as [enqueue] makes it. *)
Definition pending_task (taskId ty : string) (prio retries now : Z) : Task :=
  mkTask taskId ty None prio PENDING "{}" None None now now None None None None
    0 retries 30000 [] [].

(** A scheduler with its seeded routes and one task of a type that has
    no route. *)
Definition unroutable : TaskScheduler.t :=
  TaskScheduler.enqueueTask (input "unknown_type" 2 3) "t1" 1000
    (TaskScheduler.new cfg).

(** A protocol instance with the default breaker and rate-limit
    settings, a ceiling of three requests a minute, and a handler for the
    action "ping" that returns normally. *)
Definition protocol : Protocol.t :=
  Protocol.mk (Protocol.mkBreakerConfig true 5 30000 60000)
    (Protocol.mkRateLimit true 3 60000)
    (<["ping" := fun _ => None]> ∅) ∅ ∅ [].

(** A well-formed message stamped at time 1000. *)
Definition ping : Protocol.AgentMessage :=
  Protocol.mkMessage (Some "collector") (Some "coordinator") (Some "request")
    (Some "ping") "{}" (Some 1000) (Some "m1").

(** Requests of two clients. *)
Definition requests : list (string * Z) :=
  [("10.0.0.1", 1000); ("10.0.0.2", 1500); ("10.0.0.1", 2000); ("10.0.0.1", 3000);
   ("10.0.0.2", 3500); ("10.0.0.1", 4000); ("10.0.0.1", 61000)].

(** A collector instance as it is handed to [register]. *)
Definition collector : ServiceRegistry.ServiceInstance :=
  ServiceRegistry.mkInstance "" "collector" "collector" "localhost" 3001
    ServiceRegistry.unknown ["rss"] [] 0 0 None None [].

(** A message without the [to] field. *)
Definition unaddressed : Protocol.AgentMessage :=
  Protocol.mkMessage (Some "collector") None (Some "request") (Some "ping") "{}"
    (Some 1000) (Some "m9").

(** Recorded loads and states: the collector is unhealthy, the processor
    has load 2, the analyzer load 1. *)
Definition balancer : LoadBalancer.t :=
  LoadBalancer.updateAgentStatus "collector" false
    (LoadBalancer.updateAgentLoad "processor" 2
       (LoadBalancer.updateAgentLoad "analyzer" 1 (LoadBalancer.mk ∅ ∅))).

(** A protocol whose handler for "crash" throws, with a fresh breaker for
    the collector that opens at two failures. *)
Definition crashing : Protocol.t :=
  Protocol.mk (Protocol.mkBreakerConfig true 2 30000 60000)
    (Protocol.mkRateLimit true 3 60000)
    (<["crash" := fun _ => Some "crashed"]> ∅)
    (<["collector" := Protocol.mkBreaker Protocol.CLOSED 0 0 0]> ∅) ∅ [].

Definition crash (message_id : string) : Protocol.AgentMessage :=
  Protocol.mkMessage (Some "collector") (Some "coordinator") (Some "request")
    (Some "crash") "{}" (Some 1000) (Some message_id).

(** The collector as it registers with the coordinator. *)
Definition collector_status : Registration.AgentStatus :=
  Registration.mkStatus "collector" "running" 3001 0 1000 (Some ["rss"]).

(** A registry of two instances, the analyzer's heartbeat being older,
    and its settings: a service expires 30 s after its last heartbeat. *)
Definition registry_cfg : ServiceRegistry.ServiceRegistryConfig :=
  ServiceRegistry.mkConfig 10000 30000 5000 true 2000.

Definition stored_collector : ServiceRegistry.ServiceInstance :=
  ServiceRegistry.mkInstance "collector-localhost-3001-1000" "collector" "collector"
    "localhost" 3001 ServiceRegistry.healthy ["rss"] [] 20000 1000
    (Some "http://localhost:3001/health") None ["news"].

Definition stored_analyzer : ServiceRegistry.ServiceInstance :=
  ServiceRegistry.mkInstance "analyzer-localhost-3003-1500" "analyzer" "analyzer"
    "localhost" 3003 ServiceRegistry.healthy ["risk"] [] 1500 1500
    (Some "http://localhost:3003/health") None [].

Definition registry : ServiceRegistry.t :=
  ServiceRegistry.mk
    (<["collector-localhost-3001-1000" := stored_collector]>
       (<["analyzer-localhost-3003-1500" := stored_analyzer]> ∅)) [].

(** A pending collection in priority order: priorities 3, 2, 2, 1. *)
Definition ordered_queue : TaskQueue.t :=
  TaskQueue.mk
    [pending_task "a" "detect_risks" 3 3 1000; pending_task "b" "collect_news" 2 3 1001;
     pending_task "c" "collect_news" 2 3 1002; pending_task "d" "cleanup_data" 1 3 1003]
    [] [] cfg.

(** Four tasks enqueued in the order of priorities 2, 3, 2, 1, then the
    second one cancelled. *)
Definition ordered_ops : list TaskQueue.Op :=
  [TaskQueue.OpEnqueue (input "collect_news" 2 3) "t1" 1000;
   TaskQueue.OpEnqueue (input "detect_risks" 3 3) "t2" 1001;
   TaskQueue.OpEnqueue (input "collect_news" 2 3) "t3" 1001;
   TaskQueue.OpEnqueue (input "cleanup_data" 1 3) "t4" 1002;
   TaskQueue.OpCancelTask "t2" 1003].

(** A scheduler with its seeded routes and two pending tasks. *)
Definition busy : TaskScheduler.t :=
  TaskScheduler.with_queue (TaskScheduler.new cfg)
    (TaskQueue.run
       [TaskQueue.OpEnqueue (input "collect_news" 2 3) "t1" 1000;
        TaskQueue.OpEnqueue (input "detect_risks" 3 3) "t2" 1001]
       (TaskQueue.new cfg)).

End Sample.

(** * Part II: properties *)

(** Closes a decidable goal by evaluation. *)
Ltac by_evaluation :=
  match goal with
  | |- ?P => apply (bool_decide_unpack P); vm_compute; exact I
  end.

(** ** Facts about the insertion-ordered map *)

Section JsMapFacts.
Context {V : Type}.
Implicit Types (m : JsMap V) (k : string) (v : V).

Lemma jsmap_get_set_eq k v m : JsMap.get k (JsMap.set k v m) = Some v.
Proof.
  induction m as [|[k' v'] m IH]; simpl.
  - by rewrite decide_True.
  - destruct (decide (k' = k)) as [->|Hne]; simpl.
    + by rewrite decide_True.
    + by rewrite decide_False.
Qed.

Lemma jsmap_get_set_ne k k' v m :
  k ≠ k' -> JsMap.get k' (JsMap.set k v m) = JsMap.get k' m.
Proof.
  intros Hne. induction m as [|[k1 v1] m IH]; simpl.
  - by rewrite decide_False.
  - destruct (decide (k1 = k)) as [->|Hk]; simpl.
    + by rewrite !decide_False.
    + destruct (decide (k1 = k')); [done | apply IH].
Qed.

Lemma jsmap_get_del_eq k m : JsMap.get k (JsMap.del k m) = None.
Proof.
  induction m as [|[k' v'] m IH]; simpl; [done|].
  destruct (decide (k' = k)) as [->|Hne]; simpl; [done|].
  by rewrite decide_False.
Qed.

Lemma jsmap_get_None k m : JsMap.get k m = None <-> k ∉ JsMap.keys m.
Proof.
  unfold JsMap.keys. induction m as [|[k' v'] m IH]; simpl.
  - split; [intros _; apply not_elem_of_nil | done].
  - rewrite not_elem_of_cons. destruct (decide (k' = k)) as [->|Hne].
    + split; [done | intros [? _]; done].
    + rewrite IH. naive_solver.
Qed.

Lemma jsmap_get_Some k v m : JsMap.get k m = Some v -> (k, v) ∈ m.
Proof.
  induction m as [|[k' v'] m IH]; simpl; [done|].
  destruct (decide (k' = k)) as [->|Hne].
  - intros [= ->]. apply list_elem_of_here.
  - intros H. apply list_elem_of_further, IH, H.
Qed.

Lemma jsmap_get_Some_key k v m : JsMap.get k m = Some v -> k ∈ JsMap.keys m.
Proof.
  intros H. destruct (decide (k ∈ JsMap.keys m)) as [|Hn]; [done|].
  apply jsmap_get_None in Hn. congruence.
Qed.

Lemma jsmap_del_notin k m : k ∉ JsMap.keys m -> JsMap.del k m = m.
Proof.
  unfold JsMap.keys. induction m as [|[k' v'] m IH]; simpl; [done|].
  rewrite not_elem_of_cons. intros [Hne Hm].
  rewrite decide_False by done. by rewrite IH.
Qed.

Lemma jsmap_set_notin k v m :
  k ∉ JsMap.keys m -> JsMap.set k v m = m ++ [(k, v)].
Proof.
  unfold JsMap.keys. induction m as [|[k' v'] m IH]; simpl; [done|].
  rewrite not_elem_of_cons. intros [Hne Hm].
  rewrite decide_False by done. by rewrite IH.
Qed.

Lemma jsmap_keys_set_in k v m :
  k ∈ JsMap.keys m -> JsMap.keys (JsMap.set k v m) = JsMap.keys m.
Proof.
  unfold JsMap.keys. induction m as [|[k' v'] m IH]; simpl.
  - intros H. by apply elem_of_nil in H.
  - intros H. destruct (decide (k' = k)) as [->|Hne]; simpl; [done|].
    f_equal. apply IH. apply elem_of_cons in H as [->|H]; done.
Qed.

Lemma jsmap_elem_of_keys_set x k v m :
  x ∈ JsMap.keys (JsMap.set k v m) <-> x = k \/ x ∈ JsMap.keys m.
Proof.
  destruct (decide (k ∈ JsMap.keys m)) as [Hin|Hn].
  - rewrite jsmap_keys_set_in by done. naive_solver.
  - rewrite jsmap_set_notin by done. unfold JsMap.keys.
    rewrite fmap_app, elem_of_app. simpl. rewrite list_elem_of_singleton.
    naive_solver.
Qed.

Lemma jsmap_elem_of_keys_del x k m :
  x ∈ JsMap.keys (JsMap.del k m) <-> x ≠ k /\ x ∈ JsMap.keys m.
Proof.
  unfold JsMap.keys. induction m as [|[k' v'] m IH]; simpl.
  - split; [intros H; by apply elem_of_nil in H | intros [_ H]; done].
  - destruct (decide (k' = k)) as [->|Hne]; simpl.
    + rewrite IH, elem_of_cons. naive_solver.
    + rewrite !elem_of_cons, IH. naive_solver.
Qed.

Lemma jsmap_NoDup_set k v m :
  NoDup (JsMap.keys m) -> NoDup (JsMap.keys (JsMap.set k v m)).
Proof.
  intros Hm. destruct (decide (k ∈ JsMap.keys m)) as [Hin|Hn].
  - by rewrite jsmap_keys_set_in.
  - rewrite jsmap_set_notin by done. unfold JsMap.keys in *.
    rewrite fmap_app. apply NoDup_app. split_and!; [done | | apply NoDup_singleton].
    intros x Hx Hx'. simpl in Hx'. apply list_elem_of_singleton in Hx'. by subst.
Qed.

Lemma jsmap_NoDup_del k m :
  NoDup (JsMap.keys m) -> NoDup (JsMap.keys (JsMap.del k m)).
Proof.
  unfold JsMap.keys. induction m as [|[k' v'] m IH]; simpl; [done|].
  rewrite NoDup_cons. intros [Hk Hm].
  destruct (decide (k' = k)) as [->|Hne]; simpl; [by apply IH|].
  apply NoDup_cons. split; [|by apply IH].
  intros Hin. apply (jsmap_elem_of_keys_del k' k m) in Hin. by destruct Hin.
Qed.

Lemma jsmap_elem_of_set e k v m :
  e ∈ JsMap.set k v m -> e = (k, v) \/ e ∈ m.
Proof.
  induction m as [|[k' v'] m IH]; simpl.
  - rewrite list_elem_of_singleton. by left.
  - destruct (decide (k' = k)) as [->|Hne]; rewrite !elem_of_cons; naive_solver.
Qed.

Lemma jsmap_elem_of_del e k m : e ∈ JsMap.del k m -> e ∈ m /\ e.1 ≠ k.
Proof.
  induction m as [|[k' v'] m IH]; simpl.
  - intros H. by apply elem_of_nil in H.
  - destruct (decide (k' = k)) as [->|Hne]; rewrite ?elem_of_cons.
    + naive_solver.
    + intros [->|H]; [by split; [left|] | naive_solver].
Qed.

Lemma jsmap_Forall_set (P : string * V -> Prop) k v m :
  P (k, v) -> Forall P m -> Forall P (JsMap.set k v m).
Proof.
  rewrite !Forall_forall. intros Hk Hm e He.
  apply jsmap_elem_of_set in He as [->|He]; auto.
Qed.

Lemma jsmap_Forall_del (P : string * V -> Prop) k m :
  Forall P m -> Forall P (JsMap.del k m).
Proof.
  rewrite !Forall_forall. intros Hm e He.
  apply jsmap_elem_of_del in He as [He _]; auto.
Qed.

Lemma jsmap_Forall_get (P : string * V -> Prop) k v m :
  Forall P m -> JsMap.get k m = Some v -> P (k, v).
Proof.
  rewrite Forall_forall. intros Hm Hg. by apply Hm, jsmap_get_Some.
Qed.

Lemma jsmap_del_set_notin k v m :
  k ∉ JsMap.keys m -> JsMap.del k (JsMap.set k v m) = m.
Proof.
  intros Hn. rewrite jsmap_set_notin by done.
  induction m as [|[k' v'] m IH]; simpl.
  - by rewrite decide_True.
  - unfold JsMap.keys in Hn. simpl in Hn. apply not_elem_of_cons in Hn as [Hne Hm].
    rewrite decide_False by done. f_equal. by apply IH.
Qed.
End JsMapFacts.

(** ** The task queue: well-formedness of the stores *)

Section TaskQueueStores.
Import TaskQueue.

Lemma sort_insert_perm x l : sort_insert x l ≡ₚ x :: l.
Proof.
  induction l as [|y l IH]; simpl; [done|].
  destruct (decide (priority x < priority y)); [|done].
  rewrite IH. apply Permutation_swap.
Qed.

Lemma sort_by_priority_perm l : sort_by_priority l ≡ₚ l.
Proof.
  induction l as [|x l IH]; simpl; [done|].
  rewrite sort_insert_perm. by rewrite IH.
Qed.

Lemma splice_id_Some taskId l x r :
  splice_id taskId l = Some (x, r) -> id x = taskId /\ l ≡ₚ x :: r.
Proof.
  revert x r. induction l as [|y l IH]; simpl; intros x r; [done|].
  destruct (decide (id y = taskId)) as [Hy|Hy].
  - intros [= -> ->]. done.
  - destruct (splice_id taskId l) as [[z r']|] eqn:E; [|done].
    intros [= -> <-]. destruct (IH _ _ eq_refl) as [Hz Hp].
    split; [done|]. rewrite Hp. apply Permutation_swap.
Qed.

Lemma splice_id_None taskId l :
  splice_id taskId l = None -> taskId ∉ id <$> l.
Proof.
  induction l as [|y l IH]; simpl; [intros _; apply not_elem_of_nil|].
  destruct (decide (id y = taskId)) as [Hy|Hy]; [done|].
  destruct (splice_id taskId l) as [[z r']|]; [done|].
  intros _. apply not_elem_of_cons. split; [done | by apply IH].
Qed.

(** The disjointness of the stores, store by store. *)
Lemma disjoint_stores_iff q :
  disjoint_stores q <->
  NoDup (id <$> queue q) /\ NoDup (JsMap.keys (processing q)) /\
  NoDup (JsMap.keys (completed q)) /\
  (forall i, i ∈ id <$> queue q -> i ∉ JsMap.keys (processing q)) /\
  (forall i, i ∈ id <$> queue q -> i ∉ JsMap.keys (completed q)) /\
  (forall i, i ∈ JsMap.keys (processing q) -> i ∉ JsMap.keys (completed q)).
Proof.
  unfold disjoint_stores, ids. rewrite !NoDup_app.
  setoid_rewrite elem_of_app. naive_solver.
Qed.

Lemma keyed_get m k v : keyed m -> JsMap.get k m = Some v -> id v = k.
Proof. intros Hm Hg. apply (jsmap_Forall_get _ _ _ _ Hm Hg). Qed.

Lemma wf_new cfg : wf (new cfg).
Proof.
  split; [|by apply Forall_nil].
  apply disjoint_stores_iff. simpl.
  split_and!; try apply NoDup_nil_2; intros i Hi; by apply elem_of_nil in Hi.
Qed.

Lemma wf_enqueue task uuid now q :
  wf q -> uuid ∉ ids q -> wf (state_of (enqueue task uuid now q)).
Proof.
  intros [Hd Hk] Hfresh. split; [|done].
  apply disjoint_stores_iff in Hd as (Hq & Hp & Hc & Hqp & Hqc & Hpc).
  unfold ids in Hfresh. rewrite !elem_of_app in Hfresh.
  apply disjoint_stores_iff. simpl.
  rewrite sort_by_priority_perm, fmap_app. simpl.
  setoid_rewrite sort_by_priority_perm. setoid_rewrite fmap_app.
  setoid_rewrite elem_of_app. simpl. setoid_rewrite list_elem_of_singleton.
  split_and!; try done.
  - apply NoDup_app. split_and!; [done | | apply NoDup_singleton].
    intros x Hx Hx'. apply list_elem_of_singleton in Hx'. naive_solver.
  - intros i [Hi| ->]; [by apply Hqp | naive_solver].
  - intros i [Hi| ->]; [by apply Hqc | naive_solver].
Qed.

Lemma wf_dequeue agentId now q : wf q -> wf (state_of (dequeue agentId now q)).
Proof.
  intros [Hd Hk]. unfold dequeue.
  destruct (queue q) as [|head rest] eqn:Eq; [done|].
  destruct (decide _); [done|]. simpl.
  apply disjoint_stores_iff in Hd as (Hq & Hp & Hc & Hqp & Hqc & Hpc).
  rewrite Eq in Hq, Hqp, Hqc. simpl in Hq, Hqp, Hqc.
  apply NoDup_cons in Hq as [Hh Hq].
  setoid_rewrite elem_of_cons in Hqp. setoid_rewrite elem_of_cons in Hqc.
  split.
  - apply disjoint_stores_iff. simpl.
    setoid_rewrite jsmap_elem_of_keys_set.
    split_and!; try done.
    + by apply jsmap_NoDup_set.
    + intros i Hi [->|Hi']; [done | naive_solver].
    + naive_solver.
    + intros i [->|Hi]; naive_solver.
  - simpl. by apply jsmap_Forall_set.
Qed.

Lemma wf_startTask taskId now q : wf q -> wf (state_of (startTask taskId now q)).
Proof.
  intros [Hd Hk]. unfold startTask.
  destruct (JsMap.get taskId (processing q)) as [task|] eqn:Eg; [|done]. simpl.
  pose proof (jsmap_get_Some_key _ _ _ Eg) as Hin.
  pose proof (keyed_get _ _ _ Hk Eg) as Hid.
  split.
  - apply disjoint_stores_iff in Hd as (Hq & Hp & Hc & Hqp & Hqc & Hpc).
    apply disjoint_stores_iff. simpl. by rewrite jsmap_keys_set_in.
  - simpl. by apply jsmap_Forall_set.
Qed.

(** A task leaving the processing map for the completed map. *)
Lemma wf_to_completed taskId task q :
  wf q -> taskId ∈ JsMap.keys (processing q) ->
  wf (mk (queue q) (JsMap.del taskId (processing q))
        (JsMap.set taskId task (completed q)) (config q)).
Proof.
  intros [Hd Hk] Hin. split; [|by apply jsmap_Forall_del].
  apply disjoint_stores_iff in Hd as (Hq & Hp & Hc & Hqp & Hqc & Hpc).
  apply disjoint_stores_iff. simpl.
  setoid_rewrite jsmap_elem_of_keys_set. setoid_rewrite jsmap_elem_of_keys_del.
  split_and!; try done.
  - by apply jsmap_NoDup_del.
  - by apply jsmap_NoDup_set.
  - naive_solver.
  - intros i Hi [->|Hi']; naive_solver.
  - intros i [Hne Hi] [->|Hi']; naive_solver.
Qed.

Lemma wf_completeTask taskId res now q :
  wf q -> wf (state_of (completeTask taskId res now q)).
Proof.
  intros Hwf. unfold completeTask.
  destruct (JsMap.get taskId (processing q)) as [task|] eqn:Eg; [|done]. simpl.
  apply wf_to_completed; [done | by eapply jsmap_get_Some_key].
Qed.

Lemma wf_failTask taskId err now q :
  wf q -> wf (state_of (failTask taskId err now q)).
Proof.
  intros Hwf. unfold failTask.
  destruct (JsMap.get taskId (processing q)) as [task|] eqn:Eg; [|done].
  pose proof (jsmap_get_Some_key _ _ _ Eg) as Hin.
  destruct (decide _); simpl.
  - by apply wf_to_completed.
  - destruct Hwf as [Hd Hk].
    pose proof (keyed_get _ _ _ Hk Eg) as Hid.
    split; [|by apply jsmap_Forall_del].
    apply disjoint_stores_iff in Hd as (Hq & Hp & Hc & Hqp & Hqc & Hpc).
    apply disjoint_stores_iff. simpl. rewrite fmap_app. simpl.
    setoid_rewrite elem_of_app. setoid_rewrite list_elem_of_singleton.
    setoid_rewrite jsmap_elem_of_keys_del. rewrite Hid.
    split_and!; try done.
    + apply NoDup_app. split_and!; [done | | apply NoDup_singleton].
      intros x Hx Hx'. apply list_elem_of_singleton in Hx'. naive_solver.
    + by apply jsmap_NoDup_del.
    + intros i [Hi| ->]; naive_solver.
    + intros i [Hi| ->]; naive_solver.
    + naive_solver.
Qed.

Lemma wf_cancelTask taskId now q : wf q -> wf (state_of (cancelTask taskId now q)).
Proof.
  intros Hwf. unfold cancelTask.
  destruct (splice_id taskId (queue q)) as [[task rest]|] eqn:Es.
  - simpl. destruct Hwf as [Hd Hk]. split; [|done].
    apply splice_id_Some in Es as [Hid Hperm].
    apply disjoint_stores_iff in Hd as (Hq & Hp & Hc & Hqp & Hqc & Hpc).
    rewrite Hperm in Hq. setoid_rewrite Hperm in Hqp. setoid_rewrite Hperm in Hqc.
    simpl in Hq, Hqp, Hqc. rewrite Hid in Hq, Hqp, Hqc.
    apply NoDup_cons in Hq as [Hh Hq].
    setoid_rewrite elem_of_cons in Hqp. setoid_rewrite elem_of_cons in Hqc.
    apply disjoint_stores_iff. simpl.
    setoid_rewrite jsmap_elem_of_keys_set.
    split_and!; try done.
    + by apply jsmap_NoDup_set.
    + naive_solver.
    + intros i Hi [->|Hi']; naive_solver.
    + intros i Hi [->|Hi']; naive_solver.
  - destruct (JsMap.get taskId (processing q)) as [task|] eqn:Eg; [|done]. simpl.
    apply wf_to_completed; [done | by eapply jsmap_get_Some_key].
Qed.

Lemma wf_failAll l now q : wf q -> wf (state_of (failAll l now q)).
Proof.
  revert q. induction l as [|taskId l IH]; intros q Hwf; simpl; [done|].
  pose proof (wf_failTask taskId "Task timeout" now q Hwf) as Hstep.
  destruct (failTask taskId "Task timeout" now q) as [[] q'|msg q']; simpl in *.
  - by apply IH.
  - done.
Qed.

Lemma wf_checkTimeouts now q : wf q -> wf (state_of (checkTimeouts now q)).
Proof. apply wf_failAll. Qed.

Lemma wf_del_completed l q :
  wf q ->
  wf (mk (queue q) (processing q)
        (foldl (fun m (e : string * Task) => JsMap.del e.1 m) (completed q) l)
        (config q)).
Proof.
  destruct q as [qu pr co cf]. simpl. revert co.
  induction l as [|e l IH]; intros co Hwf; simpl; [done|].
  apply IH. destruct Hwf as [Hd Hk]. split; [|done].
  apply disjoint_stores_iff in Hd as (Hq & Hp & Hc & Hqp & Hqc & Hpc).
  apply disjoint_stores_iff. simpl in *.
  setoid_rewrite jsmap_elem_of_keys_del.
  split_and!; try done; [by apply jsmap_NoDup_del | naive_solver..].
Qed.

Lemma wf_cleanup now q : wf q -> wf (state_of (cleanup now q)).
Proof. intros Hwf. unfold cleanup. simpl. by apply wf_del_completed. Qed.

Lemma wf_apply q op : wf q -> fresh_uuid q op -> wf (apply q op).
Proof.
  intros Hwf Hfresh. destruct op; unfold apply.
  - by apply wf_enqueue.
  - by apply wf_dequeue.
  - by apply wf_startTask.
  - by apply wf_completeTask.
  - by apply wf_failTask.
  - by apply wf_cancelTask.
  - by apply wf_checkTimeouts.
  - by apply wf_cleanup.
Qed.

Lemma reachable_wf cfg q : reachable cfg q -> wf q.
Proof.
  unfold reachable. induction 1 as [|q op Hq IH Hfresh]; [apply wf_new | by apply wf_apply].
Qed.
End TaskQueueStores.

(** ** The task queue: status and store *)

Section TaskQueueStatus.
Import TaskQueue.
Variable agent : option string -> Prop.

Lemma status_inv_new cfg : status_inv agent (new cfg).
Proof. repeat split; apply Forall_nil_2. Qed.

Lemma status_inv_enqueue task uuid now q :
  status_inv agent q -> status_inv agent (state_of (enqueue task uuid now q)).
Proof.
  intros (Hq & Hp & Hc). repeat split; simpl; try done.
  rewrite sort_by_priority_perm. apply Forall_app. split; [done|].
  by apply Forall_singleton.
Qed.

Lemma status_inv_dequeue agentId now q :
  agent agentId ->
  status_inv agent q -> status_inv agent (state_of (dequeue agentId now q)).
Proof.
  intros Ha Hinv. unfold dequeue.
  destruct (queue q) as [|head rest] eqn:Eq; [done|].
  destruct (decide _); [done|].
  destruct Hinv as (Hq & Hp & Hc). rewrite Eq in Hq.
  apply Forall_cons in Hq as [_ Hq].
  repeat split; simpl; try done.
  apply jsmap_Forall_set; [|done]. split; [by left | done].
Qed.

Lemma status_inv_startTask taskId now q :
  status_inv agent q -> status_inv agent (state_of (startTask taskId now q)).
Proof.
  intros Hinv. unfold startTask.
  destruct (JsMap.get taskId (processing q)) as [task|] eqn:Eg; [|done].
  destruct Hinv as (Hq & Hp & Hc).
  repeat split; simpl; try done.
  apply jsmap_Forall_set; [|done].
  destruct (jsmap_Forall_get _ _ _ _ Hp Eg) as [_ Hag].
  split; [by right | done].
Qed.

Lemma status_inv_completeTask taskId res now q :
  status_inv agent q -> status_inv agent (state_of (completeTask taskId res now q)).
Proof.
  intros Hinv. unfold completeTask.
  destruct (JsMap.get taskId (processing q)) as [task|] eqn:Eg; [|done].
  destruct Hinv as (Hq & Hp & Hc).
  repeat split; simpl; try done.
  - by apply jsmap_Forall_del.
  - apply jsmap_Forall_set; [by left | done].
Qed.

Lemma status_inv_failTask taskId err now q :
  status_inv agent q -> status_inv agent (state_of (failTask taskId err now q)).
Proof.
  intros Hinv. unfold failTask.
  destruct (JsMap.get taskId (processing q)) as [task|] eqn:Eg; [|done].
  destruct Hinv as (Hq & Hp & Hc).
  destruct (decide _); repeat split; simpl; try done.
  - by apply jsmap_Forall_del.
  - apply jsmap_Forall_set; [by right; left | done].
  - apply Forall_app. split; [done | by apply Forall_singleton].
  - by apply jsmap_Forall_del.
Qed.

Lemma status_inv_cancelTask taskId now q :
  status_inv agent q -> status_inv agent (state_of (cancelTask taskId now q)).
Proof.
  intros Hinv. unfold cancelTask.
  destruct (splice_id taskId (queue q)) as [[task rest]|] eqn:Es.
  - destruct Hinv as (Hq & Hp & Hc).
    apply splice_id_Some in Es as [_ Hperm]. rewrite Hperm in Hq.
    apply Forall_cons in Hq as [_ Hq].
    repeat split; simpl; try done.
    apply jsmap_Forall_set; [by right; right | done].
  - destruct (JsMap.get taskId (processing q)) as [task|] eqn:Eg; [|done].
    destruct Hinv as (Hq & Hp & Hc).
    repeat split; simpl; try done.
    + by apply jsmap_Forall_del.
    + apply jsmap_Forall_set; [by right; right | done].
Qed.

Lemma status_inv_failAll l now q :
  status_inv agent q -> status_inv agent (state_of (failAll l now q)).
Proof.
  revert q. induction l as [|taskId l IH]; intros q Hq; simpl; [done|].
  pose proof (status_inv_failTask taskId "Task timeout" now q Hq) as Hstep.
  destruct (failTask taskId "Task timeout" now q) as [[] q'|msg q']; simpl in *;
    [by apply IH | done].
Qed.

Lemma status_inv_cleanup now q :
  status_inv agent q -> status_inv agent (state_of (cleanup now q)).
Proof.
  intros (Hq & Hp & Hc). unfold cleanup. repeat split; simpl; try done.
  generalize (List.filter
    (fun e : string * Task =>
       match completed_at e.2 with
       | Some c => (c <? now - task_retention_days (config q) * 24 * 60 * 60 * 1000)%Z
       | None => false
       end) (completed q)).
  intros l. revert Hc. generalize (completed q).
  induction l as [|e l IH]; intros m Hm; simpl; [done|].
  by apply IH, jsmap_Forall_del.
Qed.

Lemma status_inv_apply q op :
  (forall agentId now, op = OpDequeue agentId now -> agent agentId) ->
  status_inv agent q -> status_inv agent (apply q op).
Proof.
  intros Hop Hq. destruct op; unfold apply.
  - by apply status_inv_enqueue.
  - apply status_inv_dequeue; [by eapply Hop | done].
  - by apply status_inv_startTask.
  - by apply status_inv_completeTask.
  - by apply status_inv_failTask.
  - by apply status_inv_cancelTask.
  - by apply status_inv_failAll.
  - by apply status_inv_cleanup.
Qed.
End TaskQueueStatus.

Section TaskQueuePending.
Import TaskQueue.

Lemma pending_unassigned_failTask taskId err now q :
  pending_unassigned q -> pending_unassigned (state_of (failTask taskId err now q)).
Proof.
  unfold pending_unassigned, failTask. intros Hq.
  destruct (JsMap.get taskId (processing q)) as [task|]; [|done].
  destruct (decide _); simpl; [done|].
  apply Forall_app. split; [done | by apply Forall_singleton].
Qed.

Lemma pending_unassigned_failAll l now q :
  pending_unassigned q -> pending_unassigned (state_of (failAll l now q)).
Proof.
  revert q. induction l as [|taskId l IH]; intros q Hq; simpl; [done|].
  pose proof (pending_unassigned_failTask taskId "Task timeout" now q Hq) as Hstep.
  destruct (failTask taskId "Task timeout" now q) as [[] q'|msg q']; simpl in *;
    [by apply IH | done].
Qed.

Lemma pending_unassigned_apply q op :
  (forall task uuid now, op = OpEnqueue task uuid now -> in_assigned_agent task = None) ->
  pending_unassigned q -> pending_unassigned (apply q op).
Proof.
  unfold pending_unassigned at 1. intros Hop Hq. destruct op; unfold apply.
  - unfold pending_unassigned. simpl. rewrite sort_by_priority_perm.
    apply Forall_app. split; [done|]. apply Forall_singleton. simpl. by eapply Hop.
  - unfold pending_unassigned, dequeue.
    destruct (queue q) as [|head rest] eqn:Eq; simpl; [by rewrite Eq|].
    destruct (decide _); simpl; [by rewrite Eq|].
    by apply Forall_cons in Hq as [_ Hq].
  - unfold pending_unassigned, startTask.
    by destruct (JsMap.get taskId (processing q)).
  - unfold pending_unassigned, completeTask.
    by destruct (JsMap.get taskId (processing q)).
  - by apply pending_unassigned_failTask.
  - unfold pending_unassigned, cancelTask.
    destruct (splice_id taskId (queue q)) as [[task rest]|] eqn:Es.
    + apply splice_id_Some in Es as [_ Hperm]. rewrite Hperm in Hq.
      by apply Forall_cons in Hq as [_ Hq].
    + by destruct (JsMap.get taskId (processing q)).
  - by apply pending_unassigned_failAll.
  - done.
Qed.
End TaskQueuePending.

(** ** The task queue: reachable states *)

Section TaskQueueReachable.
Import TaskQueue.

Lemma reachable_by_run ok cfg ops q :
  reachable_by ok cfg q -> allowed ok ops q -> reachable_by ok cfg (run ops q).
Proof.
  revert q. induction ops as [|op ops IH]; intros q Hq Hops; simpl; [done|].
  destruct Hops as [Hop Hops]. apply IH; [by apply reach_step | done].
Qed.

Lemma reachable_by_weaken (ok ok' : t -> Op -> Prop) cfg q :
  (forall q op, ok q op -> ok' q op) -> reachable_by ok cfg q -> reachable_by ok' cfg q.
Proof.
  intros Hok. induction 1 as [|q op Hq IH Hop]; [apply reach_new|].
  apply reach_step; auto.
Qed.

Lemma reachable_status_inv cfg q :
  reachable cfg q -> status_inv (fun _ => True) q.
Proof.
  unfold reachable. induction 1 as [|q op Hq IH Hop]; [apply status_inv_new|].
  by apply status_inv_apply.
Qed.

Lemma dequeues_for_agent_status_inv cfg q :
  reachable_by dequeues_for_agent cfg q -> status_inv is_Some q.
Proof.
  induction 1 as [|q op Hq IH [_ Hop]]; [apply status_inv_new|].
  apply status_inv_apply; [|done]. by intros a now ->.
Qed.

Lemma enqueues_unassigned_pending cfg q :
  reachable_by enqueues_unassigned cfg q -> pending_unassigned q.
Proof.
  induction 1 as [|q op Hq IH [_ Hop]]; [apply Forall_nil_2|].
  apply pending_unassigned_apply; [|done]. by intros task uuid now ->.
Qed.

Lemma elem_of_tasks task q :
  task ∈ tasks q <->
  task ∈ queue q \/ (exists k, (k, task) ∈ processing q) \/
  (exists k, (k, task) ∈ completed q).
Proof.
  unfold tasks, JsMap.values. rewrite !elem_of_app, !list_elem_of_fmap.
  split.
  - intros [H|[([k t] & -> & H)|([k t] & -> & H)]]; eauto.
  - intros [H|[[k H]|[k H]]]; [by left | right; left | right; right];
      by exists (k, task).
Qed.
End TaskQueueReachable.

(** ** Claims about the stores of the task queue *)

Section TaskQueueClaims.
Import TaskQueue.

(** C10: in every state reachable from an empty queue by its operations
    (with the ids [uuidv4()] returns fresh), no task id occurs twice: each
    id is in at most one of the pending collection, the processing map and
    the completed map. *)
Theorem stores_pairwise_disjoint cfg q :
  reachable cfg q ->
  NoDup (ids q) /\
  forall i,
    (i ∈ (id <$> queue q) ->
     (i ∉ JsMap.keys (processing q)) /\ (i ∉ JsMap.keys (completed q))) /\
    (i ∈ JsMap.keys (processing q) -> i ∉ JsMap.keys (completed q)).
Proof.
  intros Hq. destruct (reachable_wf _ _ Hq) as [Hd _]. split; [done|].
  apply disjoint_stores_iff in Hd as (_ & _ & _ & Hqp & Hqc & Hpc).
  intros i. split; [split|]; auto.
Qed.

Lemma stores_pairwise_disjoint_witness :
  reachable Sample.cfg (run Sample.two_ops (new Sample.cfg)) /\
  NoDup (ids (run Sample.two_ops (new Sample.cfg))) /\
  "t2" ∈ JsMap.keys (processing (run Sample.two_ops (new Sample.cfg))) /\
  "t2" ∉ JsMap.keys (completed (run Sample.two_ops (new Sample.cfg))).
Proof.
  assert (reachable Sample.cfg (run Sample.two_ops (new Sample.cfg))) as Hr.
  { apply reachable_by_run; [apply reach_new | by_evaluation]. }
  split; [exact Hr|].
  destruct (stores_pairwise_disjoint _ _ Hr) as [Hnd Hi].
  split; [exact Hnd|].
  assert ("t2" ∈ JsMap.keys (processing (run Sample.two_ops (new Sample.cfg)))) as Hin
    by by_evaluation.
  split; [exact Hin | exact (proj2 (Hi "t2") Hin)].
Defined.

(** C5, as stated, fails in both directions: the scheduler dequeues
    without an agent id, which leaves an ASSIGNED task with no
    [assigned_agent]; a task dequeued for an agent keeps its
    [assigned_agent] once COMPLETED; and a task enqueued with an
    [assigned_agent] in its data is PENDING with that agent. *)
Lemma assigned_agent_iff_in_progress_fails :
  (reachable Sample.cfg (run Sample.scheduler_ops (new Sample.cfg)) /\
   exists task, task ∈ tasks (run Sample.scheduler_ops (new Sample.cfg)) /\
     status task = ASSIGNED /\ assigned_agent task = None) /\
  (reachable Sample.cfg (run Sample.agent_ops (new Sample.cfg)) /\
   exists task, task ∈ tasks (run Sample.agent_ops (new Sample.cfg)) /\
     status task = COMPLETED /\ assigned_agent task = Some "collector-1") /\
  (reachable Sample.cfg (run Sample.preassigned_ops (new Sample.cfg)) /\
   exists task, task ∈ tasks (run Sample.preassigned_ops (new Sample.cfg)) /\
     status task = PENDING /\ assigned_agent task = Some "collector-1").
Proof.
  split; [|split]; (split;
    [ apply reachable_by_run; [apply reach_new | by_evaluation]
    | eexists; split; [vm_compute; apply list_elem_of_here | split; reflexivity] ]).
Qed.

(** C5 (amended): for every task of every reachable state, the task is
    ASSIGNED or RUNNING exactly when it is in the processing map.  In a
    state reached by calls that give every [dequeue] an agent id, an
    ASSIGNED or RUNNING task has an [assigned_agent].  In a state reached by
    calls that enqueue tasks without an [assigned_agent], a task with an
    [assigned_agent] is ASSIGNED, RUNNING or terminal (COMPLETED, FAILED or
    CANCELLED), never PENDING. *)
Theorem assigned_agent_by_status cfg q task :
  reachable cfg q ->
  task ∈ tasks q ->
  (in_progress task <-> task ∈ JsMap.values (processing q)) /\
  (reachable_by dequeues_for_agent cfg q ->
   in_progress task -> is_Some (assigned_agent task)) /\
  (reachable_by enqueues_unassigned cfg q ->
   is_Some (assigned_agent task) -> in_progress task \/ terminal task).
Proof.
  intros Hq Hin. destruct (reachable_status_inv _ _ Hq) as (Hs & Hp & Hc).
  rewrite Forall_forall in Hs. rewrite Forall_forall in Hp.
  rewrite Forall_forall in Hc.
  assert (forall k, (k, task) ∈ processing q -> task ∈ JsMap.values (processing q)) as Hv.
  { intros k Hk. unfold JsMap.values. apply list_elem_of_fmap. by exists (k, task). }
  apply elem_of_tasks in Hin as [Hin|[[k Hin]|[k Hin]]].
  - specialize (Hs _ Hin).
    split_and!.
    + split; [intros [?|?]; congruence|].
      unfold JsMap.values. intros ([k t] & -> & Hk)%list_elem_of_fmap.
      destruct (Hp _ Hk) as [[?|?] _]; simpl in *; congruence.
    + intros _ [?|?]; congruence.
    + intros Hu%enqueues_unassigned_pending. unfold pending_unassigned in Hu.
      rewrite Forall_forall in Hu. rewrite (Hu _ Hin). by intros [? ?].
  - destruct (Hp _ Hin) as [Hst _]. simpl in *.
    split_and!; [split; eauto | | by left].
    intros (_ & Hp' & _)%dequeues_for_agent_status_inv _.
    rewrite Forall_forall in Hp'. by destruct (Hp' _ Hin) as [_ Hag].
  - specialize (Hc _ Hin). simpl in Hc.
    split_and!.
    + split; [intros [?|?]; destruct Hc as [?|[?|?]]; congruence|].
      unfold JsMap.values. intros ([k' t] & -> & Hk)%list_elem_of_fmap.
      destruct (Hp _ Hk) as [[?|?] _]; destruct Hc as [?|[?|?]]; simpl in *; congruence.
    + intros _ [?|?]; destruct Hc as [?|[?|?]]; congruence.
    + by right.
Qed.

Lemma assigned_agent_by_status_witness :
  reachable Sample.cfg (run Sample.agent_ops (new Sample.cfg)) /\
  terminal
    (mkTask "t1" "collect_news" None 2 COMPLETED "{}" (Some "done") None 1000 1003
       (Some "collector-1") (Some 1001) (Some 1002) (Some 1003) 0 3 30000 [] []).
Proof.
  assert (reachable Sample.cfg (run Sample.agent_ops (new Sample.cfg))) as Hr.
  { apply reachable_by_run; [apply reach_new | by_evaluation]. }
  assert (reachable_by enqueues_unassigned Sample.cfg
            (run Sample.agent_ops (new Sample.cfg))) as Hu.
  { apply reachable_by_run; [apply reach_new | by_evaluation]. }
  split; [exact Hr|].
  destruct (assigned_agent_by_status Sample.cfg _
              (mkTask "t1" "collect_news" None 2 COMPLETED "{}" (Some "done") None
                 1000 1003 (Some "collector-1") (Some 1001) (Some 1002) (Some 1003)
                 0 3 30000 [] []) Hr) as (_ & _ & Hag).
  { apply list_elem_of_here. }
  destruct (Hag Hu (ex_intro _ "collector-1" eq_refl)) as [[Hst|Hst]|Ht];
    [discriminate Hst | discriminate Hst | exact Ht].
Defined.
End TaskQueueClaims.

(** ** The task queue: retries *)

Section TaskQueueRetry.
Import TaskQueue.
Variables (agentId : option string) (err : string) (clock : nat -> Z).

Lemma jsmap_del_set {V} k (v : V) m : JsMap.del k (JsMap.set k v m) = JsMap.del k m.
Proof.
  induction m as [|[k' v'] m IH]; simpl.
  - by rewrite decide_True.
  - destruct (decide (k' = k)) as [->|Hne]; simpl.
    + by rewrite decide_True.
    + rewrite decide_False by done. by rewrite IH.
Qed.

(** What [failTask] does to a task just dequeued from the head. *)
Lemma dequeue_failTask_head a e now head rest P C cfg :
  JsMap.size P < max_concurrent_tasks cfg ->
  state_of (failTask (id head) e now (state_of (dequeue a now (mk (head :: rest) P C cfg))))
  = if decide (retry_count head + 1 >= max_retries head)
    then mk rest (JsMap.del (id head) P) (JsMap.set (id head) (exhausted a e now head) C) cfg
    else mk (rest ++ [retried e now head]) (JsMap.del (id head) P) C cfg.
Proof.
  intros Hcap. unfold dequeue. simpl.
  rewrite decide_False by lia. simpl.
  unfold failTask. simpl. rewrite jsmap_get_set_eq. simpl.
  destruct (decide (retry_count head + 1 >= max_retries head)); simpl;
    by rewrite jsmap_del_set.
Qed.

Lemma retried_n_facts k task :
  id (retried_n err clock k task) = id task /\
  max_retries (retried_n err clock k task) = max_retries task /\
  retry_count (retried_n err clock k task) = retry_count task + Z.of_nat k.
Proof.
  induction k as [|k (Hi & Hm & Hr)]; simpl; [split_and!; (done || lia)|].
  split_and!; [done | done | lia].
Qed.

Lemma retried_n_cleared k task :
  (1 <= k)%nat ->
  status (retried_n err clock k task) = PENDING /\
  assigned_agent (retried_n err clock k task) = None /\
  assigned_at (retried_n err clock k task) = None /\
  started_at (retried_n err clock k task) = None.
Proof. destruct k; [lia | done]. Qed.

Section OneTask.
Variables (task : Task) (P C : JsMap Task) (cfg : TaskConfig).
Hypothesis Hfresh : id task ∉ JsMap.keys P.
Hypothesis Hcap : JsMap.size P < max_concurrent_tasks cfg.
Hypothesis Hzero : retry_count task = 0.

Lemma attempts_requeue (k : nat) :
  Z.of_nat k < max_retries task ->
  attempts agentId (id task) err clock k (mk [task] P C cfg)
  = mk [retried_n err clock k task] P C cfg.
Proof using Hfresh Hcap Hzero.
  induction k as [|k IH]; intros Hk; simpl; [done|].
  rewrite IH by lia. unfold attempt.
  destruct (retried_n_facts k task) as (Hi & Hm & Hr).
  rewrite <- Hi at 1. rewrite dequeue_failTask_head by done.
  rewrite decide_False by lia. simpl.
  by rewrite Hi, jsmap_del_notin.
Qed.

Lemma attempts_exhaust (n : nat) :
  (1 <= n)%nat -> max_retries task = Z.of_nat n ->
  attempts agentId (id task) err clock n (mk [task] P C cfg)
  = mk [] P
      (JsMap.set (id task)
         (exhausted agentId err (clock (n - 1)%nat)
            (retried_n err clock (n - 1) task)) C) cfg.
Proof using Hfresh Hcap Hzero.
  intros Hn Hmax. destruct n as [|k]; [lia|].
  replace (S k - 1)%nat with k by lia. simpl.
  rewrite attempts_requeue by lia. unfold attempt.
  destruct (retried_n_facts k task) as (Hi & Hm & Hr).
  rewrite <- Hi at 1. rewrite dequeue_failTask_head by done.
  rewrite decide_True by lia. simpl.
  by rewrite Hi, jsmap_del_notin.
Qed.

Lemma retry_loop_runs (n : nat) :
  max_retries task = Z.of_nat n ->
  forall (m k r fuel : nat),
    (k + m = n)%nat -> (1 <= m)%nat -> (m <= fuel)%nat ->
    retry_loop fuel agentId (id task) err clock k r
      (attempts agentId (id task) err clock k (mk [task] P C cfg))
    = Some (n, (r + (m - 1))%nat,
            attempts agentId (id task) err clock n (mk [task] P C cfg)).
Proof using Hfresh Hcap Hzero.
  intros Hmax. induction m as [|m IH]; intros k r fuel Hkm Hm Hfuel; [lia|].
  destruct fuel as [|fuel]; [lia|]. cbn [retry_loop].
  change (attempt agentId (id task) err (clock k)
            (attempts agentId (id task) err clock k (mk [task] P C cfg)))
    with (attempts agentId (id task) err clock (S k) (mk [task] P C cfg)).
  destruct (decide (m = 0)%nat) as [->|Hm0].
  - replace (S k) with n by lia.
    rewrite bool_decide_eq_false_2.
    + do 3 f_equal. lia.
    + rewrite attempts_exhaust by lia. apply not_elem_of_nil.
  - rewrite bool_decide_eq_true_2.
    + rewrite (IH (S k) (S r) fuel) by lia. do 3 f_equal. lia.
    + rewrite (attempts_requeue (S k)) by lia.
      destruct (retried_n_facts (S k) task) as (Hi & _).
      cbn [queue fmap list_fmap]. rewrite Hi. apply list_elem_of_here.
Qed.
End OneTask.

(** The loop on a task that is alone in the pending collection: for every
    n >= 1, a pending task with [max_retries = n] and [retry_count = 0]
    that is dequeued and failed again and again is re-inserted by each of
    the first n-1 [failTask] calls and moved to the completed store as
    FAILED by the n-th call; the loop stops after exactly n calls and n-1
    re-insertions. *)
Lemma retry_loop_alone (n : nat) (task : Task) (P C : JsMap Task) (cfg : TaskConfig) :
  (1 <= n)%nat ->
  retry_count task = 0 ->
  max_retries task = Z.of_nat n ->
  id task ∉ JsMap.keys P ->
  JsMap.size P < max_concurrent_tasks cfg ->
  let q := mk [task] P C cfg in
  (forall k : nat, (1 <= k < n)%nat ->
     exists task',
       attempts agentId (id task) err clock k q = mk [task'] P C cfg /\
       id task' = id task /\ status task' = PENDING /\
       retry_count task' = Z.of_nat k /\ assigned_agent task' = None /\
       assigned_at task' = None /\ started_at task' = None) /\
  (exists task',
     attempts agentId (id task) err clock n q
     = mk [] P (JsMap.set (id task) task' C) cfg /\
     id task' = id task /\ status task' = FAILED /\ retry_count task' = Z.of_nat n) /\
  (forall fuel : nat, (n <= fuel)%nat ->
     retry_loop fuel agentId (id task) err clock 0 0 q
     = Some (n, (n - 1)%nat, attempts agentId (id task) err clock n q)).
Proof.
  intros Hn Hzero Hmax Hfresh Hcap q. split_and!.
  - intros k Hk. exists (retried_n err clock k task).
    destruct (retried_n_facts k task) as (Hi & Hm & Hr).
    destruct (retried_n_cleared k task) as (Hs & Ha & Hat & Hst); [lia|].
    split_and!; try done; [|lia].
    apply attempts_requeue; (done || lia).
  - eexists. split; [by apply attempts_exhaust|].
    destruct (retried_n_facts (n - 1) task) as (Hi & Hm & Hr).
    split_and!; simpl; [done | done | lia].
  - intros fuel Hfuel.
    apply (retry_loop_runs task P C cfg Hfresh Hcap Hzero n Hmax n 0%nat 0%nat fuel);
      lia.
Qed.
End TaskQueueRetry.

(** ** The task queue: the retries of a task among other tasks *)

Section TaskQueueRetryAmongOthers.
Import TaskQueue.
Variables (taskId : string) (n : Z).

Lemma jsmap_get_del_ne {V} k k' (m : JsMap V) :
  k ≠ k' -> JsMap.get k' (JsMap.del k m) = JsMap.get k' m.
Proof.
  intros Hne. induction m as [|[k1 v1] m IH]; simpl; [done|].
  destruct (decide (k1 = k)) as [->|Hk]; simpl.
  - by rewrite decide_False.
  - destruct (decide (k1 = k')); [done | apply IH].
Qed.

Lemma allowed_app ok ops ops' q :
  allowed ok (ops ++ ops') q <-> allowed ok ops q /\ allowed ok ops' (run ops q).
Proof.
  revert q. induction ops as [|op ops IH]; intros q; simpl; [naive_solver|].
  rewrite IH. naive_solver.
Qed.

Lemma requeued_alive k q : requeued taskId k n q -> alive taskId k n q.
Proof. intros (task & ? & ? & _ & ? & ? & _). left. by exists task. Qed.

(** A pending task is not in the processing map, and a task of the
    processing map is not pending. *)
Lemma pending_not_processing q task :
  wf q -> task ∈ queue q -> id task ∉ JsMap.keys (processing q).
Proof.
  intros [Hd _] Hin. apply disjoint_stores_iff in Hd as (_ & _ & _ & Hqp & _).
  apply Hqp. apply list_elem_of_fmap. by exists task.
Qed.

Lemma processing_not_pending q i :
  wf q -> i ∈ JsMap.keys (processing q) -> i ∉ id <$> queue q.
Proof.
  intros [Hd _] Hin Hq. apply disjoint_stores_iff in Hd as (_ & _ & _ & Hqp & _).
  by apply (Hqp i).
Qed.

(** [failTask] on the task itself, found in the processing map. *)
Lemma failTask_self err now q task k :
  wf q ->
  JsMap.get taskId (processing q) = Some task ->
  retry_count task = k -> max_retries task = n ->
  failTask taskId err now q = Ok tt (state_of (failTask taskId err now q)) /\
  wf (state_of (failTask taskId err now q)) /\
  after_failure taskId (k + 1) n (state_of (failTask taskId err now q)).
Proof.
  intros Hwf Hg Hk Hn. pose proof (wf_failTask taskId err now q Hwf) as Hwf'.
  destruct Hwf as [Hd Hkeyed]. pose proof (keyed_get _ _ _ Hkeyed Hg) as Hid.
  pose proof (jsmap_get_Some_key _ _ _ Hg) as Hkey.
  apply disjoint_stores_iff in Hd as (_ & Hp & _ & Hqp & _ & Hpc).
  revert Hwf'. unfold failTask. rewrite Hg. cbn [retry_count max_retries
    set_updated_at set_error set_retry_count]. rewrite Hk, Hn.
  assert (taskId ∉ JsMap.keys (JsMap.del taskId (processing q))) as Hdel.
  { intros Hin. apply jsmap_elem_of_keys_del in Hin. by destruct Hin. }
  destruct (decide (k + 1 >= n)) as [Hge|Hlt]; cbn [state_of]; intros Hwf';
    (split; [done|]); (split; [done|]); unfold after_failure; cbn [queue processing completed].
  - split; [done|]. split; [lia|]. intros _. split.
    + eexists. split; [apply jsmap_get_set_eq|]. by split.
    + intros Hin. by apply (Hqp taskId).
  - split; [done|]. split; [|lia]. intros _. split.
    + eexists. split; [apply elem_of_app; right; apply list_elem_of_here|].
      cbn. by split_and!.
    + by apply Hpc.
Qed.

(** Any call of [failTask] while the task is not in the processing map. *)
Lemma failTask_absent i err now q :
  wf q -> taskId ∉ JsMap.keys (processing q) ->
  let q' := state_of (failTask i err now q) in
  (taskId ∉ JsMap.keys (processing q')) /\
  (forall k, alive taskId k n q -> alive taskId k n q') /\
  (gone taskId q -> gone taskId q') /\
  (forall k, after_failure taskId k n q -> after_failure taskId k n q').
Proof.
  intros [Hd Hkeyed] Hnp. cbv zeta. unfold failTask.
  destruct (JsMap.get i (processing q)) as [ti|] eqn:Eg; [|done].
  pose proof (keyed_get _ _ _ Hkeyed Eg) as Hid.
  assert (i ≠ taskId) as Hne.
  { intros ->. apply Hnp. by eapply jsmap_get_Some_key. }
  assert (taskId ∉ JsMap.keys (JsMap.del i (processing q))) as Hdel.
  { intros Hin. apply jsmap_elem_of_keys_del in Hin. by destruct Hin. }
  destruct (decide _); cbn [state_of queue processing completed].
  - split_and!; [done | | |].
    + intros k [Hpend|(task & Hg & _)]; [by left|].
      exfalso. apply Hnp. by eapply jsmap_get_Some_key.
    + intros [Hq _]. by split.
    + intros k (_ & Hlt & Hge). unfold after_failure. cbn [queue processing completed].
      split; [done|]. split.
      * intros Hk. destruct (Hlt Hk) as [Hr Hc]. split; [done|].
        intros Hin. apply jsmap_elem_of_keys_set in Hin as [?|?]; [by subst | done].
      * intros Hk. destruct (Hge Hk) as [(task & Hg & Hst) Hq]. split; [|done].
        exists task. cbn [completed]. by rewrite jsmap_get_set_ne.
  - assert (forall task, task ∈ queue q -> task ∈ queue q ++ [set_started_at None
              (set_assigned_at None (set_assigned_agent None (set_status PENDING
                 (set_updated_at now (set_error (Some err)
                    (set_retry_count (retry_count ti + 1) ti))))))]) as Hleft.
    { intros task Hin. apply elem_of_app. by left. }
    assert (forall l, (taskId ∉ id <$> l) -> taskId ∉ id <$> (l ++ [set_started_at None
              (set_assigned_at None (set_assigned_agent None (set_status PENDING
                 (set_updated_at now (set_error (Some err)
                    (set_retry_count (retry_count ti + 1) ti))))))])) as Hright.
    { intros l Hl. rewrite fmap_app. apply not_elem_of_app. split; [done|].
      cbn. rewrite Hid. by apply not_elem_of_cons; split; [|apply not_elem_of_nil]. }
    split_and!; [done | | |].
    + intros k [(task & Hin & Hrest)|(task & Hg & _)].
      * left. exists task. split; [by apply Hleft | done].
      * exfalso. apply Hnp. by eapply jsmap_get_Some_key.
    + intros [Hq _]. split; [by apply Hright | done].
    + intros k (_ & Hlt & Hge). unfold after_failure. cbn [queue processing completed].
      split; [done|]. split.
      * intros Hk. destruct (Hlt Hk) as [(task & Hin & Hrest) Hc]. split; [|done].
        exists task. split; [by apply Hleft | done].
      * intros Hk. destruct (Hge Hk) as [Hf Hq]. split; [done | by apply Hright].
Qed.

(** A call of [failTask] for another task while the task is in the
    processing map. *)
Lemma failTask_other i err now q :
  i ≠ taskId ->
  JsMap.get taskId (processing (state_of (failTask i err now q)))
  = JsMap.get taskId (processing q).
Proof.
  intros Hne. unfold failTask. destruct (JsMap.get i (processing q)); [|done].
  destruct (decide _); cbn [state_of processing]; by apply jsmap_get_del_ne.
Qed.

Lemma failAll_preserves_in (P : t -> Prop) now l :
  (forall i q, i ∈ l -> P q -> P (state_of (failTask i "Task timeout" now q))) ->
  forall q, P q -> P (state_of (failAll l now q)).
Proof.
  induction l as [|i l IH]; intros Hstep q Hq; simpl; [done|].
  pose proof (Hstep i q (list_elem_of_here _ _) Hq) as Hq'.
  destruct (failTask i "Task timeout" now q) as [[] q'|msg q']; simpl in *; [|done].
  apply IH; [|done]. intros j q0 Hj. apply Hstep. by apply list_elem_of_further.
Qed.

Lemma filtered_keys_NoDup {V} (f : string * V -> bool) (m : JsMap V) :
  NoDup (JsMap.keys m) -> NoDup (List.filter f m).*1.
Proof.
  unfold JsMap.keys. induction m as [|[k v] m IH]; simpl; [done|].
  rewrite NoDup_cons. intros [Hk Hm]. destruct (f (k, v)); simpl; [|by apply IH].
  apply NoDup_cons. split; [|by apply IH].
  intros Hin. apply Hk. apply list_elem_of_fmap in Hin as (e & -> & He).
  apply list_elem_of_In, List.filter_In in He as [He _].
  apply list_elem_of_fmap. exists e. split; [done | by apply list_elem_of_In].
Qed.

(** [checkTimeouts] when the task is among the tasks it collects. *)
Lemma failAll_reaches now l : forall q task k,
  wf q -> NoDup l -> (forall i, i ∈ l -> i ∈ JsMap.keys (processing q)) ->
  taskId ∈ l ->
  JsMap.get taskId (processing q) = Some task ->
  retry_count task = k -> max_retries task = n ->
  wf (state_of (failAll l now q)) /\
  after_failure taskId (k + 1) n (state_of (failAll l now q)).
Proof.
  induction l as [|i l IH]; intros q task k Hwf Hnd Hin Hmem Hg Hk Hn.
  { by apply elem_of_nil in Hmem. }
  apply NoDup_cons in Hnd as [Hi Hnd]. cbn [failAll].
  destruct (decide (i = taskId)) as [->|Hne].
  - destruct (failTask_self "Task timeout" now q task k Hwf Hg Hk Hn)
      as (-> & Hwf1 & Hafter).
    set (q1 := state_of (failTask taskId "Task timeout" now q)) in *.
    apply (failAll_preserves_in
             (fun q => wf q /\ after_failure taskId (k + 1) n q) now); [|done].
    intros j q0 _ [Hwf0 Ha0]. split; [by apply wf_failTask|].
    destruct Ha0 as [Hnp0 Hrest0].
    by apply (failTask_absent j "Task timeout" now q0 Hwf0 Hnp0), conj.
  - assert (i ∈ JsMap.keys (processing q)) as Hkey by (apply Hin; left).
    pose proof (wf_failTask i "Task timeout" now q Hwf) as Hwf1.
    pose proof (failTask_other i "Task timeout" now q Hne) as Hg1.
    assert (forall j, j ∈ l ->
              j ∈ JsMap.keys (processing (state_of (failTask i "Task timeout" now q))))
      as Hin1.
    { intros j Hj. assert (j ≠ i) by (by intros ->).
      assert (j ∈ JsMap.keys (processing q)) as Hjk by (apply Hin; by right).
      unfold failTask. destruct (JsMap.get i (processing q)); [|done].
      destruct (decide _); cbn [state_of processing];
        by apply jsmap_elem_of_keys_del. }
    assert (exists q1, failTask i "Task timeout" now q = Ok tt q1) as [q1 Eq1].
    { unfold failTask. destruct (JsMap.get i (processing q)) eqn:Eg.
      - destruct (decide _); by eexists.
      - by apply jsmap_get_None in Eg. }
    rewrite Eq1 in *. cbn [state_of] in *.
    apply (IH q1 task k); try done.
    + apply elem_of_cons in Hmem as [?|?]; [by subst | done].
    + by rewrite Hg1.
Qed.

(** One call other than [checkTimeouts] that is not a failure of the
    task. *)
Lemma retry_step_quiet q op k :
  wf q -> retries_only taskId q op ->
  (forall now, op ≠ OpCheckTimeouts now) ->
  fails_now taskId op q = false ->
  (alive taskId k n q -> alive taskId k n (apply q op)) /\
  (gone taskId q -> gone taskId (apply q op)).
Proof.
  intros Hwf [Hfresh Hop] Hnc Hfails.
  assert (forall task, task ∈ queue q -> id task = taskId ->
            taskId ∉ JsMap.keys (processing q)) as Hpn.
  { intros task Hin <-. by apply pending_not_processing. }
  unfold alive, gone.
  destruct op as [task0 uuid now|a now|i now|i res now|i err now|i now|now|now];
    cbn [apply].
  - (* enqueue *)
    cbn [enqueue state_of]. split.
    + intros [(task & Hin & Hrest)|Hproc]; [left | by right].
      exists task. split; [|done]. cbn [queue].
      rewrite sort_by_priority_perm. apply elem_of_app. by left.
    + intros [Hq Hp]. split; [|done]. cbn [queue].
      rewrite sort_by_priority_perm, fmap_app. apply not_elem_of_app. split; [done|].
      cbn. apply not_elem_of_cons. split; [by intros -> | apply not_elem_of_nil].
  - (* dequeue *)
    unfold dequeue. destruct (queue q) as [|head rest] eqn:Eq;
      [cbn [state_of]; by rewrite Eq|].
    destruct (decide _); cbn [state_of]; [by rewrite Eq|].
    cbn [queue processing id set_updated_at set_assigned_at set_assigned_agent set_status].
    assert (id head ∉ JsMap.keys (processing q)) as Hhead.
    { apply pending_not_processing; [done|]. rewrite Eq. apply list_elem_of_here. }
    split.
    + intros [(task & Hin & Hid & Hk & Hn)|(task & Hg & Hrest)].
      * apply elem_of_cons in Hin as [->|Hin].
        -- right. eexists. rewrite Hid. split; [apply jsmap_get_set_eq | done].
        -- left. by exists task.
      * right. exists task. split; [|done]. rewrite jsmap_get_set_ne; [done|].
        intros Heq. apply Hhead. rewrite Heq. by eapply jsmap_get_Some_key.
    + intros [Hq Hp]. rewrite fmap_cons in Hq.
      apply not_elem_of_cons in Hq as [Hne Hq]. split; [done|].
      intros Hin. apply jsmap_elem_of_keys_set in Hin as [?|?]; done.
  - (* startTask *)
    unfold startTask. destruct (JsMap.get i (processing q)) as [ti|] eqn:Eg; [|done].
    cbn [state_of queue processing]. split.
    + intros [Hpend|(task & Hg & Hk & Hn)]; [by left | right].
      destruct (decide (i = taskId)) as [->|Hne].
      * rewrite Hg in Eg. injection Eg as <-.
        eexists. split; [apply jsmap_get_set_eq | done].
      * exists task. by rewrite jsmap_get_set_ne.
    + intros [Hq Hp]. split; [done|].
      intros Hin. apply jsmap_elem_of_keys_set in Hin as [->|?]; [|done].
      apply Hp. by eapply jsmap_get_Some_key.
  - (* completeTask *)
    unfold completeTask. destruct (JsMap.get i (processing q)) as [ti|] eqn:Eg; [|done].
    cbn [state_of queue processing]. split.
    + intros [Hpend|(task & Hg & Hrest)]; [by left | right].
      exists task. by rewrite jsmap_get_del_ne.
    + intros [Hq Hp]. split; [done|].
      intros Hin. apply jsmap_elem_of_keys_del in Hin. by destruct Hin.
  - (* failTask *)
    cbn [fails_now] in Hfails. apply andb_false_iff in Hfails.
    destruct (decide (taskId ∈ JsMap.keys (processing q))) as [Hin|Hnp].
    + assert (i ≠ taskId) as Hne.
      { destruct Hfails as [Hf|Hf]; apply bool_decide_eq_false in Hf; [done|].
        exfalso. apply Hf.
        destruct (JsMap.get taskId (processing q)) eqn:Eg; [done|].
        by apply jsmap_get_None in Eg. }
      split.
      * intros [(task & Hq & <- & _)|(task & Hg & Hrest)].
        -- exfalso. by apply (pending_not_processing q task).
        -- right. exists task. by rewrite failTask_other.
      * by intros [_ Hp].
    + destruct (failTask_absent i err now q Hwf Hnp) as (_ & Ha & Hg & _).
      split; [apply Ha | apply Hg].
  - (* cancelTask *)
    unfold cancelTask.
    destruct (splice_id i (queue q)) as [[x rest]|] eqn:Es.
    + apply splice_id_Some in Es as [Hx Hperm]. cbn [state_of queue processing]. split.
      * intros [(task & Hin & Hid & Hrest)|Hproc]; [left | by right].
        exists task. split; [|done]. rewrite Hperm in Hin.
        apply elem_of_cons in Hin as [->|?]; [congruence | done].
      * intros [Hq Hp]. split; [|done]. rewrite Hperm, fmap_cons in Hq.
        by apply not_elem_of_cons in Hq as [_ Hq].
    + destruct (JsMap.get i (processing q)) as [ti|] eqn:Eg; [|done].
      cbn [state_of queue processing]. split.
      * intros [Hpend|(task & Hg & Hrest)]; [by left | right].
        exists task. by rewrite jsmap_get_del_ne.
      * intros [Hq Hp]. split; [done|].
        intros Hin. apply jsmap_elem_of_keys_del in Hin. by destruct Hin.
  - by destruct (Hnc now).
  - (* cleanup *)
    done.
Qed.

(** One call, whatever it is. *)
Lemma retry_step q op k :
  situation taskId k n q -> retries_only taskId q op ->
  if fails_now taskId op q
  then k < n /\ situation taskId (k + 1) n (apply q op) /\
       after_failure taskId (k + 1) n (apply q op) /\
       (forall err now, op = OpFailTask taskId err now ->
          failTask taskId err now q = Ok tt (apply q op))
  else situation taskId k n (apply q op).
Proof.
  intros [Hwf Hsit] Hop. pose proof (wf_apply q op Hwf (proj1 Hop)) as Hwf'.
  assert (forall q', wf q' -> k < n -> after_failure taskId (k + 1) n q' ->
            situation taskId (k + 1) n q') as Hnext.
  { intros q' Hq' Hk (Hnp & Hlt & Hge). split; [done|].
    destruct (decide (k + 1 < n)) as [Hk1|Hk1].
    - left. split; [done|]. apply requeued_alive. by apply Hlt.
    - right. split; [lia|]. split; [|done]. apply Hge. lia. }
  destruct (fails_now taskId op q) eqn:Hfails.
  - (* the call fails the task: the task is in the processing map *)
    assert (exists task, JsMap.get taskId (processing q) = Some task) as [task Hg].
    { destruct op; try done; cbn [fails_now] in Hfails.
      - apply andb_true_iff in Hfails as [_ Hs]. by apply bool_decide_eq_true in Hs.
      - apply bool_decide_eq_true in Hfails.
        apply list_elem_of_fmap in Hfails as ([i t] & -> & Hin).
        apply list_elem_of_In, List.filter_In in Hin as [Hin _].
        apply list_elem_of_In in Hin. cbn.
        destruct (JsMap.get i (processing q)) eqn:Eg; [by eexists|].
        apply jsmap_get_None in Eg. exfalso. apply Eg.
        apply list_elem_of_fmap. by exists (i, t). }
    pose proof (jsmap_get_Some_key _ _ _ Hg) as Hkey.
    destruct Hsit as [[Hk [(t' & Hq & Hid & _)|(t' & Hg' & Hrc & Hmr)]]|[_ [_ Hp]]];
      [exfalso; subst taskId; by apply (pending_not_processing q t') | | done].
    rewrite Hg in Hg'. injection Hg' as <-.
    destruct op; try done; cbn [fails_now] in Hfails; cbn [apply] in *.
    + apply andb_true_iff in Hfails as [->%bool_decide_eq_true _].
      destruct (failTask_self err now q task k Hwf Hg Hrc Hmr) as (Hok & _ & Hafter).
      split_and!; [done | by apply Hnext | done |].
      intros err' now' [= -> ->]. done.
    + apply bool_decide_eq_true in Hfails.
      destruct Hwf as [Hd Hkeyed]. pose proof Hd as Hd0.
      apply disjoint_stores_iff in Hd as (_ & Hnd & _).
      destruct (failAll_reaches now (List.filter (timedOut now) (processing q)).*1
                  q task k) as [_ Hafter]; try done.
      * by apply filtered_keys_NoDup.
      * intros i (e & -> & He)%list_elem_of_fmap.
        apply list_elem_of_In, List.filter_In in He as [He _].
        apply list_elem_of_fmap. exists e. split; [done | by apply list_elem_of_In].
      * split_and!; [done | by apply Hnext | done | done].
  - (* the call does not fail the task *)
    split; [done|].
    assert ((exists now, op = OpCheckTimeouts now) \/
            (forall now, op ≠ OpCheckTimeouts now)) as [[now ->]|Hnc]
      by (destruct op; eauto; by right).
    + cbn [fails_now] in Hfails. apply bool_decide_eq_false in Hfails.
      cbn [apply]. unfold checkTimeouts.
      destruct (decide (taskId ∈ JsMap.keys (processing q))) as [Hin|Hnp].
      * (* in the processing map, and not timed out *)
        destruct Hsit as [[Hk [(t' & Hq & Hid & _)|(t' & Hg' & Hrest)]]|[_ [_ Hp]]];
          [exfalso; subst taskId; by apply (pending_not_processing q t') | | done].
        left. split; [done|]. right. exists t'. split; [|done].
        apply (failAll_preserves_in
                 (fun q => JsMap.get taskId (processing q) = Some t') now); [|done].
        intros i q0 Hi Hq0. rewrite failTask_other; [done|]. by intros ->.
      * apply (failAll_preserves_in
                 (fun q' => wf q' /\ (taskId ∉ JsMap.keys (processing q')) /\
                            ((k < n /\ alive taskId k n q') \/
                             (k = n /\ gone taskId q'))) now); [|done].
        intros i q0 _ (Hwf0 & Hnp0 & Hs0).
        destruct (failTask_absent i "Task timeout" now q0 Hwf0 Hnp0)
          as (Hnp1 & Ha & Hg & _).
        split_and!; [by apply wf_failTask | done |].
        destruct Hs0 as [[? ?]|[? ?]]; [left | right]; split; auto.
    + destruct (retry_step_quiet q op k Hwf Hop Hnc Hfails) as [Ha Hg].
      destruct Hsit as [[? ?]|[? ?]]; [left | right]; split; auto.
Qed.

(** A sequence of calls. *)
Lemma retry_steps ops : forall q k,
  situation taskId k n q -> allowed (retries_only taskId) ops q ->
  situation taskId (k + Z.of_nat (failures taskId ops q)) n (run ops q).
Proof.
  induction ops as [|op ops IH]; intros q k Hsit Hops; cbn [failures run foldl].
  { by rewrite Z.add_0_r. }
  destruct Hops as [Hop Hops]. pose proof (retry_step q op k Hsit Hop) as Hstep.
  destruct (fails_now taskId op q).
  - destruct Hstep as (_ & Hsit' & _).
    pose proof (IH _ _ Hsit' Hops) as Hrun.
    by replace (k + Z.of_nat (1 + failures taskId ops (apply q op)))
      with (k + 1 + Z.of_nat (failures taskId ops (apply q op))) by lia.
  - by apply IH.
Qed.
End TaskQueueRetryAmongOthers.

(** C7: for every n >= 1, take a task with [max_retries = n] that is
    pending with [retry_count = 0] in a reachable state, whatever other
    tasks the queue holds, and any calls made from there, on this task and
    on others, as long as the task itself is neither completed nor cancelled
    and its id is not given out again.  The k-th call of [failTask] that
    finds the task in the processing map (a direct call, which returns, or
    the one [checkTimeouts] makes for a task that has timed out)
    re-inserts it into the pending collection as PENDING with
    [retry_count = k] and with [assigned_agent], [assigned_at] and
    [started_at] cleared when k < n, and moves it to the completed store as
    FAILED with [retry_count = n] when k = n; there is no further one: the
    task fails for good at exactly the n-th call, after n-1 re-insertions. *)
Theorem retry_exhaustion cfg q task (n : nat) ops op :
  TaskQueue.reachable cfg q ->
  task ∈ TaskQueue.queue q ->
  retry_count task = 0 -> max_retries task = Z.of_nat n -> (1 <= n)%nat ->
  TaskQueue.allowed (TaskQueue.retries_only (id task)) (ops ++ [op]) q ->
  TaskQueue.fails_now (id task) op (TaskQueue.run ops q) = true ->
  let k := S (TaskQueue.failures (id task) ops q) in
  let q' := TaskQueue.run (ops ++ [op]) q in
  (k <= n)%nat /\
  (forall err now, op = TaskQueue.OpFailTask (id task) err now ->
     TaskQueue.failTask (id task) err now (TaskQueue.run ops q) = TaskQueue.Ok tt q') /\
  ((k < n)%nat ->
   TaskQueue.requeued (id task) (Z.of_nat k) (Z.of_nat n) q' /\
   (id task ∉ JsMap.keys (TaskQueue.processing q')) /\
   (id task ∉ JsMap.keys (TaskQueue.completed q'))) /\
  (k = n ->
   TaskQueue.failed_for_good (id task) (Z.of_nat n) q' /\
   TaskQueue.gone (id task) q').
Proof.
  intros Hq Hin Hrc Hmr Hn Hops Hfails k q'.
  apply allowed_app in Hops as [Hops [Hop _]].
  assert (TaskQueue.situation (id task) 0 (Z.of_nat n) q) as Hsit.
  { split; [by eapply reachable_wf|]. left. split; [lia|]. left. by exists task. }
  pose proof (retry_steps (id task) (Z.of_nat n) ops q 0 Hsit Hops) as Hrun.
  pose proof (retry_step (id task) (Z.of_nat n) _ op _ Hrun Hop) as Hstep.
  rewrite Hfails in Hstep. destruct Hstep as (Hk & _ & (Hnp & Hlt & Hge) & Hok).
  assert (q' = TaskQueue.apply (TaskQueue.run ops q) op) as Hq'.
  { unfold q', TaskQueue.run. by rewrite foldl_app. }
  rewrite Hq'.
  replace (0 + Z.of_nat (TaskQueue.failures (id task) ops q) + 1)
    with (Z.of_nat k) in Hlt, Hge by (unfold k; lia).
  split_and!.
  - unfold k. lia.
  - done.
  - intros Hkn. destruct Hlt as [Hr Hc]; [lia|]. by split_and!.
  - intros Hkn. destruct Hge as [Hf Hqq]; [lia|]. rewrite Hkn in Hf.
    split; [done|]. by split.
Qed.

Lemma retry_exhaustion_witness :
  TaskQueue.failed_for_good "t1" 2
    (TaskQueue.run (Sample.retry_among_ops ++ [TaskQueue.OpCheckTimeouts 40000])
       (TaskQueue.run Sample.pair_ops (TaskQueue.new Sample.cfg))).
Proof.
  pose proof (retry_exhaustion Sample.cfg
                (TaskQueue.run Sample.pair_ops (TaskQueue.new Sample.cfg))
                (Sample.pending_task "t1" "collect_news" 2 2 1000) 2
                Sample.retry_among_ops (TaskQueue.OpCheckTimeouts 40000)) as H.
  cbv zeta in H. destruct H as (_ & _ & _ & Hlast).
  - apply reachable_by_run; [apply TaskQueue.reach_new | by_evaluation].
  - vm_compute. apply list_elem_of_further, list_elem_of_here.
  - reflexivity.
  - reflexivity.
  - lia.
  - by_evaluation.
  - vm_compute. reflexivity.
  - apply Hlast. vm_compute. reflexivity.
Defined.

(** ** Claims about retries, priorities and cancellation *)

Section TaskQueueEvaluations.
Import TaskQueue.

Lemma retry_loop_alone_example :
  retry_loop 5 None "t1" "boom" (fun k => 2000 + Z.of_nat k) 0 0
    (mk [Sample.pending_task "t1" "collect_news" 2 3 1000] [] [] Sample.cfg)
  = Some (3%nat, 2%nat,
          attempts None "t1" "boom" (fun k => 2000 + Z.of_nat k) 3
            (mk [Sample.pending_task "t1" "collect_news" 2 3 1000] [] [] Sample.cfg)).
Proof.
  refine (proj2 (proj2
    (retry_loop_alone None "boom" (fun k => 2000 + Z.of_nat k) 3
       (Sample.pending_task "t1" "collect_news" 2 3 1000) [] [] Sample.cfg
       _ _ _ _ _)) 5%nat _).
  - lia.
  - reflexivity.
  - reflexivity.
  - apply not_elem_of_nil.
  - reflexivity.
  - lia.
Defined.

(** [enqueue] leaves a pending collection it found ordered by priority
    ordered: its sort puts every task in front of the tasks of lower
    priority. *)
Lemma sort_insert_sorted x l :
  Sorted (fun a b => priority b <= priority a) l ->
  Sorted (fun a b => priority b <= priority a) (sort_insert x l).
Proof.
  induction 1 as [|y l Hl IH Hy]; simpl; [by repeat constructor|].
  destruct (decide (priority x < priority y)).
  - constructor; [done|].
    destruct l as [|z l]; simpl in *; [constructor; lia|].
    destruct (decide (priority x < priority z)); constructor; [|lia].
    by inversion Hy.
  - constructor; [by constructor | constructor; lia].
Qed.

Lemma sort_by_priority_sorted l :
  Sorted (fun a b => priority b <= priority a) (sort_by_priority l).
Proof.
  induction l as [|x l IH]; simpl; [constructor | by apply sort_insert_sorted].
Qed.

(** On a pending collection ordered by priority, as [enqueue] leaves it,
    [dequeue] does return a task of maximal priority. *)
Lemma dequeue_sorted_maximal agentId now q task q' :
  Sorted (fun a b => priority b <= priority a) (queue q) ->
  dequeue agentId now q = Ok (Some task) q' ->
  Forall (fun other => priority other <= priority task) (queue q').
Proof.
  intros Hsorted. unfold dequeue.
  destruct (queue q) as [|head rest]; [done|].
  destruct (decide _); [done|]. intros [= <- <-]. simpl.
  apply Sorted_StronglySorted in Hsorted; [|intros a b c; simpl; lia].
  by apply StronglySorted_inv in Hsorted as [_ Hhead].
Qed.

(** C3 at the failing input: after the retry of the priority-3 task "t2",
    the pending collection is ["t1"; "t2"] with priorities [1; 3], and
    [dequeue] returns "t1" although "t2" has the higher priority. *)
Theorem dequeue_after_retry_not_maximal :
  reachable Sample.cfg (run Sample.retry_ops (new Sample.cfg)) /\
  (fun task => (id task, priority task, created_at task))
    <$> queue (run Sample.retry_ops (new Sample.cfg))
  = [("t1", 1, 1000); ("t2", 3, 1001)] /\
  processing (run Sample.retry_ops (new Sample.cfg)) = [] /\
  exists task q',
    dequeue None 1004 (run Sample.retry_ops (new Sample.cfg)) = Ok (Some task) q' /\
    id task = "t1" /\ priority task = 1 /\
    (fun task => (id task, priority task)) <$> queue q' = [("t2", 3)].
Proof.
  split_and!.
  - apply reachable_by_run; [apply reach_new | by_evaluation].
  - vm_compute. reflexivity.
  - vm_compute. reflexivity.
  - do 2 eexists. split; [vm_compute; reflexivity|]. by split_and!.
Qed.

(** C6 at the failing input: cancelling the pending task "t1" at time
    2000 stores it as CANCELLED with [completed_at] still undefined, and
    no later [cleanup] removes it; the same task cancelled after a
    [dequeue] gets [completed_at = 2000]. *)
Theorem cancel_pending_has_no_completed_at :
  let q := mk [Sample.pending_task "t1" "collect_news" 2 3 1000] [] [] Sample.cfg in
  let q' := state_of (cancelTask "t1" 2000 q) in
  (fun e : string * Task => (e.1, status e.2, completed_at e.2)) <$> completed q'
  = [("t1", CANCELLED, None)] /\
  (forall now, completed (state_of (cleanup now q')) = completed q') /\
  (fun e : string * Task => (e.1, status e.2, completed_at e.2))
    <$> completed (state_of (cancelTask "t1" 2000 (state_of (dequeue None 1500 q))))
  = [("t1", CANCELLED, Some 2000)].
Proof. split_and!; [reflexivity | intros now; reflexivity | reflexivity]. Qed.

(** The part of C6 the code keeps: a task in the processing map is moved
    to the completed store as CANCELLED with [completed_at = now], and a
    [cancelTask] of an id in neither store changes nothing (and raises
    nothing). *)
Lemma cancelTask_processing taskId now q task :
  splice_id taskId (queue q) = None ->
  JsMap.get taskId (processing q) = Some task ->
  cancelTask taskId now q
  = Ok tt (mk (queue q) (JsMap.del taskId (processing q))
             (JsMap.set taskId
                (set_completed_at (Some now)
                   (set_updated_at now (set_status CANCELLED task))) (completed q))
             (config q)).
Proof. intros Hs Hg. unfold cancelTask. by rewrite Hs, Hg. Qed.

Lemma cancelTask_absent taskId now q :
  taskId ∉ id <$> queue q -> taskId ∉ JsMap.keys (processing q) ->
  cancelTask taskId now q = Ok tt q.
Proof.
  intros Hq Hp. unfold cancelTask.
  destruct (splice_id taskId (queue q)) as [[task rest]|] eqn:Es.
  - apply splice_id_Some in Es as [Hid Hperm]. exfalso. apply Hq.
    rewrite Hperm. simpl. rewrite Hid. apply list_elem_of_here.
  - apply jsmap_get_None in Hp. by rewrite Hp.
Qed.
End TaskQueueEvaluations.

(** ** The scheduler and tasks without a route *)

Section SchedulerClaims.
Import TaskScheduler.

Lemma routeTask_no_route routeTable task :
  routeTable !! type task = None -> subtype task = None ->
  TaskRouter.routeTask routeTable task = [].
Proof. intros Hr Hs. unfold TaskRouter.routeTask. by rewrite Hr, Hs. Qed.

(** C1, as stated, fails: with the seeded routes, a task of type
    "unknown_type" with [max_retries = 3] has no route, and after
    [scheduleNextTask] it is back in the pending collection as PENDING
    with [retry_count = 1]; nothing is in the completed store. *)
Lemma unroutable_task_is_retried :
  TaskRouter.routeTask (routeTable Sample.unroutable)
    (Sample.pending_task "t1" "unknown_type" 2 3 1000) = [] /\
  TaskQueue.queue (taskQueue Sample.unroutable)
  = [Sample.pending_task "t1" "unknown_type" 2 3 1000] /\
  TaskQueue.queue (taskQueue (scheduleNextTask 2000 Sample.unroutable))
  = [mkTask "t1" "unknown_type" None 2 PENDING "{}" None
       (Some "No capable agents available") 1000 2000 None None None None
       1 3 30000 [] []] /\
  TaskQueue.completed (taskQueue (scheduleNextTask 2000 Sample.unroutable)) = [].
Proof. split_and!; vm_compute; reflexivity. Qed.

(** C1 (amended): when the scheduler dequeues a task for which
    [routeTask] returns no agent, it fails the task through [failTask]
    with the message "No capable agents available": [retry_count] goes up
    by one, and the task is FAILED in the completed store if that count has
    reached [max_retries]; otherwise it is re-inserted at the end of the
    pending collection as PENDING. *)
Theorem unroutable_task_failTask now s head rest :
  TaskQueue.queue (taskQueue s) = head :: rest ->
  JsMap.size (TaskQueue.processing (taskQueue s))
    < max_concurrent_tasks (TaskQueue.config (taskQueue s)) ->
  TaskRouter.routeTask (routeTable s) head = [] ->
  scheduleNextTask now s
  = with_queue s
      (if decide (retry_count head + 1 >= max_retries head)
       then TaskQueue.mk rest
              (JsMap.del (id head) (TaskQueue.processing (taskQueue s)))
              (JsMap.set (id head)
                 (TaskQueue.exhausted None "No capable agents available" now head)
                 (TaskQueue.completed (taskQueue s)))
              (TaskQueue.config (taskQueue s))
       else TaskQueue.mk
              (rest ++ [TaskQueue.retried "No capable agents available" now head])
              (JsMap.del (id head) (TaskQueue.processing (taskQueue s)))
              (TaskQueue.completed (taskQueue s))
              (TaskQueue.config (taskQueue s))).
Proof.
  intros Hq Hcap Hroute.
  pose proof (dequeue_failTask_head None "No capable agents available" now head rest
                (TaskQueue.processing (taskQueue s)) (TaskQueue.completed (taskQueue s))
                (TaskQueue.config (taskQueue s)) Hcap) as Hstep.
  unfold scheduleNextTask.
  destruct (taskQueue s) as [qu P C cfg] eqn:Es. simpl in Hq, Hcap. subst qu.
  unfold TaskQueue.dequeue in *. simpl in *.
  rewrite decide_False in * by lia. simpl in *.
  change (TaskRouter.routeTask (routeTable s)
            (set_updated_at now
               (set_assigned_at (Some now)
                  (set_assigned_agent None (set_status ASSIGNED head)))))
    with (TaskRouter.routeTask (routeTable s) head).
  rewrite Hroute. by rewrite Hstep.
Qed.

Lemma unroutable_task_failTask_witness :
  scheduleNextTask 2000 Sample.unroutable
  = with_queue Sample.unroutable
      (TaskQueue.mk
         [TaskQueue.retried "No capable agents available" 2000
            (Sample.pending_task "t1" "unknown_type" 2 3 1000)]
         [] [] Sample.cfg).
Proof.
  exact (unroutable_task_failTask 2000 Sample.unroutable
           (Sample.pending_task "t1" "unknown_type" 2 3 1000) []
           eq_refl eq_refl eq_refl).
Defined.
End SchedulerClaims.

(** ** The circuit breaker *)

Section CircuitBreaker.
Import Protocol.

Lemma recordFailure_run cfg times b :
  let b' := foldl (fun b now => recordFailure cfg now b) b times in
  failures b' = failures b + Z.of_nat (length times) /\
  (state b = OPEN -> state b' = OPEN).
Proof.
  revert b. induction times as [|now times IH]; intros b; simpl; [split; [lia | done]|].
  destruct (IH (recordFailure cfg now b)) as [Hf Hs]. split.
  - rewrite Hf. unfold recordFailure. destruct (decide _); simpl; lia.
  - intros Hb. apply Hs. unfold recordFailure. by destruct (decide _).
Qed.

Lemma recordFailure_last cfg times last b :
  0 <= failures b ->
  Z.of_nat (length (times ++ [last])) = failure_threshold cfg ->
  exists f,
    foldl (fun b now => recordFailure cfg now b) b (times ++ [last])
    = mkBreaker OPEN f last 0.
Proof.
  intros Hf Hlen. rewrite foldl_app.
  destruct (recordFailure_run cfg times b) as [Hcount _]. cbv zeta in Hcount.
  rewrite length_app in Hlen. cbn [length] in Hlen.
  cbn [foldl]. unfold recordFailure at 1.
  destruct (decide _) as [Hge|Hlt]; [eauto|].
  exfalso. apply Hlt. rewrite Hcount. lia.
Qed.

Lemma updateCircuitBreaker_lookup peer success now p b :
  enabled (circuitBreakerConfig p) = true ->
  circuitBreaker p !! peer = Some b ->
  circuitBreakerConfig (updateCircuitBreaker peer success now p) = circuitBreakerConfig p /\
  circuitBreaker (updateCircuitBreaker peer success now p) !! peer
  = Some (if success then recordSuccess b
          else recordFailure (circuitBreakerConfig p) now b).
Proof.
  intros Hen Hb. unfold updateCircuitBreaker. rewrite Hen, Hb.
  cbn [negb with_breakers circuitBreakerConfig circuitBreaker].
  split; [done | apply lookup_insert_eq].
Qed.

Lemma reportFailures_lookup peer times p b :
  enabled (circuitBreakerConfig p) = true ->
  circuitBreaker p !! peer = Some b ->
  circuitBreakerConfig (reportFailures peer times p) = circuitBreakerConfig p /\
  circuitBreaker (reportFailures peer times p) !! peer
  = Some (foldl (fun b now => recordFailure (circuitBreakerConfig p) now b) b times).
Proof.
  revert p b. induction times as [|now times IH]; intros p b Hen Hb; simpl; [done|].
  unfold reportFailures in IH.
  assert (updateCircuitBreaker peer false now p
          = with_breakers p
              (<[peer := recordFailure (circuitBreakerConfig p) now b]> (circuitBreaker p)))
    as Hstep.
  { unfold updateCircuitBreaker. by rewrite Hen, Hb. }
  rewrite Hstep.
  destruct (IH (with_breakers p
                  (<[peer := recordFailure (circuitBreakerConfig p) now b]>
                     (circuitBreaker p)))
               (recordFailure (circuitBreakerConfig p) now b)) as [Hc Hl];
    [done | apply lookup_insert_eq | done].
Qed.

(** C2: for a peer whose breaker is CLOSED (with the breaker enabled),
    [failure_threshold] consecutive failure reports, the last at time
    [last], leave the breaker OPEN; the next admission check at a time
    [now] with [now - last > recovery_timeout] admits the call and leaves
    the breaker HALF_OPEN; three success reports after that leave it CLOSED
    with [success_count = 0] (and [failures = 0]). *)
Theorem breaker_opens_and_recovers p peer b times last now s1 s2 s3 :
  enabled (circuitBreakerConfig p) = true ->
  circuitBreaker p !! peer = Some b ->
  state b = CLOSED ->
  0 <= failures b ->
  Z.of_nat (length (times ++ [last])) = failure_threshold (circuitBreakerConfig p) ->
  now - last > recovery_timeout (circuitBreakerConfig p) ->
  let p1 := reportFailures peer (times ++ [last]) p in
  let p2 := (isCircuitBreakerOpen peer now p1).2 in
  let p3 := reportSuccesses peer [s1; s2; s3] p2 in
  state <$> circuitBreaker p1 !! peer = Some OPEN /\
  (isCircuitBreakerOpen peer now p1).1 = false /\
  state <$> circuitBreaker p2 !! peer = Some HALF_OPEN /\
  state <$> circuitBreaker (reportSuccesses peer [s1] p2) !! peer = Some HALF_OPEN /\
  state <$> circuitBreaker (reportSuccesses peer [s1; s2] p2) !! peer = Some HALF_OPEN /\
  circuitBreaker p3 !! peer = Some (mkBreaker CLOSED 0 last 0).
Proof.
  intros Hen Hb Hclosed Hf Hlen Hnow p1 p2 p3.
  destruct (reportFailures_lookup peer (times ++ [last]) p b Hen Hb) as [Hcfg Hl].
  destruct (recordFailure_last (circuitBreakerConfig p) times last b Hf Hlen) as [f Hopen].
  rewrite Hopen in Hl. fold p1 in Hcfg, Hl.
  assert (isCircuitBreakerOpen peer now p1
          = (false, with_breakers p1
                      (<[peer := mkBreaker HALF_OPEN f last 0]> (circuitBreaker p1))))
    as Hadmit.
  { unfold isCircuitBreakerOpen. rewrite Hcfg, Hen, Hl.
    cbn [negb state last_failure_time failures].
    rewrite decide_True by done. by rewrite decide_True by lia. }
  assert (enabled (circuitBreakerConfig p2) = true) as Hen2.
  { subst p2. rewrite Hadmit. cbn [snd with_breakers circuitBreakerConfig].
    by rewrite Hcfg. }
  assert (circuitBreaker p2 !! peer = Some (mkBreaker HALF_OPEN f last 0)) as Hl2.
  { subst p2. rewrite Hadmit. cbn [snd with_breakers circuitBreaker].
    apply lookup_insert_eq. }
  destruct (updateCircuitBreaker_lookup peer true s1 p2 _ Hen2 Hl2) as [Hc3 Hl3].
  assert (enabled (circuitBreakerConfig (updateCircuitBreaker peer true s1 p2)) = true)
    as Hen3 by by rewrite Hc3.
  destruct (updateCircuitBreaker_lookup peer true s2 _ _ Hen3 Hl3) as [Hc4 Hl4].
  assert (enabled (circuitBreakerConfig
                     (updateCircuitBreaker peer true s2
                        (updateCircuitBreaker peer true s1 p2))) = true)
    as Hen4 by by rewrite Hc4.
  destruct (updateCircuitBreaker_lookup peer true s3 _ _ Hen4 Hl4) as [Hc5 Hl5].
  split_and!.
  - by rewrite Hl.
  - by rewrite Hadmit.
  - by rewrite Hl2.
  - unfold reportSuccesses. cbn [foldl]. by rewrite Hl3.
  - unfold reportSuccesses. cbn [foldl]. by rewrite Hl4.
  - subst p3. unfold reportSuccesses. cbn [foldl]. by rewrite Hl5.
Qed.

Lemma breaker_opens_and_recovers_witness :
  let p := initializeCircuitBreakerForAgent "collector"
             (mk (mkBreakerConfig true 5 30000 60000) (mkRateLimit true 100 60000)
                ∅ ∅ ∅ []) in
  circuitBreaker
    (reportSuccesses "collector" [50001; 50002; 50003]
       (isCircuitBreakerOpen "collector" 50000
          (reportFailures "collector" [1000; 2000; 3000; 4000; 5000] p)).2)
    !! "collector"
  = Some (mkBreaker CLOSED 0 5000 0).
Proof.
  intros p.
  refine (proj2 (proj2 (proj2 (proj2 (proj2
    (breaker_opens_and_recovers p "collector" (mkBreaker CLOSED 0 0 0)
       [1000; 2000; 3000; 4000] 5000 50000 50001 50002 50003 _ _ _ _ _ _)))))).
  - reflexivity.
  - vm_compute; reflexivity.
  - reflexivity.
  - simpl; lia.
  - reflexivity.
  - simpl; lia.
Defined.
End CircuitBreaker.

(** ** The rate limiter *)

Section RateLimiter.
Import Protocol.
Variable clientIp : string.

Lemma rateLimit_other other now p :
  other ≠ clientIp ->
  rate_limit (rateLimitMiddleware other now p).2 = rate_limit p /\
  rateLimiter (rateLimitMiddleware other now p).2 !! clientIp
  = rateLimiter p !! clientIp.
Proof.
  intros Hne. unfold rateLimitMiddleware.
  destruct (decide _); simpl; [done|]. by rewrite lookup_insert_ne.
Qed.

(** The reply to the client depends on the window, the ceiling and the
    timestamps stored for the client, and on nothing else. *)
Lemma rateLimit_same now p p' :
  rate_limit p = rate_limit p' ->
  rateLimiter p !! clientIp = rateLimiter p' !! clientIp ->
  (rateLimitMiddleware clientIp now p).1 = (rateLimitMiddleware clientIp now p').1 /\
  rate_limit (rateLimitMiddleware clientIp now p).2
  = rate_limit (rateLimitMiddleware clientIp now p').2 /\
  rateLimiter (rateLimitMiddleware clientIp now p).2 !! clientIp
  = rateLimiter (rateLimitMiddleware clientIp now p').2 !! clientIp.
Proof.
  intros Hc Hl. unfold rateLimitMiddleware. rewrite Hc, Hl.
  destruct (decide _); simpl; [done|]. by rewrite !lookup_insert_eq.
Qed.

(** The replies to the client in a stream shared with other clients are
    the replies it gets when it is alone. *)
Lemma serve_of_client reqs p p' :
  rate_limit p = rate_limit p' ->
  rateLimiter p !! clientIp = rateLimiter p' !! clientIp ->
  of_client clientIp (serve reqs p).1
  = (serve_client clientIp (of_client clientIp reqs) p').1.*2.
Proof using Type.
  unfold serve_client, of_client.
  revert p p'. induction reqs as [|[ip now] reqs IH]; intros p p' Hc Hl; [done|].
  cbn [serve List.filter fst].
  destruct (rateLimitMiddleware ip now p) as [r p1] eqn:E1.
  destruct (serve reqs p1) as [rs p2] eqn:E2.
  cbn [fst List.filter].
  destruct (decide (ip = clientIp)) as [->|Hne].
  - rewrite !bool_decide_eq_true_2 by done. cbn [fmap list_fmap serve snd].
    destruct (rateLimit_same now p p' Hc Hl) as (Hr & Hc' & Hl').
    rewrite E1 in Hr, Hc', Hl'. simpl in Hr, Hc', Hl'.
    destruct (rateLimitMiddleware clientIp now p') as [r' p1'] eqn:E1'.
    simpl in Hr, Hc', Hl'. subst r'.
    specialize (IH p1 p1' Hc' Hl'). rewrite E2 in IH. simpl in IH.
    destruct (serve _ p1') as [rs' p2'] eqn:E2'. simpl in *. by rewrite IH.
  - rewrite !bool_decide_eq_false_2 by done.
    destruct (rateLimit_other ip now p Hne) as [Hc' Hl'].
    rewrite E1 in Hc', Hl'. simpl in Hc', Hl'.
    specialize (IH p1 p' (eq_trans Hc' Hc) (eq_trans Hl' Hl)).
    by rewrite E2 in IH.
Qed.

Lemma serve_client_app l1 l2 p :
  (serve_client clientIp (l1 ++ l2) p).1
  = (serve_client clientIp l1 p).1
    ++ (serve_client clientIp l2 (serve_client clientIp l1 p).2).1.
Proof using Type.
  unfold serve_client. revert p. induction l1 as [|now l1 IH]; intros p; [done|].
  cbn [fmap list_fmap app serve].
  destruct (rateLimitMiddleware clientIp now p) as [r p1].
  specialize (IH p1).
  destruct (serve ((λ now0 : Z, (clientIp, now0)) <$> l1 ++ l2) p1) as [rs p2].
  destruct (serve ((λ now0 : Z, (clientIp, now0)) <$> l1) p1) as [rs1 p2'].
  simpl in *. by rewrite IH.
Qed.

Lemma filter_window_all (windowStart : Z) l :
  Forall (fun x => windowStart < x) l ->
  List.filter (fun time => time >? windowStart) l = l.
Proof.
  induction 1 as [|x l Hx Hl IH]; simpl; [done|].
  replace (x >? windowStart) with true by lia. by rewrite IH.
Qed.

Lemma filter_window_none (windowStart : Z) l :
  Forall (fun x => x <= windowStart) l ->
  List.filter (fun time => time >? windowStart) l = [].
Proof.
  induction 1 as [|x l Hx Hl IH]; simpl; [done|].
  by replace (x >? windowStart) with false by lia.
Qed.

Lemma filter_window_app (windowStart : Z) (l1 l2 : list Z) :
  List.filter (fun time => time >? windowStart) (l1 ++ l2)
  = List.filter (fun time => time >? windowStart) l1
    ++ List.filter (fun time => time >? windowStart) l2.
Proof. apply List.filter_app. Qed.

Lemma filter_window_oldest (windowStart t0 : Z) ts :
  oldest t0 ts <= windowStart ->
  (length (List.filter (fun time => time >? windowStart) (t0 :: ts))
   < length (t0 :: ts))%nat.
Proof.
  unfold oldest. revert t0. induction ts as [|x ts IH]; intros t0 Hmin; simpl in *.
  - replace (t0 >? windowStart) with false by lia. simpl. lia.
  - destruct (decide (x <= windowStart)) as [Hx|Hx].
    + replace (x >? windowStart) with false by lia.
      pose proof (List.filter_length_le (fun time => time >? windowStart) ts).
      destruct (t0 >? windowStart); simpl; lia.
    + assert (foldr Z.min t0 ts <= windowStart) as Hrest by lia.
      specialize (IH t0 Hrest).
      replace (x >? windowStart) with true by lia.
      destruct (t0 >? windowStart); simpl in *; lia.
Qed.

Section Window.
Variables (b : Z) (p0 : t).
Local Abbreviation W := (time_window (rate_limit p0)).
Local Abbreviation m := (max_requests (rate_limit p0)).

Lemma rateLimit_admits admitted now p :
  inside clientIp b p0 admitted p -> b <= now < b + W ->
  Z.of_nat (length admitted) < m ->
  (rateLimitMiddleware clientIp now p).1 = Next /\
  inside clientIp b p0 (admitted ++ [now]) (rateLimitMiddleware clientIp now p).2.
Proof using Type.
  intros (Hc & expired & Hst & Hexp & Hadm) Hnow Hlen.
  unfold rateLimitMiddleware. fold (stored clientIp p). rewrite Hst, Hc.
  rewrite filter_window_app, filter_window_none, filter_window_all; cycle 1.
  { eapply Forall_impl; [exact Hadm|]. simpl. intros; lia. }
  { eapply Forall_impl; [exact Hexp|]. simpl. intros; lia. }
  simpl. rewrite decide_False by lia. simpl.
  split; [done|]. split; [done|]. exists []. split_and!.
  - unfold stored. simpl. by rewrite lookup_insert_eq.
  - constructor.
  - apply Forall_app. split; [done|]. by apply Forall_singleton.
Qed.

Lemma rateLimit_rejects admitted now p :
  inside clientIp b p0 admitted p -> b <= now < b + W ->
  Z.of_nat (length admitted) >= m ->
  rateLimitMiddleware clientIp now p
  = (Respond 429 (Some "Rate limit exceeded"), p).
Proof using Type.
  intros (Hc & expired & Hst & Hexp & Hadm) Hnow Hlen.
  unfold rateLimitMiddleware. fold (stored clientIp p). rewrite Hst, Hc.
  rewrite filter_window_app, filter_window_none, filter_window_all; cycle 1.
  { eapply Forall_impl; [exact Hadm|]. simpl. intros; lia. }
  { eapply Forall_impl; [exact Hexp|]. simpl. intros; lia. }
  simpl. by rewrite decide_True by lia.
Qed.

Lemma serve_client_burst todo : forall admitted p,
  inside clientIp b p0 admitted p ->
  Forall (fun x => b <= x < b + W) todo ->
  Z.of_nat (length admitted) + Z.of_nat (length todo) <= m ->
  (serve_client clientIp todo p).1.*2 = replicate (length todo) Next /\
  inside clientIp b p0 (admitted ++ todo) (serve_client clientIp todo p).2.
Proof using Type.
  unfold serve_client.
  induction todo as [|now todo IH]; intros admitted p Hin Htodo Hlen.
  - simpl. by rewrite app_nil_r.
  - apply Forall_cons in Htodo as [Hnow Htodo]. simpl in Hlen.
    destruct (rateLimit_admits admitted now p Hin Hnow) as [Hr Hin']; [lia|].
    cbn [fmap list_fmap serve].
    destruct (rateLimitMiddleware clientIp now p) as [r p1]. simpl in Hr, Hin'.
    subst r.
    destruct (IH (admitted ++ [now]) p1 Hin' Htodo) as [Hrs Hin''].
    { rewrite length_app. simpl. lia. }
    destruct (serve _ p1) as [rs p2]. simpl in *.
    split; [f_equal; exact Hrs | by rewrite <- app_assoc in Hin''].
Qed.
End Window.

(** C8: take any stream of requests in which the client sends
    [max_requests] requests at the times [t0 :: ts], then one at [t] and
    one at [t'], among the requests of other clients.  If the burst and
    [t] lie in one window of length [time_window] (and nothing stored for
    the client before is that recent), the burst is admitted and the
    request at [t] is rejected with status 429; if at [t'] the window has
    slid past the oldest admitted timestamp, the request at [t'] is
    admitted. *)
Theorem rate_limit_window p reqs t0 ts t t' b :
  of_client clientIp reqs = (t0 :: ts) ++ [t; t'] ->
  Z.of_nat (length (t0 :: ts)) = max_requests (rate_limit p) ->
  Forall (fun x => b <= x < b + time_window (rate_limit p)) ((t0 :: ts) ++ [t]) ->
  Forall (fun x => x <= b - time_window (rate_limit p))
    (default [] (rateLimiter p !! clientIp)) ->
  oldest t0 ts <= t' - time_window (rate_limit p) ->
  of_client clientIp (serve reqs p).1
  = replicate (length (t0 :: ts)) Next
    ++ [Respond 429 (Some "Rate limit exceeded"); Next].
Proof.
  intros Hreqs Hlen Hwin Hold Hslide.
  rewrite (serve_of_client reqs p p eq_refl eq_refl), Hreqs.
  apply Forall_app in Hwin as [Hburst Ht]. rewrite Forall_singleton in Ht.
  assert (rate_limit p = rate_limit p /\
          exists expired,
            stored clientIp p = expired ++ [] /\
            Forall (fun x => x <= b - time_window (rate_limit p)) expired /\
            Forall (fun x => b <= x < b + time_window (rate_limit p)) []) as Hin.
  { split; [done|]. exists (stored clientIp p). rewrite app_nil_r. by split_and!. }
  destruct (serve_client_burst b p (t0 :: ts) [] p Hin Hburst) as [Hrs Hin'].
  { simpl length in *. lia. }
  rewrite serve_client_app, fmap_app, Hrs. f_equal.
  set (p1 := (serve_client clientIp (t0 :: ts) p).2) in *.
  rewrite app_nil_l in Hin'.
  assert (rateLimitMiddleware clientIp t p1
          = (Respond 429 (Some "Rate limit exceeded"), p1)) as Hrej.
  { apply (rateLimit_rejects b p (t0 :: ts)); [done | done | lia]. }
  unfold serve_client. cbn [fmap list_fmap serve]. rewrite Hrej.
  destruct Hin' as (Hc & expired & Hst & Hexp & Hadm).
  assert ((rateLimitMiddleware clientIp t' p1).1 = Next) as Hadmit.
  { unfold rateLimitMiddleware. fold (stored clientIp p1). rewrite Hst, Hc.
    rewrite filter_window_app.
    rewrite (filter_window_none _ expired).
    - pose proof (filter_window_oldest (t' - time_window (rate_limit p)) t0 ts Hslide).
      simpl app. rewrite decide_False; [done|]. simpl length in *. lia.
    - eapply Forall_impl; [exact Hexp|]. simpl. intros x Hx.
      assert (oldest t0 ts ∈ t0 :: ts) as Hmem.
      { clear. unfold oldest. induction ts as [|x ts IH]; simpl; [by left|].
        destruct (Z.min_spec x (foldr Z.min t0 ts)) as [[_ ->]|[_ ->]].
        - right; by left.
        - apply elem_of_cons in IH as [->|IH]; [by left | by right; right]. }
      rewrite Forall_forall in Hburst. specialize (Hburst _ Hmem). lia. }
  destruct (rateLimitMiddleware clientIp t' p1) as [r p2]. simpl in Hadmit. by subst r.
Qed.
End RateLimiter.

Section RateLimiterExample.
Import Protocol.

Lemma rate_limit_window_witness :
  of_client "10.0.0.1" (serve Sample.requests Sample.protocol).1
  = [Next; Next; Next; Respond 429 (Some "Rate limit exceeded"); Next].
Proof.
  refine (rate_limit_window "10.0.0.1" Sample.protocol Sample.requests
            1000 [2000; 3000] 4000 61000 1000 _ _ _ _ _).
  - vm_compute; reflexivity.
  - reflexivity.
  - repeat constructor; simpl; lia.
  - vm_compute; constructor.
  - vm_compute; discriminate.
Defined.
End RateLimiterExample.

(** ** Validation of inbound messages *)

Section Validation.
Import Protocol.

(** The single-message endpoint keeps its part of C9: a message whose
    timestamp is more than 300000 ms away from the time of receipt is
    answered with status 400, and the protocol state, the list of
    dispatched messages included, is unchanged. *)
Lemma postMessage_stale_rejected now message p ts :
  timestamp message = Some ts ->
  Z.abs (now - ts) > 300000 ->
  exists err, postMessage now message p = (Respond 400 (Some err), p).
Proof.
  intros Hts Hstale. unfold postMessage, validateMessage.
  destruct (first_missing message) as [field|]; [by eexists|].
  destruct (negb _); [by eexists|].
  rewrite Hts. simpl. rewrite decide_True by done. by eexists.
Qed.

(** C9 at the failing input: a message stamped 1000 that arrives at time
    601001, more than five minutes later, is rejected with status 400 on
    the single-message endpoint, but as the one entry of a batch it passes
    [validateBatchMessages], is handed to the handler of its action and is
    reported as a success. *)
Theorem batch_entry_stale_dispatched :
  Z.abs (601001 - 1000) > 300000 /\
  postMessage 601001 Sample.ping Sample.protocol
  = (Respond 400 (Some "Message timestamp too old or too new"), Sample.protocol) /\
  validateBatchMessages [Sample.ping] = Next /\
  (postBatch 601001 [Sample.ping] Sample.protocol).1
  = (Respond 200 None, [(true, None)]) /\
  dispatched (postBatch 601001 [Sample.ping] Sample.protocol).2 = [Sample.ping].
Proof. split_and!; vm_compute; reflexivity. Qed.
End Validation.

(** ** The service registry *)

Section Registry.
Import ServiceRegistry.

Lemma generateServiceId_inj name host port now now' :
  generateServiceId name host port now = generateServiceId name host port now' ->
  now = now'.
Proof.
  unfold generateServiceId. intros H.
  do 6 apply (inj (String.app _)) in H.
  by apply (inj pretty) in H.
Qed.

(** C4 at the failing input: the collector registered at time 1000 and
    again, with the same name, host and port, at time 2000 gets a new id;
    the entry of the first registration is still in the registry, which now
    holds two entries for the one instance, and both calls emit
    [service_registered].  The lookup of [existingService] that [register]
    makes for the purpose finds an entry only when the second call comes at
    time 1000 as well: then the entry is replaced and [service_updated] is
    emitted. *)
Theorem register_again_keeps_old_entry :
  let r1 := (register Sample.collector 1000 (mk ∅ [])).2 in
  let r2 := (register Sample.collector 2000 r1).2 in
  let r2' := (register Sample.collector 1000 r1).2 in
  (register Sample.collector 1000 (mk ∅ [])).1 = "collector-localhost-3001-1000" /\
  (register Sample.collector 2000 r1).1 = "collector-localhost-3001-2000" /\
  is_Some (services r1 !! "collector-localhost-3001-1000") /\
  services r2 !! "collector-localhost-3001-1000"
  = services r1 !! "collector-localhost-3001-1000" /\
  size (services r2) = 2%nat /\
  event_log r2
  = [("service_registered", "collector-localhost-3001-1000");
     ("service_registered", "collector-localhost-3001-2000")] /\
  size (services r2') = 1%nat /\
  event_log r2'
  = [("service_registered", "collector-localhost-3001-1000");
     ("service_updated", "collector-localhost-3001-1000")].
Proof.
  intros r1 r2 r2'. split_and!; try (vm_compute; reflexivity).
  vm_compute. by eexists.
Qed.

(** The two paths of [register] for an instance that is in the registry
    under the id made from its name, host, port and the time [t0] of its
    registration: at a time [now] other than [t0] the call makes an entry
    under a new id and leaves the old entry as it was; at [now = t0] the id
    is the old one, the entry is replaced and [service_updated] is
    emitted. *)
Lemma register_again r old service t0 now :
  services r !! generateServiceId (name service) (host service) (port service) t0
  = Some old ->
  let oid := generateServiceId (name service) (host service) (port service) t0 in
  let nid := (register service now r).1 in
  let r' := (register service now r).2 in
  nid = generateServiceId (name service) (host service) (port service) now /\
  (exists inst, services r' !! nid = Some inst /\ id inst = nid /\
     name inst = name service /\ host inst = host service /\
     port inst = port service /\ status inst = healthy /\
     registered_at inst = now /\ last_heartbeat inst = now) /\
  (now ≠ t0 -> nid ≠ oid /\ services r' !! oid = Some old) /\
  (now = t0 ->
   nid = oid /\ dom (services r') = dom (services r) /\
   exists inst, events r' = events r ++ [service_updated inst]).
Proof.
  intros Hold oid nid r'. subst oid nid r'. unfold register. simpl.
  split_and!.
  - done.
  - eexists. split; [apply lookup_insert_eq | done].
  - intros Hne.
    assert (generateServiceId (name service) (host service) (port service) now
            ≠ generateServiceId (name service) (host service) (port service) t0)
      as Hid by (intros H; by apply generateServiceId_inj in H).
    split; [done|]. by rewrite lookup_insert_ne.
  - intros ->. split; [done|]. rewrite Hold. split; [|by eexists].
    rewrite dom_insert_L.
    assert (generateServiceId (name service) (host service) (port service) t0
            ∈ dom (services r)) by (apply elem_of_dom; eauto).
    set_solver.
Qed.

Lemma register_again_example :
  (register Sample.collector 2000 (register Sample.collector 1000 (mk ∅ [])).2).1
  ≠ "collector-localhost-3001-1000" /\
  is_Some
    (services
       (register Sample.collector 2000 (register Sample.collector 1000 (mk ∅ [])).2).2
     !! "collector-localhost-3001-1000").
Proof.
  destruct (register_again (register Sample.collector 1000 (mk ∅ [])).2
              (mkInstance "collector-localhost-3001-1000" "collector" "collector"
                 "localhost" 3001 healthy ["rss"] [] 1000 1000 None None [])
              Sample.collector 1000 2000) as (_ & _ & Hnew & _).
  - vm_compute; reflexivity.
  - destruct Hnew as [Hne Hkept]; [discriminate|].
    split; [exact Hne | by eexists].
Defined.
End Registry.


(** * Part III: further properties of the code *)

(** ** Sizes of the insertion-ordered map *)

Section JsMapSizes.
Context {V : Type}.
Implicit Types (m : JsMap V) (k : string) (v : V).

Lemma jsmap_size_set_notin k v m :
  k ∉ JsMap.keys m -> JsMap.size (JsMap.set k v m) = JsMap.size m + 1.
Proof.
  intros Hn. rewrite jsmap_set_notin by done. unfold JsMap.size.
  rewrite length_app. simpl. lia.
Qed.

Lemma jsmap_size_set_in k v m :
  k ∈ JsMap.keys m -> JsMap.size (JsMap.set k v m) = JsMap.size m.
Proof.
  intros Hin. apply (jsmap_keys_set_in k v m) in Hin.
  unfold JsMap.size, JsMap.keys in *.
  apply (f_equal length) in Hin. rewrite !length_fmap in Hin. lia.
Qed.

Lemma jsmap_size_set_le k v m : JsMap.size (JsMap.set k v m) <= JsMap.size m + 1.
Proof.
  destruct (decide (k ∈ JsMap.keys m)).
  - rewrite jsmap_size_set_in by done. lia.
  - rewrite jsmap_size_set_notin by done. lia.
Qed.

Lemma jsmap_size_del_le k m : JsMap.size (JsMap.del k m) <= JsMap.size m.
Proof.
  unfold JsMap.size. induction m as [|[k' v'] m IH]; simpl; [lia|].
  destruct (decide (k' = k)); simpl; lia.
Qed.

Lemma jsmap_size_del_in k m :
  NoDup (JsMap.keys m) -> k ∈ JsMap.keys m ->
  JsMap.size (JsMap.del k m) + 1 = JsMap.size m.
Proof.
  unfold JsMap.size, JsMap.keys. induction m as [|[k' v'] m IH]; simpl.
  - intros _ H. by apply elem_of_nil in H.
  - rewrite NoDup_cons, elem_of_cons. intros [Hk Hm] Hin.
    destruct (decide (k' = k)) as [->|Hne]; simpl.
    + rewrite (jsmap_del_notin k m Hk). lia.
    + destruct Hin as [->|Hin]; [done|]. specialize (IH Hm Hin). lia.
Qed.
End JsMapSizes.

(** ** The task queue: the ceiling and the number of tasks *)

Section TaskQueueCounts.
Import TaskQueue.

(** What [failTask] keeps for any id, [checkTimeouts] keeps. *)
Lemma failAll_preserves (P : t -> Prop) now :
  (forall taskId q, P q -> P (state_of (failTask taskId "Task timeout" now q))) ->
  forall l q, P q -> P (state_of (failAll l now q)).
Proof.
  intros Hstep l. induction l as [|taskId l IH]; intros q Hq; simpl; [done|].
  pose proof (Hstep taskId q Hq) as Hq'.
  destruct (failTask taskId "Task timeout" now q) as [[] q'|msg q']; simpl in *;
    [by apply IH | done].
Qed.

Lemma within_ceiling_apply q op :
  JsMap.size (processing q) <= max_concurrent_tasks (config q) ->
  config (apply q op) = config q /\
  JsMap.size (processing (apply q op)) <= max_concurrent_tasks (config q).
Proof.
  intros Hle. destruct op; unfold apply.
  - done.
  - unfold dequeue. destruct (queue q) as [|head rest]; [done|].
    destruct (decide _) as [|Hlt]; [done|]. simpl. split; [done|].
    pose proof (jsmap_size_set_le (id head)
      (set_updated_at now
         (set_assigned_at (Some now)
            (set_assigned_agent agentId (set_status ASSIGNED head))))
      (processing q)). simpl in *. lia.
  - unfold startTask. destruct (JsMap.get taskId (processing q)) as [task|] eqn:Eg;
      [|done]. simpl. split; [done|].
    rewrite jsmap_size_set_in by (by eapply jsmap_get_Some_key). done.
  - unfold completeTask. destruct (JsMap.get taskId (processing q)); [|done].
    simpl. split; [done|]. pose proof (jsmap_size_del_le taskId (processing q)). lia.
  - unfold failTask. destruct (JsMap.get taskId (processing q)); [|done].
    pose proof (jsmap_size_del_le taskId (processing q)).
    destruct (decide _); simpl; (split; [done | lia]).
  - unfold cancelTask. destruct (splice_id taskId (queue q)) as [[task rest]|]; [done|].
    destruct (JsMap.get taskId (processing q)); [|done].
    simpl. split; [done|]. pose proof (jsmap_size_del_le taskId (processing q)). lia.
  - unfold checkTimeouts.
    apply (failAll_preserves
             (fun q' => config q' = config q /\
                        JsMap.size (processing q') <= max_concurrent_tasks (config q)));
      [|done].
    intros taskId q' [Hc Hq']. unfold failTask.
    destruct (JsMap.get taskId (processing q')); [|done].
    pose proof (jsmap_size_del_le taskId (processing q')).
    destruct (decide _); simpl; (split; [done | lia]).
  - done.
Qed.

(** X1: in every state the operations reach from a queue made with a
    non-negative [max_concurrent_tasks], the configuration is the one the
    queue was made with and the processing map holds at most
    [max_concurrent_tasks] tasks. *)
Theorem processing_within_ceiling cfg q :
  0 <= max_concurrent_tasks cfg ->
  reachable cfg q ->
  config q = cfg /\
  in_processing (getQueueStatus q) <= max_concurrent (getQueueStatus q).
Proof.
  intros Hmax. unfold reachable. induction 1 as [|q op Hq [Hc IH] _]; [done|].
  simpl in *. destruct (within_ceiling_apply q op IH) as [Hc' Hle].
  rewrite Hc'. by split.
Qed.

Lemma processing_within_ceiling_witness :
  JsMap.size (processing (run Sample.two_ops (new Sample.cfg))) <= 2.
Proof.
  refine (proj2 (processing_within_ceiling Sample.cfg
                   (run Sample.two_ops (new Sample.cfg)) _ _)).
  - simpl; lia.
  - apply reachable_by_run; [apply reach_new | by_evaluation].
Defined.

Lemma total_to_completed taskId task q :
  wf q -> taskId ∈ JsMap.keys (processing q) ->
  total (mk (queue q) (JsMap.del taskId (processing q))
           (JsMap.set taskId task (completed q)) (config q)) = total q.
Proof.
  intros [Hd _] Hin.
  apply disjoint_stores_iff in Hd as (_ & Hp & _ & _ & _ & Hpc).
  unfold total. simpl.
  rewrite jsmap_size_set_notin by by apply Hpc.
  pose proof (jsmap_size_del_in taskId (processing q) Hp Hin). lia.
Qed.

Lemma total_failTask taskId err now q :
  wf q -> total (state_of (failTask taskId err now q)) = total q.
Proof.
  intros Hwf. unfold failTask.
  destruct (JsMap.get taskId (processing q)) as [task|] eqn:Eg; [|done].
  pose proof (jsmap_get_Some_key _ _ _ Eg) as Hin.
  destruct (decide _); simpl; [by apply total_to_completed|].
  destruct Hwf as [Hd _].
  apply disjoint_stores_iff in Hd as (_ & Hp & _).
  unfold total. simpl. rewrite length_app. simpl.
  pose proof (jsmap_size_del_in taskId (processing q) Hp Hin). lia.
Qed.

Lemma total_apply q op :
  wf q -> (forall now, op ≠ OpCleanup now) ->
  total (apply q op) = total q + enqueued op.
Proof.
  intros Hwf Hop. destruct op; unfold apply; simpl enqueued.
  - unfold total. simpl. rewrite sort_by_priority_perm, length_app. simpl. lia.
  - unfold dequeue. destruct (queue q) as [|head rest] eqn:Eq; [cbn [state_of]; lia|].
    destruct (decide _); [cbn [state_of]; lia|].
    destruct Hwf as [Hd _].
    apply disjoint_stores_iff in Hd as (_ & _ & _ & Hqp & _).
    unfold total. simpl. rewrite Eq. simpl.
    rewrite jsmap_size_set_notin; [cbn [state_of]; lia|].
    apply Hqp. rewrite Eq. simpl. apply list_elem_of_here.
  - unfold startTask. destruct (JsMap.get taskId (processing q)) as [task|] eqn:Eg;
      [|cbn [state_of]; lia]. unfold total. simpl.
    rewrite jsmap_size_set_in by (by eapply jsmap_get_Some_key). lia.
  - unfold completeTask.
    destruct (JsMap.get taskId (processing q)) as [task|] eqn:Eg; [|cbn [state_of]; lia]. simpl.
    rewrite total_to_completed; [lia | done | by eapply jsmap_get_Some_key].
  - rewrite total_failTask by done. lia.
  - unfold cancelTask.
    destruct (splice_id taskId (queue q)) as [[task rest]|] eqn:Es.
    + apply splice_id_Some in Es as [Hid Hperm].
      destruct Hwf as [Hd _].
      apply disjoint_stores_iff in Hd as (_ & _ & _ & _ & Hqc & _).
      unfold total. simpl. rewrite Hperm. simpl.
      rewrite jsmap_size_set_notin; [cbn [state_of]; lia|].
      apply Hqc. rewrite Hperm. simpl. rewrite Hid. apply list_elem_of_here.
    + destruct (JsMap.get taskId (processing q)) as [task|] eqn:Eg; [|cbn [state_of]; lia]. simpl.
      rewrite total_to_completed; [lia | done | by eapply jsmap_get_Some_key].
  - unfold checkTimeouts.
    destruct (failAll_preserves (fun q' => wf q' /\ total q' = total q) now) with
      (l := (List.filter (timedOut now) (processing q)).*1) (q := q) as [_ Ht];
      [|done|lia].
    intros taskId q' [Hwf' Ht]. split; [by apply wf_failTask|].
    by rewrite total_failTask.
  - by destruct (Hop now).
Qed.

Lemma total_cleanup now q : total (state_of (cleanup now q)) <= total q.
Proof.
  unfold cleanup, total. simpl.
  generalize (List.filter
    (fun e : string * Task =>
       match completed_at e.2 with
       | Some c => (c <? now - task_retention_days (config q) * 24 * 60 * 60 * 1000)%Z
       | None => false
       end) (completed q)).
  intros l. assert (forall m : JsMap Task,
    JsMap.size (foldl (fun m (e : string * Task) => JsMap.del e.1 m) m l)
    <= JsMap.size m) as Hle.
  { induction l as [|e l IH]; intros m; simpl; [lia|].
    pose proof (IH (JsMap.del e.1 m)). pose proof (jsmap_size_del_le e.1 m). lia. }
  specialize (Hle (completed q)). lia.
Qed.

(** X2: in a reachable state no call loses or duplicates a task: the number
    of tasks in the three stores, as [getQueueStatus] counts them, goes up
    by one with [enqueue], is unchanged by every other call, and only
    [cleanup] can lower it. *)
Theorem no_task_lost cfg q op :
  reachable cfg q ->
  ((forall now, op ≠ OpCleanup now) -> total (apply q op) = total q + enqueued op) /\
  (forall now, op = OpCleanup now -> total (apply q op) <= total q).
Proof.
  intros Hq. pose proof (reachable_wf _ _ Hq) as Hwf. split.
  - intros Hop. by apply total_apply.
  - intros now ->. apply total_cleanup.
Qed.

Lemma no_task_lost_witness :
  total (apply (run Sample.two_ops (new Sample.cfg)) (OpFailTask "t2" "boom" 1004))
  = total (run Sample.two_ops (new Sample.cfg)) + 0.
Proof.
  refine (proj1 (no_task_lost Sample.cfg (run Sample.two_ops (new Sample.cfg))
                   (OpFailTask "t2" "boom" 1004) _) _).
  - apply reachable_by_run; [apply reach_new | by_evaluation].
  - discriminate.
Defined.
End TaskQueueCounts.

(** ** The task queue: the order of the pending collection *)

Section TaskQueueOrder.
Import TaskQueue.

#[local] Instance goes_before_trans : Transitive goes_before.
Proof. intros a b c. unfold goes_before. lia. Qed.

#[local] Instance without_retry_dec q op : Decision (without_retry q op).
Proof. unfold without_retry. destruct op; apply _. Defined.

Lemma sort_insert_head y l :
  match l with
  | [] => True
  | z :: _ => priority z <= priority y
  end ->
  sort_insert y l = y :: l.
Proof.
  destruct l as [|z l]; simpl; [done|]. intros Hz. by rewrite decide_False by lia.
Qed.

(** On an ordered collection the sort of [enqueue] is one insertion: behind
    the tasks of the same or a higher priority, ahead of the others. *)
Lemma sort_by_priority_snoc x l :
  Sorted (fun a b => priority b <= priority a) l ->
  exists ahead behind,
    l = ahead ++ behind /\
    Forall (fun y => priority x <= priority y) ahead /\
    Forall (fun y => priority y < priority x) behind /\
    sort_by_priority (l ++ [x]) = ahead ++ x :: behind.
Proof.
  unfold sort_by_priority. rewrite foldr_app. simpl.
  induction 1 as [|y l Hl IH Hy].
  - exists [], []. by split_and!.
  - destruct IH as (ahead & behind & -> & Ha & Hb & Hsort).
    simpl. rewrite Hsort.
    destruct (decide (priority x <= priority y)) as [Hxy|Hxy].
    + exists (y :: ahead), behind. split_and!; try done; [by constructor|].
      simpl. f_equal. apply sort_insert_head.
      destruct ahead as [|z ahead]; simpl; [done|]. by inversion Hy.
    + assert (ahead = []) as ->.
      { destruct ahead as [|z ahead]; [done|]. exfalso.
        apply Forall_cons in Ha as [Hz _]. inversion Hy; subst. lia. }
      exists [], (y :: behind). simpl in *.
      split_and!; try done; [constructor; [lia | done]|].
      rewrite decide_True by lia. f_equal. apply sort_insert_head.
      destruct behind as [|z behind]; [done|]. by inversion Hy.
Qed.

(** X3: when the pending collection is in priority order, [enqueue] puts
    the new task behind every pending task of the same or a higher priority
    and ahead of every pending task of a lower priority, and moves no other
    task. *)
Theorem enqueue_position task uuid now q :
  Sorted (fun a b => priority b <= priority a) (queue q) ->
  exists ahead newTask behind,
    enqueue task uuid now q
    = Ok newTask (mk (ahead ++ newTask :: behind) (processing q) (completed q) (config q)) /\
    queue q = ahead ++ behind /\
    id newTask = uuid /\ priority newTask = in_priority task /\
    created_at newTask = now /\
    Forall (fun other => in_priority task <= priority other) ahead /\
    Forall (fun other => priority other < in_priority task) behind.
Proof.
  intros Hsorted. unfold enqueue.
  set (newTask := mkTask uuid _ _ _ _ _ _ _ _ _ _ _ _ _ _ _ _ _ _).
  destruct (sort_by_priority_snoc newTask (queue q) Hsorted)
    as (ahead & behind & Hq & Ha & Hb & Hsort).
  exists ahead, newTask, behind. rewrite Hsort. by split_and!.
Qed.

Lemma enqueue_position_witness :
  (fun task => id task)
    <$> queue (state_of (enqueue (Sample.input "collect_news" 2 3) "new" 2000
                           Sample.ordered_queue))
  = ["a"; "b"; "c"; "new"; "d"].
Proof.
  destruct (enqueue_position (Sample.input "collect_news" 2 3) "new" 2000
              Sample.ordered_queue) as (ahead & newTask & behind & He & _).
  - repeat constructor; simpl; lia.
  - vm_compute. reflexivity.
Defined.

Lemma splice_id_split taskId l x r :
  splice_id taskId l = Some (x, r) ->
  exists l1 l2, l = l1 ++ x :: l2 /\ r = l1 ++ l2.
Proof.
  revert x r. induction l as [|y l IH]; simpl; intros x r; [done|].
  destruct (decide (id y = taskId)).
  - intros [= -> ->]. by exists [], r.
  - destruct (splice_id taskId l) as [[z r']|]; [|done].
    intros [= -> <-]. destruct (IH _ _ eq_refl) as (l1 & l2 & -> & ->).
    by exists (y :: l1), l2.
Qed.

Lemma goes_before_sorted l :
  StronglySorted goes_before l -> Sorted (fun a b => priority b <= priority a) l.
Proof.
  intros Hl. apply StronglySorted_Sorted in Hl.
  induction Hl as [|y l Hl IH Hy]; constructor; [done|].
  destruct Hy as [|z l' Hz]; constructor. unfold goes_before in Hz. lia.
Qed.

Lemma ordered_apply q op :
  without_retry q op ->
  StronglySorted goes_before (queue q) ->
  StronglySorted goes_before (queue (apply q op)).
Proof.
  intros [_ Hop] Hq. destruct op; unfold apply; try done.
  - unfold enqueue.
    set (newTask := mkTask uuid _ _ _ _ _ _ _ _ _ _ _ _ _ _ _ _ _ _).
    destruct (sort_by_priority_snoc newTask (queue q) (goes_before_sorted _ Hq))
      as (ahead & behind & Heq & Ha & Hb & ->).
    assert (created_at newTask = now) as Hnow by done.
    clearbody newTask. simpl. rewrite Heq in Hq, Hop.
    apply StronglySorted_app in Hq as (Hab & Hsa & Hsb).
    apply Forall_app in Hop as [Hca Hcb].
    rewrite Forall_forall in Ha, Hb, Hca.
    apply StronglySorted_app. split_and!; [|done|].
    + intros x1 x2 Hx1 [->|Hx2]%elem_of_cons; [|by apply Hab].
      specialize (Ha _ Hx1). specialize (Hca _ Hx1). unfold goes_before. lia.
    + apply StronglySorted_cons. split; [|done].
      apply Forall_forall. intros x2 Hx2. specialize (Hb _ Hx2).
      unfold goes_before. lia.
  - unfold dequeue. destruct (queue q) as [|head rest] eqn:Eq; [simpl; by rewrite Eq|].
    destruct (decide _); [simpl; by rewrite Eq|].
    simpl. by apply StronglySorted_inv in Hq as [Hq _].
  - unfold startTask. by destruct (JsMap.get taskId (processing q)).
  - unfold completeTask. by destruct (JsMap.get taskId (processing q)).
  - unfold cancelTask.
    destruct (splice_id taskId (queue q)) as [[task rest]|] eqn:Es.
    + apply splice_id_split in Es as (l1 & l2 & Hl & ->). rewrite Hl in Hq. simpl.
      apply StronglySorted_app in Hq as (Hab & Hsa & Hsb).
      apply StronglySorted_cons in Hsb as [_ Hsb].
      apply StronglySorted_app. split_and!; [|done|done].
      intros x1 x2 Hx1 Hx2. apply Hab; [done | by right].
    + by destruct (JsMap.get taskId (processing q)).
Qed.
Lemma without_retry_ordered cfg q :
  reachable_by without_retry cfg q -> StronglySorted goes_before (queue q).
Proof.
  induction 1 as [|q op Hq IH Hop]; [constructor | by apply ordered_apply].
Qed.

(** X4: in a state reached without a retry ([failTask], [checkTimeouts])
    and with [enqueue] times that do not run backwards, the task [dequeue]
    returns goes before every task left pending: none of them has a higher
    priority, and those of the same priority were created no earlier. *)
Theorem dequeue_order_without_retry cfg q agentId now task q' :
  reachable_by without_retry cfg q ->
  dequeue agentId now q = Ok (Some task) q' ->
  Forall (goes_before task) (queue q').
Proof.
  intros Hq. apply without_retry_ordered in Hq. unfold dequeue.
  destruct (queue q) as [|head rest]; [done|].
  destruct (decide _); [done|]. intros [= <- <-]. simpl.
  by apply StronglySorted_inv in Hq as [_ Hhead].
Qed.

Lemma dequeue_order_without_retry_witness :
  Forall (goes_before (Sample.pending_task "t1" "collect_news" 2 3 1000))
    [Sample.pending_task "t3" "collect_news" 2 3 1001;
     Sample.pending_task "t4" "cleanup_data" 1 3 1002].
Proof.
  assert (reachable_by without_retry Sample.cfg (run Sample.ordered_ops (new Sample.cfg)))
    as Hr by (apply reachable_by_run; [apply reach_new | by_evaluation]).
  exact (dequeue_order_without_retry Sample.cfg _ (Some "collector-1") 1004 _ _ Hr
           eq_refl).
Defined.
End TaskQueueOrder.

(** ** The task queue: the two sweeps *)

Section TaskQueueSweeps.
Import TaskQueue.

Lemma foldl_del_cons {V} (k : string) (v : V) (l : list string) : forall m,
  k ∉ l ->
  foldl (fun m i => JsMap.del i m) ((k, v) :: m) l
  = (k, v) :: foldl (fun m i => JsMap.del i m) m l.
Proof.
  induction l as [|i l IH]; intros m Hk; simpl; [done|].
  apply not_elem_of_cons in Hk as [Hne Hk].
  rewrite decide_False by done. by apply IH.
Qed.

(** Deleting the keys of the entries a test selects leaves the entries it
    does not select, in their order. *)
Lemma foldl_del_filter {V} (f : string * V -> bool) (m : JsMap V) :
  NoDup (JsMap.keys m) ->
  foldl (fun m i => JsMap.del i m) m (List.filter f m).*1
  = List.filter (fun e => negb (f e)) m.
Proof.
  unfold JsMap.keys. induction m as [|[k v] m IH]; simpl; [done|].
  rewrite NoDup_cons. intros [Hk Hm].
  destruct (f (k, v)); simpl.
  - rewrite decide_True by done. rewrite (jsmap_del_notin k m Hk). by apply IH.
  - rewrite foldl_del_cons; [by rewrite IH|].
    intros Hin. apply Hk. apply list_elem_of_fmap in Hin as (e & -> & He).
    apply list_elem_of_In, List.filter_In in He as [He _].
    apply list_elem_of_fmap. exists e. split; [done | by apply list_elem_of_In].
Qed.

Lemma filter_keys_NoDup {V} (f : string * V -> bool) (m : JsMap V) :
  NoDup (JsMap.keys m) -> NoDup (List.filter f m).*1.
Proof.
  unfold JsMap.keys. induction m as [|[k v] m IH]; simpl; [done|].
  rewrite NoDup_cons. intros [Hk Hm]. destruct (f (k, v)); simpl; [|by apply IH].
  apply NoDup_cons. split; [|by apply IH].
  intros Hin. apply Hk. apply list_elem_of_fmap in Hin as (e & -> & He).
  apply list_elem_of_In, List.filter_In in He as [He _].
  apply list_elem_of_fmap. exists e. split; [done | by apply list_elem_of_In].
Qed.

Lemma failTask_settles taskId err now q task :
  keyed (processing q) ->
  JsMap.get taskId (processing q) = Some task ->
  exists q',
    failTask taskId err now q = Ok tt q' /\
    processing q' = JsMap.del taskId (processing q) /\
    settled taskId q' /\
    (forall i, settled i q -> settled i q').
Proof.
  intros Hk Hg. pose proof (keyed_get _ _ _ Hk Hg) as Hid.
  unfold failTask. rewrite Hg. destruct (decide _); eexists; (split; [done|]); simpl.
  - split; [done|]. unfold settled. simpl. split.
    + right. apply jsmap_elem_of_keys_set. by left.
    + intros i [Hi|Hi]; [by left|]. right. apply jsmap_elem_of_keys_set. by right.
  - split; [done|]. unfold settled. simpl. rewrite fmap_app. split.
    + left. apply elem_of_app. right. simpl. rewrite Hid. apply list_elem_of_here.
    + intros i [Hi|Hi]; [left | by right]. apply elem_of_app. by left.
Qed.

Lemma failAll_settles now l : forall q,
  keyed (processing q) -> NoDup (JsMap.keys (processing q)) ->
  NoDup l -> (forall i, i ∈ l -> i ∈ JsMap.keys (processing q)) ->
  exists q',
    failAll l now q = Ok tt q' /\
    processing q' = foldl (fun m i => JsMap.del i m) (processing q) l /\
    (forall i, i ∈ l -> settled i q') /\
    (forall i, settled i q -> settled i q').
Proof.
  induction l as [|taskId l IH]; intros q Hk Hnd Hl Hin; simpl.
  - exists q. split_and!; try done. intros i Hi. by apply elem_of_nil in Hi.
  - apply NoDup_cons in Hl as [Hhead Hl].
    assert (taskId ∈ JsMap.keys (processing q)) as Hkey by (apply Hin; left).
    destruct (JsMap.get taskId (processing q)) as [task|] eqn:Eg;
      [|by apply jsmap_get_None in Eg].
    destruct (failTask_settles taskId "Task timeout" now q task Hk Eg)
      as (q1 & -> & Hp1 & Hs1 & Hmono1).
    destruct (IH q1) as (q2 & -> & Hp2 & Hs2 & Hmono2).
    + rewrite Hp1. by apply jsmap_Forall_del.
    + rewrite Hp1. by apply jsmap_NoDup_del.
    + done.
    + intros i Hi. rewrite Hp1. apply jsmap_elem_of_keys_del. split.
      * intros ->. done.
      * apply Hin. by right.
    + exists q2. split_and!; try done.
      * by rewrite Hp2, Hp1.
      * intros i [->|Hi]%elem_of_cons; [by apply Hmono2 | by apply Hs2].
      * intros i Hi. by apply Hmono2, Hmono1.
Qed.

(** X5: in a reachable state [checkTimeouts] raises nothing; it leaves in
    the processing map exactly the tasks that have no [started_at] or whose
    [now - started_at] does not exceed their [timeout], in their order, and
    every task it takes out is afterwards pending again or in the completed
    store. *)
Theorem checkTimeouts_sweeps cfg q now :
  reachable cfg q ->
  exists q',
    checkTimeouts now q = Ok tt q' /\
    processing q' = List.filter (fun e => negb (timedOut now e)) (processing q) /\
    (forall e, e ∈ processing q -> timedOut now e = true -> settled e.1 q').
Proof.
  intros Hq. destruct (reachable_wf _ _ Hq) as [Hd Hk].
  apply disjoint_stores_iff in Hd as (_ & Hp & _).
  destruct (failAll_settles now (List.filter (timedOut now) (processing q)).*1 q Hk Hp)
    as (q' & He & Hp' & Hs & _).
  - by apply filter_keys_NoDup.
  - intros i (e & -> & He)%list_elem_of_fmap.
    apply list_elem_of_In, List.filter_In in He as [He _].
    apply list_elem_of_fmap. exists e. split; [done | by apply list_elem_of_In].
  - exists q'. split_and!; [done | |].
    + rewrite Hp'. by apply foldl_del_filter.
    + intros e Hmem Ht. apply Hs. apply list_elem_of_fmap. exists e. split; [done|].
      apply list_elem_of_In, List.filter_In. split; [by apply list_elem_of_In | done].
Qed.

Lemma checkTimeouts_sweeps_witness :
  processing (state_of (checkTimeouts 40000 (run Sample.two_ops (new Sample.cfg)))) = [].
Proof.
  destruct (checkTimeouts_sweeps Sample.cfg (run Sample.two_ops (new Sample.cfg)) 40000)
    as (q' & He & Hp & _).
  - apply reachable_by_run; [apply reach_new | by_evaluation].
  - rewrite He. simpl. rewrite Hp. vm_compute. reflexivity.
Defined.

(** X6: in a reachable state [cleanup] removes from the completed store
    exactly the entries whose [completed_at] lies before
    [now - task_retention_days] days, keeps the others in their order, an
    entry without [completed_at] included, and leaves the pending collection
    and the processing map alone. *)
Theorem cleanup_sweeps cfg q now :
  reachable cfg q ->
  cleanup now q
  = Ok tt (mk (queue q) (processing q)
             (List.filter (fun e => negb (expired now q e)) (completed q)) (config q)).
Proof.
  intros Hq. destruct (reachable_wf _ _ Hq) as [Hd _].
  apply disjoint_stores_iff in Hd as (_ & _ & Hc & _).
  unfold cleanup. do 2 f_equal.
  rewrite <- (foldl_del_filter (expired now q) (completed q) Hc).
  by rewrite foldl_fmap.
Qed.

Lemma cleanup_sweeps_witness :
  completed (state_of (cleanup (1003 + 8 * 86400000)
                         (run Sample.agent_ops (new Sample.cfg)))) = [].
Proof.
  rewrite (cleanup_sweeps Sample.cfg (run Sample.agent_ops (new Sample.cfg))).
  - vm_compute. reflexivity.
  - apply reachable_by_run; [apply reach_new | by_evaluation].
Defined.
End TaskQueueSweeps.

(** ** The task queue: lookups and the completed store *)

Section TaskQueueLookup.
Import TaskQueue.

Lemma keyed_completed_failTask taskId err now q :
  keyed (processing q) -> keyed (completed q) ->
  keyed (completed (state_of (failTask taskId err now q))).
Proof.
  intros Hp Hc. unfold failTask.
  destruct (JsMap.get taskId (processing q)) as [task|] eqn:Eg; [|done].
  pose proof (keyed_get _ _ _ Hp Eg) as Hid.
  destruct (decide _); simpl; [|done]. by apply jsmap_Forall_set.
Qed.

Lemma keyed_completed_apply q op :
  wf q -> keyed (completed q) -> keyed (completed (apply q op)).
Proof.
  intros Hwf Hc. pose proof Hwf as [_ Hp]. destruct op; unfold apply; try done.
  - unfold dequeue. destruct (queue q); [done|]. by destruct (decide _).
  - unfold startTask. by destruct (JsMap.get taskId (processing q)).
  - unfold completeTask.
    destruct (JsMap.get taskId (processing q)) as [task|] eqn:Eg; [|done].
    pose proof (keyed_get _ _ _ Hp Eg) as Hid. simpl. by apply jsmap_Forall_set.
  - by apply keyed_completed_failTask.
  - unfold cancelTask.
    destruct (splice_id taskId (queue q)) as [[task rest]|] eqn:Es.
    + apply splice_id_Some in Es as [Hid _]. simpl. by apply jsmap_Forall_set.
    + destruct (JsMap.get taskId (processing q)) as [task|] eqn:Eg; [|done].
      pose proof (keyed_get _ _ _ Hp Eg) as Hid. simpl. by apply jsmap_Forall_set.
  - unfold checkTimeouts.
    apply (failAll_preserves (fun q' => wf q' /\ keyed (completed q')) now); [|done].
    intros taskId q' [Hwf' Hc']. split; [by apply wf_failTask|].
    apply keyed_completed_failTask; [by destruct Hwf' | done].
  - unfold cleanup. simpl.
    generalize (List.filter
      (fun e : string * Task =>
         match completed_at e.2 with
         | Some c => (c <? now - task_retention_days (config q) * 24 * 60 * 60 * 1000)%Z
         | None => false
         end) (completed q)).
    intros l. revert Hc. generalize (completed q).
    induction l as [|e l IH]; intros m Hm; simpl; [done|].
    by apply IH, jsmap_Forall_del.
Qed.

Lemma reachable_keyed_completed cfg q : reachable cfg q -> keyed (completed q).
Proof.
  unfold reachable. induction 1 as [|q op Hq IH Hop]; [by apply Forall_nil_2|].
  apply keyed_completed_apply; [by eapply reachable_wf | done].
Qed.

Lemma find_id_None taskId (l : list Task) :
  List.find (fun x => bool_decide (id x = taskId)) l = None <-> taskId ∉ id <$> l.
Proof.
  induction l as [|x l IH]; simpl.
  - split; [intros _; apply not_elem_of_nil | done].
  - rewrite not_elem_of_cons. destruct (decide (id x = taskId)) as [Hx|Hx].
    + rewrite bool_decide_eq_true_2 by done. split; [done | intros [? _]; done].
    + rewrite bool_decide_eq_false_2 by done. rewrite IH. naive_solver.
Qed.

Lemma find_id_Some taskId (l : list Task) x :
  List.find (fun x => bool_decide (id x = taskId)) l = Some x ->
  id x = taskId /\ x ∈ l.
Proof.
  intros [Hin Hx]%List.find_some. apply bool_decide_eq_true in Hx.
  split; [done | by apply list_elem_of_In].
Qed.

(** X7: in a reachable state [getTask] answers for exactly the ids the
    three stores hold: it returns nothing if and only if no store has the
    id, and a task it returns has the id asked for and is one of the tasks
    of the queue. *)
Theorem getTask_finds cfg q taskId :
  reachable cfg q ->
  (getTask taskId q = None <-> taskId ∉ ids q) /\
  (forall task, getTask taskId q = Some task -> id task = taskId /\ task ∈ tasks q).
Proof.
  intros Hq. destruct (reachable_wf _ _ Hq) as [_ Hp].
  pose proof (reachable_keyed_completed _ _ Hq) as Hc.
  unfold getTask, ids. rewrite !not_elem_of_app. split.
  - destruct (List.find _ (queue q)) as [x|] eqn:Ef.
    + apply find_id_Some in Ef as [Hid Hin]. split; [done|].
      intros [Hn _]. exfalso. apply Hn. rewrite <- Hid. by apply list_elem_of_fmap_2.
    + apply find_id_None in Ef.
      destruct (JsMap.get taskId (processing q)) as [x|] eqn:Egp.
      * split; [done|]. intros (_ & Hn & _). apply jsmap_get_None in Hn. congruence.
      * apply jsmap_get_None in Egp. rewrite jsmap_get_None. naive_solver.
  - intros task. rewrite elem_of_tasks.
    destruct (List.find _ (queue q)) as [x|] eqn:Ef.
    + intros [= ->]. apply find_id_Some in Ef as [Hid Hin]. split; [done | by left].
    + destruct (JsMap.get taskId (processing q)) as [x|] eqn:Egp.
      * intros [= ->]. split; [exact (keyed_get _ _ _ Hp Egp)|].
        right; left. exists taskId. by apply jsmap_get_Some.
      * intros Egc. split; [exact (keyed_get _ _ _ Hc Egc)|].
        right; right. exists taskId. by apply jsmap_get_Some.
Qed.

Lemma getTask_finds_witness :
  getTask "t9" (run Sample.two_ops (new Sample.cfg)) = None.
Proof.
  assert (reachable Sample.cfg (run Sample.two_ops (new Sample.cfg))) as Hr
    by (apply reachable_by_run; [apply reach_new | by_evaluation]).
  apply (proj1 (getTask_finds Sample.cfg (run Sample.two_ops (new Sample.cfg)) "t9" Hr)).
  by_evaluation.
Defined.

Lemma completed_kept_failTask taskId err now q k task :
  wf q -> JsMap.get k (completed q) = Some task ->
  JsMap.get k (completed (state_of (failTask taskId err now q))) = Some task.
Proof.
  intros [Hd _] Hg. unfold failTask.
  destruct (JsMap.get taskId (processing q)) as [t|] eqn:Eg; [|done].
  destruct (decide _); simpl; [|done].
  rewrite jsmap_get_set_ne; [done|]. intros ->.
  apply disjoint_stores_iff in Hd as (_ & _ & _ & _ & _ & Hpc).
  by apply (Hpc k); eapply jsmap_get_Some_key.
Qed.

(** X8: a task in the completed store stays there as it is: in a reachable
    state no call other than [cleanup] removes or changes an entry of the
    completed store. *)
Theorem completed_is_final cfg q op taskId task :
  reachable cfg q ->
  (forall now, op ≠ OpCleanup now) ->
  JsMap.get taskId (completed q) = Some task ->
  JsMap.get taskId (completed (apply q op)) = Some task.
Proof.
  intros Hq Hop Hg. pose proof (reachable_wf _ _ Hq) as Hwf.
  pose proof Hwf as [Hd _].
  apply disjoint_stores_iff in Hd as (_ & _ & _ & _ & Hqc & Hpc).
  pose proof (jsmap_get_Some_key _ _ _ Hg) as Hin.
  destruct op; unfold apply; try done.
  - unfold dequeue. destruct (queue q); [done|]. by destruct (decide _).
  - unfold startTask. by destruct (JsMap.get taskId0 (processing q)).
  - unfold completeTask.
    destruct (JsMap.get taskId0 (processing q)) as [t|] eqn:Eg; [|done]. simpl.
    rewrite jsmap_get_set_ne; [done|]. intros ->.
    by apply (Hpc taskId); eapply jsmap_get_Some_key.
  - by apply completed_kept_failTask.
  - unfold cancelTask.
    destruct (splice_id taskId0 (queue q)) as [[t rest]|] eqn:Es.
    + apply splice_id_Some in Es as [Hid Hperm]. simpl.
      rewrite jsmap_get_set_ne; [done|]. intros ->.
      apply (Hqc taskId); [|done]. rewrite Hperm. simpl. rewrite Hid.
      apply list_elem_of_here.
    + destruct (JsMap.get taskId0 (processing q)) as [t|] eqn:Eg; [|done]. simpl.
      rewrite jsmap_get_set_ne; [done|]. intros ->.
      by apply (Hpc taskId); eapply jsmap_get_Some_key.
  - unfold checkTimeouts.
    apply (failAll_preserves
             (fun q' => wf q' /\ JsMap.get taskId (completed q') = Some task) now);
      [|done].
    intros k q' [Hwf' Hg']. split; [by apply wf_failTask|].
    by apply completed_kept_failTask.
  - by destruct (Hop now).
Qed.

Lemma completed_is_final_witness :
  is_Some (JsMap.get "t1" (completed
    (apply (run Sample.agent_ops (new Sample.cfg))
       (OpEnqueue (Sample.input "detect_risks" 3 3) "t2" 1004)))).
Proof.
  eexists.
  refine (completed_is_final Sample.cfg (run Sample.agent_ops (new Sample.cfg))
            (OpEnqueue (Sample.input "detect_risks" 3 3) "t2" 1004) "t1" _ _ _ _).
  - apply reachable_by_run; [apply reach_new | by_evaluation].
  - discriminate.
  - vm_compute. reflexivity.
Defined.
End TaskQueueLookup.

(** ** The load balancer *)

Section LoadBalancerFacts.
Import LoadBalancer.

Lemma pickLowest_first lb rest : forall bestAgent,
  exists l1 l2,
    bestAgent :: rest
    = l1 ++ pickLowest lb bestAgent (loadOf lb bestAgent) rest :: l2 /\
    Forall (fun b => loadOf lb (pickLowest lb bestAgent (loadOf lb bestAgent) rest)
                     < loadOf lb b) l1 /\
    Forall (fun b => loadOf lb (pickLowest lb bestAgent (loadOf lb bestAgent) rest)
                     <= loadOf lb b) l2.
Proof.
  induction rest as [|a rest IH]; intros bestAgent; simpl.
  - exists [], []. by split_and!.
  - destruct (decide (loadOf lb a < loadOf lb bestAgent)) as [Hlt|Hge].
    + destruct (IH a) as (l1 & l2 & Heq & H1 & H2).
      set (r := pickLowest lb a (loadOf lb a) rest) in *. clearbody r.
      assert (loadOf lb r <= loadOf lb a) as Hra.
      { destruct l1 as [|x l1]; simpl in Heq; injection Heq as <- _; [lia|].
        apply Forall_cons in H1 as [H1 _]. lia. }
      exists (bestAgent :: l1), l2. split_and!; [by rewrite Heq | | done].
      constructor; [lia | done].
    + destruct (IH bestAgent) as (l1 & l2 & Heq & H1 & H2).
      set (r := pickLowest lb bestAgent (loadOf lb bestAgent) rest) in *.
      clearbody r.
      destruct l1 as [|x l1]; simpl in Heq; injection Heq as Hx Hrest.
      * subst r rest. exists [], (a :: l2). simpl.
        split_and!; [done | done |]. constructor; [lia | done].
      * subst x rest. apply Forall_cons in H1 as [Hb H1].
        exists (bestAgent :: a :: l1), l2. simpl.
        split_and!; [done | | done]. constructor; [done|]. constructor; [lia | done].
Qed.

Lemma selectBestAgent_none lb candidateAgents :
  selectBestAgent candidateAgents lb = None <->
  Forall (fun a => ~ eligible lb a) candidateAgents.
Proof.
  unfold selectBestAgent, eligible.
  set (healthy := fun a => negb (bool_decide (agentStatus lb !! a = Some false))).
  assert (forall a, healthy a = true <-> agentStatus lb !! a ≠ Some false) as Hh.
  { intros a. unfold healthy. rewrite negb_true_iff, bool_decide_eq_false. done. }
  destruct (List.filter healthy candidateAgents) as [|first rest] eqn:Ef.
  - split; [intros _ | done]. apply Forall_forall. intros a Ha Helig.
    assert (In a (List.filter healthy candidateAgents)) as Hin.
    { apply List.filter_In. split; [by apply list_elem_of_In | by apply Hh]. }
    by rewrite Ef in Hin.
  - split; [done|]. intros Hall. exfalso.
    assert (In first (List.filter healthy candidateAgents)) as Hin
      by (rewrite Ef; by left).
    apply List.filter_In in Hin as [Hin Hf].
    rewrite Forall_forall in Hall. apply (Hall first); [by apply list_elem_of_In|].
    by apply Hh.
Qed.

(** X9: [selectBestAgent] returns no agent exactly when every candidate is
    recorded as unhealthy; the agent it returns is a candidate that is not
    recorded as unhealthy, no such candidate has a lower recorded load (a
    missing load counting as 0), and among those of the same load it is the
    first in the order of the candidates. *)
Theorem selectBestAgent_lowest lb candidateAgents :
  (selectBestAgent candidateAgents lb = None <->
   Forall (fun a => ~ eligible lb a) candidateAgents) /\
  (forall best, selectBestAgent candidateAgents lb = Some best ->
     best ∈ candidateAgents /\ eligible lb best /\
     (forall other, other ∈ candidateAgents -> eligible lb other ->
        loadOf lb best <= loadOf lb other) /\
     exists l1 l2,
       List.filter (fun a => negb (bool_decide (agentStatus lb !! a = Some false)))
         candidateAgents = l1 ++ best :: l2 /\
       Forall (fun b => loadOf lb best < loadOf lb b) l1).
Proof.
  split; [apply selectBestAgent_none|].
  unfold selectBestAgent, eligible.
  set (healthy := fun a => negb (bool_decide (agentStatus lb !! a = Some false))).
  assert (forall a, healthy a = true <-> agentStatus lb !! a ≠ Some false) as Hh.
  { intros a. unfold healthy. rewrite negb_true_iff, bool_decide_eq_false. done. }
  - intros best. destruct (List.filter healthy candidateAgents) as [|first rest] eqn:Ef;
      [done|]. intros [= <-].
    destruct (pickLowest_first lb rest first) as (l1 & l2 & Heq & H1 & H2).
    set (best := pickLowest lb first (loadOf lb first) rest) in *.
    assert (forall a, a ∈ first :: rest <-> a ∈ candidateAgents /\ eligible lb a) as Hmem.
    { intros a. rewrite <- Ef, list_elem_of_In, List.filter_In, <- list_elem_of_In.
      unfold eligible. by rewrite Hh. }
    assert (best ∈ first :: rest) as Hbest.
    { rewrite Heq. apply elem_of_app. right. apply list_elem_of_here. }
    apply Hmem in Hbest as [Hc He]. split_and!; try done.
    + intros other Ho Hel. assert (other ∈ l1 ++ best :: l2) as Hin
        by (rewrite <- Heq; by apply Hmem).
      rewrite Forall_forall in H1, H2.
      apply elem_of_app in Hin as [Hin|[->|Hin]%elem_of_cons].
      * specialize (H1 _ Hin). lia.
      * lia.
      * by apply H2.
    + by exists l1, l2.
Qed.

Lemma selectBestAgent_lowest_witness :
  selectBestAgent ["collector"; "processor"; "analyzer"] Sample.balancer
  = Some "analyzer" /\
  loadOf Sample.balancer "analyzer" <= loadOf Sample.balancer "processor".
Proof.
  assert (selectBestAgent ["collector"; "processor"; "analyzer"] Sample.balancer
          = Some "analyzer") as Hsel by (vm_compute; reflexivity).
  split; [exact Hsel|].
  destruct (proj2 (selectBestAgent_lowest Sample.balancer
                     ["collector"; "processor"; "analyzer"]) "analyzer" Hsel)
    as (_ & _ & Hlow & _).
  apply Hlow.
  - apply (bool_decide_unpack _). vm_compute. exact I.
  - vm_compute. discriminate.
Defined.

End LoadBalancerFacts.

(** ** The router and the priority manager *)

Section RouterFacts.
Import TaskRouter TaskPriorityManager.

(** X10: for the task types and subtypes listed in [routeBySubtype]
    ("collect_news" with "rss", "web" or "api", and so on) [routeTask] names
    the agent whatever the routing table holds: also after [removeRoute] of
    the type, when [canAgentHandleTask] answers false for that agent. *)
Theorem routeTask_subtype_overrides_table routeTable task taskType sub agent :
  (taskType, sub, agent) ∈ subtype_routes ->
  type task = taskType -> subtype task = Some sub ->
  routeTask routeTable task = [agent] /\
  routeTask (removeRoute taskType routeTable) task = [agent] /\
  canAgentHandleTask (removeRoute taskType routeTable) agent taskType = false.
Proof.
  intros Hin Hty Hsub.
  assert (forall rt, routeTask rt task = [agent]) as Hroute.
  { intros rt. unfold routeTask. rewrite Hty, Hsub.
    unfold subtype_routes in Hin.
    repeat (apply elem_of_cons in Hin as [[= -> -> ->]|Hin]; [reflexivity|]).
    by apply elem_of_nil in Hin. }
  split_and!; [apply Hroute | apply Hroute |].
  unfold canAgentHandleTask, removeRoute. by rewrite lookup_delete_eq.
Qed.

Lemma routeTask_subtype_overrides_table_witness :
  routeTask (removeRoute "collect_news" initializeRoutes)
    (mkTask "t1" "collect_news" (Some "rss") 2 PENDING "{}" None None 1000 1000
       None None None None 0 3 30000 [] [])
  = ["collector"].
Proof.
  refine (proj1 (proj2 (routeTask_subtype_overrides_table initializeRoutes
    (mkTask "t1" "collect_news" (Some "rss") 2 PENDING "{}" None None 1000 1000
       None None None None 0 3 30000 [] [])
    "collect_news" "rss" "collector" _ eq_refl eq_refl))).
  by_evaluation.
Defined.

Lemma calculatePriority_bounds task : LOW <= calculatePriority task <= CRITICAL.
Proof.
  unfold calculatePriority, LOW, NORMAL, HIGH, CRITICAL.
  destruct (bool_decide (p_type task = Some "detect_risks"));
    destruct (has_tag "urgent" task); destruct (has_tag "low-priority" task);
    destruct (p_timeout task) as [timeout|];
    try destruct (bool_decide (timeout ≠ 0 /\ timeout < 30000)); lia.
Qed.

(** X11: [calculatePriority] returns a priority between LOW and CRITICAL,
    for a task of type "detect_risks" at least NORMAL, whatever the tags and
    the timeout. *)
Theorem calculatePriority_range task :
  LOW <= calculatePriority task <= CRITICAL /\
  (p_type task = Some "detect_risks" -> NORMAL <= calculatePriority task).
Proof.
  split; [apply calculatePriority_bounds|]. intros Hty.
  unfold calculatePriority, LOW, NORMAL, HIGH, CRITICAL.
  rewrite bool_decide_eq_true_2 by done.
  destruct (has_tag "urgent" task); destruct (has_tag "low-priority" task);
    destruct (p_timeout task) as [timeout|];
    try destruct (bool_decide (timeout ≠ 0 /\ timeout < 30000)); lia.
Qed.

(** X12: [compareTasks] is the comparator of the order "higher priority
    first, then earlier creation": it is negative or zero exactly when the
    first task goes before the second, zero exactly when priority and
    creation time agree, and swapping the arguments flips its sign. *)
Theorem compareTasks_order taskA taskB :
  (compareTasks taskA taskB <= 0 <-> TaskQueue.goes_before taskA taskB) /\
  (compareTasks taskA taskB = 0 <->
   priority taskA = priority taskB /\ created_at taskA = created_at taskB) /\
  compareTasks taskB taskA = - compareTasks taskA taskB.
Proof.
  unfold compareTasks, TaskQueue.goes_before.
  destruct (decide (priority taskA = priority taskB)) as [He|Hne].
  - rewrite !bool_decide_eq_false_2 by (intros H; apply H; lia). lia.
  - rewrite !bool_decide_eq_true_2 by (intros H; apply Hne; lia). lia.
Qed.
End RouterFacts.

(** ** The scheduler: a tick *)

Section SchedulerTick.
Import TaskScheduler.

Lemma jsmap_set_set {V} k (v v' : V) m :
  JsMap.set k v (JsMap.set k v' m) = JsMap.set k v m.
Proof.
  induction m as [|[k1 v1] m IH]; simpl.
  - by rewrite decide_True.
  - destruct (decide (k1 = k)) as [->|Hne]; simpl.
    + by rewrite decide_True.
    + rewrite decide_False by done. by rewrite IH.
Qed.

(** A run of quiet calls keeps the stores well formed, the number of tasks
    and reachability. *)
Lemma run_quiet cfg ops : forall q,
  Forall TaskQueue.quiet ops ->
  TaskQueue.reachable cfg q ->
  TaskQueue.reachable cfg (TaskQueue.run ops q) /\
  TaskQueue.total (TaskQueue.run ops q) = TaskQueue.total q.
Proof.
  induction ops as [|op ops IH]; intros q Hops Hq; simpl; [done|].
  apply Forall_cons in Hops as [Hop Hops].
  assert (TaskQueue.reachable cfg (TaskQueue.apply q op)) as Hq'.
  { apply TaskQueue.reach_step; [done|]. by destruct op. }
  destruct (IH _ Hops Hq') as [Hr Ht]. split; [done|].
  rewrite Ht, total_apply; [by destruct op; simpl; try lia | by eapply reachable_wf |].
  intros now ->. done.
Qed.

(** The queue after [scheduleNextTask] is the queue after a [dequeue],
    possibly followed by a [startTask] or a [failTask]. *)
Lemma scheduleNextTask_ops now s :
  exists ops,
    Forall TaskQueue.quiet ops /\
    taskQueue (scheduleNextTask now s) = TaskQueue.run ops (taskQueue s) /\
    routeTable (scheduleNextTask now s) = routeTable s.
Proof.
  unfold scheduleNextTask.
  destruct (TaskQueue.dequeue None now (taskQueue s)) as [[task|] q|msg q] eqn:Ed.
  - assert (q = TaskQueue.apply (taskQueue s) (TaskQueue.OpDequeue None now)) as ->
      by (simpl; by rewrite Ed).
    destruct (TaskRouter.routeTask (routeTable s) task) as [|a capable] eqn:Er.
    + exists [TaskQueue.OpDequeue None now;
              TaskQueue.OpFailTask (id task) "No capable agents available" now].
      split_and!; [by repeat constructor | done | done].
    + destruct (LoadBalancer.selectBestAgent (a :: capable) (loadBalancer s))
        as [selectedAgent|];
        [destruct (decide (selectedAgent = "")) as [Hempty|Hagent]|];
        [exists [TaskQueue.OpDequeue None now;
                 TaskQueue.OpFailTask (id task) "No healthy agents available" now];
         split_and!; [by repeat constructor | done | done] | |].
      * unfold assignTaskToAgent. simpl.
        destruct (TaskQueue.startTask (id task) now _) as [[] q'|msg q'] eqn:Es.
        -- exists [TaskQueue.OpDequeue None now; TaskQueue.OpStartTask (id task) now].
           split_and!; [by repeat constructor | | done]. simpl.
           simpl in Es. by rewrite Es.
        -- exists [TaskQueue.OpDequeue None now; TaskQueue.OpStartTask (id task) now;
                   TaskQueue.OpFailTask (id task)
                     ("Assignment failed: Error: " +:+ msg) now].
           split_and!; [by repeat constructor | | done]. simpl.
           simpl in Es. by rewrite Es.
      * exists [TaskQueue.OpDequeue None now;
                TaskQueue.OpFailTask (id task) "No healthy agents available" now].
        split_and!; [by repeat constructor | done | done].
  - exists [TaskQueue.OpDequeue None now].
    split_and!; [by repeat constructor | | done]. simpl. by rewrite Ed.
  - exists [TaskQueue.OpDequeue None now].
    split_and!; [by repeat constructor | | done]. simpl. by rewrite Ed.
Qed.

Lemma scheduleNextTask_keeps cfg now s :
  TaskQueue.reachable cfg (taskQueue s) ->
  TaskQueue.reachable cfg (taskQueue (scheduleNextTask now s)) /\
  TaskQueue.total (taskQueue (scheduleNextTask now s)) = TaskQueue.total (taskQueue s) /\
  routeTable (scheduleNextTask now s) = routeTable s.
Proof.
  intros Hq. destruct (scheduleNextTask_ops now s) as (ops & Hops & -> & Hrt).
  destruct (run_quiet cfg ops _ Hops Hq) as [Hr Ht]. by split_and!.
Qed.

(** X13: a tick of the scheduler works on the queue through the queue's
    own operations only: the queue after [scheduleTasks] is again a
    reachable state, it holds as many tasks as before (a task that cannot be
    routed or assigned is failed, not dropped), and the routing table is
    unchanged. *)
Theorem scheduleTasks_keeps_tasks cfg now s :
  TaskQueue.reachable cfg (taskQueue s) ->
  TaskQueue.reachable cfg (taskQueue (scheduleTasks now s)) /\
  TaskQueue.total (taskQueue (scheduleTasks now s)) = TaskQueue.total (taskQueue s) /\
  routeTable (scheduleTasks now s) = routeTable s.
Proof.
  intros Hq. unfold scheduleTasks. destruct (decide _); [done|].
  generalize (Z.to_nat
    (max_concurrent_tasks (TaskQueue.config (taskQueue s))
     - JsMap.size (TaskQueue.processing (taskQueue s)))).
  intros k. induction k as [|k (Hr & Ht & Hrt)]; simpl; [done|].
  destruct (scheduleNextTask_keeps cfg now _ Hr) as (Hr' & Ht' & Hrt').
  split_and!; [done | by rewrite Ht' | by rewrite Hrt'].
Qed.

Lemma scheduleTasks_keeps_tasks_witness :
  TaskQueue.total (taskQueue (scheduleTasks 2000 Sample.busy)) = 2.
Proof.
  refine (proj1 (proj2 (scheduleTasks_keeps_tasks Sample.cfg 2000 Sample.busy _))).
  apply (reachable_by_run TaskQueue.fresh_uuid Sample.cfg
           [TaskQueue.OpEnqueue (Sample.input "collect_news" 2 3) "t1" 1000;
            TaskQueue.OpEnqueue (Sample.input "detect_risks" 3 3) "t2" 1001]);
    [apply TaskQueue.reach_new | by_evaluation].
Defined.

(** X14: when the pending collection has a head, the processing map has
    room, and [selectBestAgent] finds, among the agents [routeTask] gives for
    the head, one whose id is not the empty string, [scheduleNextTask] moves
    the head to the processing map as RUNNING, with [assigned_at] and
    [started_at] set to the time of the call and no [assigned_agent], and
    raises the recorded load of the selected agent by one. *)
Theorem scheduleNextTask_assigns now s head rest selectedAgent :
  TaskQueue.queue (taskQueue s) = head :: rest ->
  JsMap.size (TaskQueue.processing (taskQueue s))
    < max_concurrent_tasks (TaskQueue.config (taskQueue s)) ->
  LoadBalancer.selectBestAgent (TaskRouter.routeTask (routeTable s) head)
    (loadBalancer s) = Some selectedAgent ->
  selectedAgent ≠ "" ->
  scheduleNextTask now s
  = mk (TaskQueue.mk rest
          (JsMap.set (id head) (TaskQueue.started now head)
             (TaskQueue.processing (taskQueue s)))
          (TaskQueue.completed (taskQueue s)) (TaskQueue.config (taskQueue s)))
       (routeTable s)
       (LoadBalancer.updateAgentLoad selectedAgent
          (LoadBalancer.loadOf (loadBalancer s) selectedAgent + 1) (loadBalancer s)).
Proof.
  intros Hq Hcap Hsel Hagent. unfold scheduleNextTask.
  destruct (taskQueue s) as [qu P C cfg] eqn:Es. simpl in Hq, Hcap. subst qu.
  unfold TaskQueue.dequeue. simpl. rewrite decide_False by lia. simpl.
  change (TaskRouter.routeTask (routeTable s)
            (set_updated_at now
               (set_assigned_at (Some now)
                  (set_assigned_agent None (set_status ASSIGNED head)))))
    with (TaskRouter.routeTask (routeTable s) head).
  destruct (TaskRouter.routeTask (routeTable s) head) as [|a capable] eqn:Er;
    [done|].
  rewrite Hsel. rewrite decide_False by done.
  unfold assignTaskToAgent, TaskQueue.startTask. simpl.
  rewrite jsmap_get_set_eq. simpl. by rewrite jsmap_set_set.
Qed.

Lemma scheduleNextTask_assigns_witness :
  (fun e : string * Task => (e.1, status e.2, assigned_agent e.2))
    <$> TaskQueue.processing (taskQueue (scheduleNextTask 2000 Sample.busy))
  = [("t2", RUNNING, None)] /\
  LoadBalancer.loadOf (loadBalancer (scheduleNextTask 2000 Sample.busy)) "analyzer" = 1.
Proof.
  rewrite (scheduleNextTask_assigns 2000 Sample.busy
             (Sample.pending_task "t2" "detect_risks" 3 3 1001)
             [Sample.pending_task "t1" "collect_news" 2 3 1000] "analyzer").
  - split; vm_compute; reflexivity.
  - vm_compute; reflexivity.
  - reflexivity.
  - vm_compute; reflexivity.
  - discriminate.
Defined.

(** X15: when the head's type has a route but every capable agent is
    recorded as unhealthy, [scheduleNextTask] fails the head through
    [failTask] with "No healthy agents available": it is re-inserted behind
    the other pending tasks with [retry_count] one higher, or FAILED once
    that count reaches [max_retries]; the load balancer is unchanged. *)
Theorem scheduleNextTask_no_healthy_agent now s head rest :
  TaskQueue.queue (taskQueue s) = head :: rest ->
  JsMap.size (TaskQueue.processing (taskQueue s))
    < max_concurrent_tasks (TaskQueue.config (taskQueue s)) ->
  TaskRouter.routeTask (routeTable s) head ≠ [] ->
  Forall (fun a => LoadBalancer.agentStatus (loadBalancer s) !! a = Some false)
    (TaskRouter.routeTask (routeTable s) head) ->
  scheduleNextTask now s
  = with_queue s
      (if decide (retry_count head + 1 >= max_retries head)
       then TaskQueue.mk rest
              (JsMap.del (id head) (TaskQueue.processing (taskQueue s)))
              (JsMap.set (id head)
                 (TaskQueue.exhausted None "No healthy agents available" now head)
                 (TaskQueue.completed (taskQueue s)))
              (TaskQueue.config (taskQueue s))
       else TaskQueue.mk
              (rest ++ [TaskQueue.retried "No healthy agents available" now head])
              (JsMap.del (id head) (TaskQueue.processing (taskQueue s)))
              (TaskQueue.completed (taskQueue s))
              (TaskQueue.config (taskQueue s))).
Proof.
  intros Hq Hcap Hroute Hall.
  pose proof (dequeue_failTask_head None "No healthy agents available" now head rest
                (TaskQueue.processing (taskQueue s)) (TaskQueue.completed (taskQueue s))
                (TaskQueue.config (taskQueue s)) Hcap) as Hstep.
  assert (LoadBalancer.selectBestAgent (TaskRouter.routeTask (routeTable s) head)
            (loadBalancer s) = None) as Hnone.
  { apply selectBestAgent_none. eapply Forall_impl; [exact Hall|].
    intros a Ha Hel. by apply Hel. }
  unfold scheduleNextTask.
  destruct (taskQueue s) as [qu P C cfg] eqn:Es. simpl in Hq, Hcap. subst qu.
  unfold TaskQueue.dequeue in *. simpl in *.
  rewrite decide_False in * by lia. simpl in *.
  change (TaskRouter.routeTask (routeTable s)
            (set_updated_at now
               (set_assigned_at (Some now)
                  (set_assigned_agent None (set_status ASSIGNED head)))))
    with (TaskRouter.routeTask (routeTable s) head).
  destruct (TaskRouter.routeTask (routeTable s) head) as [|a capable] eqn:Er;
    [done|].
  rewrite Hnone. by rewrite Hstep.
Qed.

Lemma scheduleNextTask_no_healthy_agent_witness :
  (fun task => (id task, status task, retry_count task))
    <$> TaskQueue.queue
          (taskQueue
             (scheduleNextTask 2000
                (mk (taskQueue Sample.busy) (routeTable Sample.busy)
                   (LoadBalancer.updateAgentStatus "analyzer" false
                      (loadBalancer Sample.busy)))))
  = [("t1", PENDING, 0); ("t2", PENDING, 1)].
Proof.
  rewrite (scheduleNextTask_no_healthy_agent 2000 _
             (Sample.pending_task "t2" "detect_risks" 3 3 1001)
             [Sample.pending_task "t1" "collect_news" 2 3 1000]).
  - vm_compute; reflexivity.
  - vm_compute; reflexivity.
  - reflexivity.
  - vm_compute; discriminate.
  - vm_compute. repeat constructor.
Defined.


End SchedulerTick.

(** ** Inbound validation: what is accepted *)

Section ValidationFacts.
Import Protocol.

Lemma missing_str_false f : missing_str f = false <-> present f.
Proof.
  unfold missing_str, present. destruct f as [v|].
  - rewrite bool_decide_eq_false. split; [by exists v | by intros (? & [= <-] & ?)].
  - split; [done | by intros (? & ? & _)].
Qed.

Lemma missing_num_false f : missing_num f = false <-> exists ts, f = Some ts /\ ts ≠ 0.
Proof.
  unfold missing_num. destruct f as [v|].
  - rewrite bool_decide_eq_false. split; [by exists v | by intros (? & [= <-] & ?)].
  - split; [done | by intros (? & ? & _)].
Qed.

Lemma first_missing_None message : first_missing message = None <-> complete message.
Proof.
  unfold first_missing, complete.
  rewrite <- !missing_str_false, <- missing_num_false.
  destruct (missing_str (from message)), (missing_str (to message)),
    (missing_str (type message)), (missing_str (action message)),
    (missing_num (timestamp message)), (missing_str (message_id message));
    naive_solver.
Qed.

(** X17: [validateMessage] lets a message through exactly when all six
    required fields are there (none empty, the timestamp not 0), the type is
    "request", "response" or "event", and the timestamp is at most 300000 ms
    away from the time of receipt; every other message is answered with
    status 400. *)
Theorem validateMessage_accepts now message :
  (validateMessage now message = Next <->
   complete message /\ default "" (type message) ∈ MESSAGE_TYPES /\
   Z.abs (now - default 0 (timestamp message)) <= 300000) /\
  (validateMessage now message = Next \/
   exists err, validateMessage now message = Respond 400 (Some err)).
Proof.
  unfold validateMessage. rewrite <- first_missing_None.
  destruct (first_missing message) as [field|].
  { split; [split; [done | by intros [? _]] | right; by eexists]. }
  destruct (decide (default "" (type message) ∈ MESSAGE_TYPES)) as [Hty|Hty].
  - rewrite bool_decide_eq_true_2 by done. simpl.
    destruct (decide (Z.abs _ > 300000)) as [Hts|Hts].
    + split; [split; [done | intros (_ & _ & ?); lia] | right; by eexists].
    + split; [split; [intros _; split_and!; (done || lia) | done] | by left].
  - rewrite bool_decide_eq_false_2 by done. simpl.
    split; [split; [done | by intros (_ & ? & _)] | right; by eexists].
Qed.

Lemma validateEntries_Next i messages :
  validateEntries i messages = Next <-> Forall complete messages.
Proof.
  revert i. induction messages as [|message rest IH]; intros i; simpl.
  - split; [by constructor | done].
  - rewrite Forall_cons, <- first_missing_None.
    destruct (first_missing message); [split; [done | by intros [? _]]|].
    rewrite IH. naive_solver.
Qed.

Lemma validateEntries_first i good bad rest field :
  Forall complete good -> first_missing bad = Some field ->
  validateEntries i (good ++ bad :: rest)
  = Respond 400
      (Some ("Message " +:+ pretty (i + Z.of_nat (length good))
             +:+ " missing required field: " +:+ field)).
Proof.
  intros Hgood Hbad. revert i. induction Hgood as [|message good Hm Hgood IH];
    intros i; simpl.
  - rewrite Hbad. by rewrite Z.add_0_r.
  - apply first_missing_None in Hm. rewrite Hm, IH. by replace (i + 1 + Z.of_nat (length good)) with (i + Z.of_nat (S (length good))) by lia.
Qed.

(** X18: [validateBatchMessages] lets a batch through exactly when it has
    at most 100 entries and every entry has the six required fields (type
    and timestamp are not looked at); a batch of at most 100 entries with an
    incomplete entry is answered with status 400 and the index of its first
    incomplete entry. *)
Theorem validateBatchMessages_accepts messages :
  (validateBatchMessages messages = Next <->
   (length messages <= 100)%nat /\ Forall complete messages) /\
  (forall good bad rest field,
     messages = good ++ bad :: rest -> (length messages <= 100)%nat ->
     Forall complete good -> first_missing bad = Some field ->
     validateBatchMessages messages
     = Respond 400
         (Some ("Message " +:+ pretty (Z.of_nat (length good))
                +:+ " missing required field: " +:+ field))).
Proof.
  unfold validateBatchMessages. split.
  - destruct (decide (Z.of_nat (length messages) > 100)) as [Hlen|Hlen].
    + split; [done | intros [? _]; lia].
    + rewrite validateEntries_Next. split; [intros ?; split; [lia | done] | by intros [_ ?]].
  - intros good bad rest field -> Hlen Hgood Hbad.
    rewrite decide_False by lia. by rewrite (validateEntries_first 0 good bad rest field).
Qed.

Lemma validateBatchMessages_accepts_witness :
  validateBatchMessages [Sample.ping; Sample.ping; Sample.unaddressed]
  = Respond 400 (Some "Message 2 missing required field: to").
Proof.
  refine (proj2 (validateBatchMessages_accepts
                   [Sample.ping; Sample.ping; Sample.unaddressed])
            [Sample.ping; Sample.ping] Sample.unaddressed [] "to" _ _ _ _).
  - reflexivity.
  - simpl. lia.
  - repeat constructor; (by eexists) || (eexists; split; [reflexivity | discriminate]).
  - vm_compute. reflexivity.
Defined.
End ValidationFacts.

(** ** The rate limiter: what it stores *)

Section RateLimiterBound.
Import Protocol.

Lemma rateLimit_within_limit clientIp now p :
  within_limit p ->
  within_limit (rateLimitMiddleware clientIp now p).2 /\
  rate_limit (rateLimitMiddleware clientIp now p).2 = rate_limit p.
Proof.
  intros Hp. unfold rateLimitMiddleware.
  destruct (decide _) as [Hge|Hlt]; simpl; [done|]. split; [|done].
  intros c. unfold stored. simpl.
  destruct (decide (clientIp = c)) as [->|Hne].
  - rewrite lookup_insert_eq. simpl. rewrite length_app. simpl. lia.
  - rewrite lookup_insert_ne by done. apply Hp.
Qed.

(** X19: the rate limiter keeps at most [max_requests] timestamps per
    client: if no client has more stored before a stream of requests, none
    has more after it, whoever sent the requests and whenever; the settings
    are not changed. *)
Theorem rate_limiter_bounded reqs p :
  within_limit p ->
  within_limit (serve reqs p).2 /\ rate_limit (serve reqs p).2 = rate_limit p.
Proof.
  revert p. induction reqs as [|[clientIp now] reqs IH]; intros p Hp; [done|].
  cbn [serve].
  destruct (rateLimit_within_limit clientIp now p Hp) as [Hp1 Hc1].
  destruct (rateLimitMiddleware clientIp now p) as [r p1]. simpl in Hp1, Hc1.
  destruct (IH p1 Hp1) as [Hp2 Hc2].
  destruct (serve reqs p1) as [rs p2]. simpl in *. split; [done | congruence].
Qed.

Lemma rate_limiter_bounded_witness :
  Z.of_nat (length (stored "10.0.0.1" (serve Sample.requests Sample.protocol).2)) <= 3.
Proof.
  refine (proj1 (rate_limiter_bounded Sample.requests Sample.protocol _) "10.0.0.1").
  intros c. unfold stored. simpl. rewrite lookup_empty. simpl. lia.
Defined.
End RateLimiterBound.

(** ** The circuit breaker: the sweep, unknown peers, inbound traffic *)

Section BreakerFacts.
Import Protocol.


Lemma isCircuitBreakerOpen_known peer now p breaker :
  enabled (circuitBreakerConfig p) = true ->
  circuitBreaker p !! peer = Some breaker ->
  isCircuitBreakerOpen peer now p
  = if decide (stale (circuitBreakerConfig p) now breaker)
    then (false,
          with_breakers p
            (<[peer := mkBreaker HALF_OPEN (failures breaker)
                         (last_failure_time breaker) 0]> (circuitBreaker p)))
    else (bool_decide (state breaker = OPEN), p).
Proof.
  intros Hen Hb. unfold isCircuitBreakerOpen, stale. rewrite Hen, Hb. cbn [negb].
  destruct (decide (state breaker = OPEN)) as [Ho|Ho].
  - rewrite (bool_decide_eq_true_2 _ Ho).
    destruct (decide (_ > _)) as [Ht|Ht].
    + by rewrite decide_True.
    + rewrite decide_False; [done | by intros [_ ?]].
  - rewrite (bool_decide_eq_false_2 _ Ho).
    rewrite decide_False; [done | by intros [? _]].
Qed.



Lemma updateCircuitBreaker_unknown peer success now p :
  circuitBreaker p !! peer = None -> updateCircuitBreaker peer success now p = p.
Proof.
  intros Hb. unfold updateCircuitBreaker. destruct (negb _); [done|]. by rewrite Hb.
Qed.

(** X21: a peer without a breaker entry is never tracked: no breaker is
    made on the first report, so any number of failure and success reports
    leaves the protocol state as it is and the admission check keeps
    admitting the peer. *)
Theorem unknown_peer_never_tracked peer (reports : list (bool * Z)) now p :
  circuitBreaker p !! peer = None ->
  foldl (fun p r => updateCircuitBreaker peer r.1 r.2 p) p reports = p /\
  isCircuitBreakerOpen peer now p = (false, p).
Proof.
  intros Hb. split.
  - induction reports as [|[success t] reports IH]; simpl; [done|].
    by rewrite updateCircuitBreaker_unknown.
  - unfold isCircuitBreakerOpen. destruct (negb _); [done|]. by rewrite Hb.
Qed.

Lemma unknown_peer_never_tracked_witness :
  foldl (fun p r => updateCircuitBreaker "stranger" r.1 r.2 p) Sample.protocol
    [(false, 1000); (false, 2000); (false, 3000); (false, 4000); (false, 5000);
     (false, 6000)]
  = Sample.protocol.
Proof.
  refine (proj1 (unknown_peer_never_tracked "stranger" _ 7000 Sample.protocol _)).
  apply lookup_empty.
Defined.

Lemma last_cons_default {A} (a d : A) l : List.last (a :: l) d = List.last l a.
Proof.
  revert a d. induction l as [|x l IH]; intros a d; [done|].
  change (List.last (a :: x :: l) d) with (List.last (x :: l) d).
  by rewrite !IH.
Qed.

Lemma at_once_postMessage now message p :
  postMessageAt (at_once now) message p = postMessage now message p.
Proof. done. Qed.

Lemma at_once_handleBatchMessages now messages p :
  handleBatchMessagesAt ((fun m => (at_once now, m)) <$> messages) p
  = handleBatchMessages now messages p.
Proof.
  revert p. induction messages as [|message messages IH]; intros p; [done|].
  cbn [fmap list_fmap handleBatchMessagesAt handleBatchMessages].
  change (handleBatchEntryAt (at_once now) message p)
    with (handleBatchEntry now message p).
  destruct (handleBatchEntry now message p) as [r p1].
  change (list_fmap _ _ ?f ?l) with (f <$> l). by rewrite IH.
Qed.

Lemma postMessageAt_open peer clock message p b :
  enabled (circuitBreakerConfig p) = true ->
  circuitBreaker p !! peer = Some b -> state b = OPEN ->
  validateMessage (received clock) message = Next ->
  sender message = peer ->
  checked clock - last_failure_time b <= recovery_timeout (circuitBreakerConfig p) ->
  postMessageAt clock message p
  = (Respond 500 (Some ("Circuit breaker is open for agent: " +:+ peer)),
     updateCircuitBreaker peer false (recorded clock) p).
Proof.
  intros Hen Hb Ho Hv Hs Hgap. unfold postMessageAt, handleMessageAt. rewrite Hv, Hs.
  rewrite (isCircuitBreakerOpen_known _ _ _ _ Hen Hb).
  rewrite decide_False by (intros [_ ?]; lia).
  by rewrite (bool_decide_eq_true_2 _ Ho).
Qed.

Lemma updateCircuitBreaker_others peer success now p :
  messageHandlers (updateCircuitBreaker peer success now p) = messageHandlers p /\
  dispatched (updateCircuitBreaker peer success now p) = dispatched p /\
  rateLimiter (updateCircuitBreaker peer success now p) = rateLimiter p /\
  circuitBreakerConfig (updateCircuitBreaker peer success now p) = circuitBreakerConfig p.
Proof.
  unfold updateCircuitBreaker. destruct (negb _); [done|].
  by destruct (circuitBreaker p !! peer).
Qed.

(** X22: on the route [POST /message] ([validateMessage], then
    [handleMessage]) a peer whose breaker is OPEN and that keeps writing
    stays shut out.  A message that fails validation is answered by the
    validator and leaves the breaker alone.  A valid message of the peer
    whose admission check comes no later than [recovery_timeout] after the
    last recorded failure is answered with status 500 without being
    dispatched, and is itself recorded as a failure, which moves
    [last_failure_time] to the time of that recording; so a stream whose
    valid messages come with such gaps is rejected entirely and leaves the
    breaker OPEN. *)
Theorem open_peer_stays_shut peer (msgs : list (Readings * AgentMessage)) p b :
  enabled (circuitBreakerConfig p) = true ->
  circuitBreaker p !! peer = Some b -> state b = OPEN ->
  Forall (fun m => sender m.2 = peer) (List.filter passes msgs) ->
  gaps_within (recovery_timeout (circuitBreakerConfig p)) (last_failure_time b)
    (List.filter passes msgs).*1 ->
  (postMessagesAt msgs p).1 = shut_out peer <$> msgs /\
  dispatched (postMessagesAt msgs p).2 = dispatched p /\
  exists b',
    circuitBreaker (postMessagesAt msgs p).2 !! peer = Some b' /\
    state b' = OPEN /\
    last_failure_time b'
    = List.last (recorded <$> (List.filter passes msgs).*1) (last_failure_time b) /\
    failures b' = failures b + Z.of_nat (length (List.filter passes msgs)).
Proof.
  revert p b. induction msgs as [|[clock message] msgs IH];
    intros p b Hen Hb Ho Hfrom Hgaps.
  { simpl. split_and!; [done..|]. exists b. split_and!; [done..|lia]. }
  cbn [postMessagesAt fmap list_fmap].
  cbn [List.filter] in Hfrom, Hgaps |- *.
  assert (passes (clock, message)
          = match validateMessage (received clock) message with
            | Next => true
            | Respond _ _ => false
            end) as Hp by done.
  assert (shut_out peer (clock, message)
          = match validateMessage (received clock) message with
            | Next => Respond 500 (Some ("Circuit breaker is open for agent: " +:+ peer))
            | reply => reply
            end) as Hshut by done.
  rewrite Hp in Hfrom, Hgaps |- *. rewrite Hshut. clear Hp Hshut.
  destruct (validateMessage (received clock) message) as [|code err] eqn:Ev.
  - apply Forall_cons in Hfrom as [Hs Hfrom]. cbn [fmap list_fmap fst] in Hgaps.
    destruct Hgaps as [Hgap Hgaps]. cbn [snd] in Hs.
    rewrite (postMessageAt_open peer clock message p b Hen Hb Ho Ev Hs Hgap).
    destruct (updateCircuitBreaker_lookup peer false (recorded clock) p b Hen Hb)
      as [Hcfg Hb1].
    destruct (updateCircuitBreaker_others peer false (recorded clock) p)
      as (_ & Hd & _ & _).
    set (p1 := updateCircuitBreaker peer false (recorded clock) p) in *.
    set (b1 := recordFailure (circuitBreakerConfig p) (recorded clock) b) in *.
    assert (state b1 = OPEN /\ last_failure_time b1 = recorded clock /\
            failures b1 = failures b + 1) as (Ho1 & Hl1 & Hf1).
    { unfold b1, recordFailure. by destruct (decide _). }
    destruct (IH p1 b1) as (Hr & Hd2 & b' & Hb' & Ho' & Hl' & Hf');
      [by rewrite Hcfg | done | done | done | by rewrite Hcfg, Hl1 |].
    destruct (postMessagesAt msgs p1) as [rs p2]. cbn [fst snd] in *.
    split_and!; [by rewrite Hr | by rewrite Hd2 | ].
    exists b'. split_and!; [done | done | | rewrite Hf', Hf1; cbn [length]; lia].
    rewrite Hl', Hl1. cbn [fmap list_fmap fst]. symmetry. apply last_cons_default.
  - unfold postMessageAt. rewrite Ev.
    destruct (IH p b) as (Hr & Hd2 & b' & Hb' & Ho' & Hl' & Hf'); [done..|].
    destruct (postMessagesAt msgs p) as [rs p2]. cbn [fst snd] in *.
    split_and!; [by rewrite Hr | done | by exists b'].
Qed.

Lemma open_peer_stays_shut_witness :
  (postMessagesAt
     [(mkReadings 20000 20001 20002, Sample.ping);
      (mkReadings 30000 30001 30002, Sample.unaddressed);
      (mkReadings 45000 45001 45002, Sample.ping);
      (mkReadings 70000 70001 70002, Sample.ping)]
     (reportFailures "collector" [1000; 2000; 3000; 4000; 5000]
        (initializeCircuitBreakerForAgent "collector" Sample.protocol))).1
  = [Respond 500 (Some "Circuit breaker is open for agent: collector");
     Respond 400 (Some "Missing required field: to");
     Respond 500 (Some "Circuit breaker is open for agent: collector");
     Respond 500 (Some "Circuit breaker is open for agent: collector")].
Proof.
  refine (proj1 (open_peer_stays_shut "collector"
                   [(mkReadings 20000 20001 20002, Sample.ping);
                    (mkReadings 30000 30001 30002, Sample.unaddressed);
                    (mkReadings 45000 45001 45002, Sample.ping);
                    (mkReadings 70000 70001 70002, Sample.ping)]
                   (reportFailures "collector" [1000; 2000; 3000; 4000; 5000]
                      (initializeCircuitBreakerForAgent "collector" Sample.protocol))
                   (mkBreaker OPEN 5 5000 0) _ _ _ _ _)).
  - vm_compute. reflexivity.
  - vm_compute. reflexivity.
  - reflexivity.
  - vm_compute. repeat constructor.
  - vm_compute. repeat split; discriminate.
Defined.

(** X23: [sendMessage] to a known agent whose breaker is OPEN throws
    without making the request, and records nothing, as long as the call is
    no later than [recovery_timeout] after the last recorded failure: any
    number of such calls leaves the protocol state as it was, so that,
    unlike inbound traffic, they do not postpone recovery; the first call
    later than that makes the request. *)
Theorem sendMessage_open_refused target port (sends : list (Z * Fetch * Z)) p b :
  AGENT_PORTS !! target = Some port ->
  enabled (circuitBreakerConfig p) = true ->
  circuitBreaker p !! target = Some b -> state b = OPEN ->
  Forall (fun s => s.1.1 - last_failure_time b
                   <= recovery_timeout (circuitBreakerConfig p)) sends ->
  sendMessages target sends p
  = (replicate (length sends)
       (Refused ("Circuit breaker is open for agent: " +:+ target)), p) /\
  (forall now fetch settled,
     now - last_failure_time b > recovery_timeout (circuitBreakerConfig p) ->
     (sendMessage target now fetch settled p).1
     = match fetch with Fetched => Returned | FetchFailed err => Failed err end).
Proof.
  intros Hport Hen Hb Ho Hsends. split.
  - induction Hsends as [|[[now fetch] settled] sends Hgap Hsends IH]; [done|].
    cbn [sendMessages]. unfold sendMessage at 1. rewrite Hport.
    rewrite (isCircuitBreakerOpen_known _ _ _ _ Hen Hb).
    rewrite decide_False by (intros [_ ?]; simpl in Hgap; lia).
    rewrite (bool_decide_eq_true_2 _ Ho). by rewrite IH.
  - intros now fetch settled Hlate. unfold sendMessage. rewrite Hport.
    rewrite (isCircuitBreakerOpen_known _ _ _ _ Hen Hb).
    rewrite decide_True by done. by destruct fetch.
Qed.

Lemma sendMessage_open_refused_witness :
  sendMessages "collector" [(6000, Fetched, 6100); (30000, Fetched, 30100)]
    (reportFailures "collector" [1000; 2000; 3000; 4000; 5000]
       (initializeCircuitBreakerForAgent "collector" Sample.protocol))
  = (replicate 2 (Refused "Circuit breaker is open for agent: collector"),
     reportFailures "collector" [1000; 2000; 3000; 4000; 5000]
       (initializeCircuitBreakerForAgent "collector" Sample.protocol)).
Proof.
  refine (proj1 (sendMessage_open_refused "collector" 3001
                   [(6000, Fetched, 6100); (30000, Fetched, 30100)]
                   (reportFailures "collector" [1000; 2000; 3000; 4000; 5000]
                      (initializeCircuitBreakerForAgent "collector" Sample.protocol))
                   (mkBreaker OPEN 5 5000 0) _ _ _ _ _)).
  - vm_compute. reflexivity.
  - vm_compute. reflexivity.
  - vm_compute. reflexivity.
  - reflexivity.
  - repeat constructor; vm_compute; discriminate.
Defined.

Lemma handleBatchMessagesAt_open peer (entries : list (Readings * AgentMessage)) p b :
  enabled (circuitBreakerConfig p) = true ->
  circuitBreaker p !! peer = Some b -> state b = OPEN ->
  Forall (fun e => sender e.2 = peer /\
                   checked e.1 - last_failure_time b
                   <= recovery_timeout (circuitBreakerConfig p)) entries ->
  handleBatchMessagesAt entries p
  = (replicate (length entries) (false, Some "Circuit breaker is open"), p).
Proof.
  intros Hen Hb Ho Hall.
  induction Hall as [|[clock message] entries [Hs Hgap] Hall IH]; [done|].
  cbn [handleBatchMessagesAt]. unfold handleBatchEntryAt. cbn [fst snd] in Hs, Hgap.
  rewrite Hs. rewrite (isCircuitBreakerOpen_known _ _ _ _ Hen Hb).
  rewrite decide_False by (intros [_ ?]; lia).
  rewrite (bool_decide_eq_true_2 _ Ho). by rewrite IH.
Qed.

Lemma handleBatchEntryAt_throws peer clock message p b :
  enabled (circuitBreakerConfig p) = true ->
  circuitBreaker p !! peer = Some b -> state b ≠ OPEN ->
  sender message = peer -> handler_throws p message ->
  exists err p1,
    handleBatchEntryAt clock message p = ((false, Some err), p1) /\
    circuitBreakerConfig p1 = circuitBreakerConfig p /\
    messageHandlers p1 = messageHandlers p /\
    dispatched p1 = dispatched p ++ [message] /\
    circuitBreaker p1 !! peer
    = Some (recordFailure (circuitBreakerConfig p) (recorded clock) b).
Proof.
  intros Hen Hb Ho Hs (handler & err & Hh & Herr).
  unfold handleBatchEntryAt. rewrite Hs.
  rewrite (isCircuitBreakerOpen_known _ _ _ _ Hen Hb).
  rewrite decide_False by (by intros [? _]).
  rewrite (bool_decide_eq_false_2 _ Ho).
  unfold handleMessageInternal. rewrite Hh, Herr.
  set (pd := with_dispatched p (dispatched p ++ [message])).
  exists err, (updateCircuitBreaker peer false (recorded clock) pd). split; [done|].
  destruct (updateCircuitBreaker_others peer false (recorded clock) pd)
    as (Hm & Hd & _ & Hc).
  destruct (updateCircuitBreaker_lookup peer false (recorded clock) pd b Hen Hb)
    as [_ Hl].
  by rewrite Hm, Hd, Hc, Hl.
Qed.

Lemma served_within_cons d e entries :
  served_within d (e :: entries) ->
  Forall (fun e' => checked e'.1 - recorded e.1 <= d) entries /\
  served_within d entries.
Proof.
  unfold served_within. intros [[_ Hhead]%Forall_cons Htail]%Forall_cons.
  split; [done|]. eapply Forall_impl; [exact Htail|].
  by intros e1 [_ ?]%Forall_cons.
Qed.

(** X24: a batch can trip the breaker on the way: for a batch of one peer
    whose breaker is not OPEN and has [failures] below the threshold, whose
    messages all make their handlers throw, and which is served so that no
    admission check comes later than [recovery_timeout] after a failure
    recorded in the batch, the entries are dispatched until the failures
    reach [failure_threshold]; every entry after that is reported as
    "Circuit breaker is open" without being dispatched. Every entry of the
    batch is reported as failed. *)
Theorem batch_trips_breaker peer (entries : list (Readings * AgentMessage)) p b :
  enabled (circuitBreakerConfig p) = true ->
  circuitBreaker p !! peer = Some b -> state b ≠ OPEN ->
  failures b < failure_threshold (circuitBreakerConfig p) ->
  Forall (fun e => sender e.2 = peer /\ handler_throws p e.2) entries ->
  served_within (recovery_timeout (circuitBreakerConfig p)) entries ->
  let n := Z.to_nat (failure_threshold (circuitBreakerConfig p) - failures b) in
  Forall (fun r => r.1 = false) (handleBatchMessagesAt entries p).1 /\
  drop n (handleBatchMessagesAt entries p).1
  = replicate (length entries - n) (false, Some "Circuit breaker is open") /\
  dispatched (handleBatchMessagesAt entries p).2 = dispatched p ++ take n entries.*2.
Proof.
  intros Hen Hb Ho Hf Hall Hserved. cbv zeta.
  revert p b Hen Hb Ho Hf Hall Hserved.
  induction entries as [|[clock message] entries IH];
    intros p b Hen Hb Ho Hf Hall Hserved.
  { simpl. rewrite drop_nil, take_nil, app_nil_r. by split_and!. }
  apply Forall_cons in Hall as [[Hs Hthrows] Hall]. cbn [fst snd] in Hs, Hthrows.
  apply served_within_cons in Hserved as [Hlater Hserved]. cbn [fst] in Hlater.
  destruct (handleBatchEntryAt_throws peer clock message p b Hen Hb Ho Hs Hthrows)
    as (err & p1 & Hstep & Hcfg & Hm & Hd & Hb1).
  assert (Forall (fun e : Readings * AgentMessage =>
                    sender e.2 = peer /\ handler_throws p1 e.2) entries) as Hall1.
  { eapply Forall_impl; [exact Hall|]. intros m [? Ht]. split; [done|].
    unfold handler_throws in *. by rewrite Hm. }
  cbn [handleBatchMessagesAt]. rewrite Hstep.
  set (b1 := recordFailure (circuitBreakerConfig p) (recorded clock) b) in *.
  destruct (Z.to_nat (failure_threshold (circuitBreakerConfig p) - failures b))
    as [|n] eqn:En; [lia|].
  destruct (decide (failures b + 1 >= failure_threshold (circuitBreakerConfig p)))
    as [Hge|Hlt].
  - assert (n = 0%nat) as -> by lia.
    assert (state b1 = OPEN /\ last_failure_time b1 = recorded clock) as [Ho1 Hl1].
    { unfold b1, recordFailure. by rewrite decide_True. }
    rewrite (handleBatchMessagesAt_open peer entries p1 b1);
      [| by rewrite ?Hcfg | done | done |].
    + cbn [fst snd drop take length Nat.sub fmap list_fmap].
      rewrite drop_0, take_0, Hd, Nat.sub_0_r.
      split_and!; [|done..].
      constructor; [done|]. by apply Forall_replicate.
    + rewrite Hcfg, Hl1. apply Forall_forall. intros e He.
      rewrite Forall_forall in Hall. rewrite Forall_forall in Hlater.
      split; [by apply Hall | by apply Hlater].
  - assert (state b1 = state b /\ failures b1 = failures b + 1) as [Ho1 Hf1].
    { unfold b1, recordFailure. by rewrite decide_False. }
    destruct (IH p1 b1) as (Hfail & Hdrop & Hdisp);
      [by rewrite Hcfg | done | by rewrite Ho1
       | rewrite Hcfg, Hf1; lia | done | by rewrite Hcfg |].
    rewrite Hcfg, Hf1 in Hdrop, Hdisp.
    replace (Z.to_nat (failure_threshold (circuitBreakerConfig p) - (failures b + 1)))
      with n in Hdrop, Hdisp by lia.
    destruct (handleBatchMessagesAt entries p1) as [rs p2].
    cbn [fst snd drop take length Nat.sub fmap list_fmap] in *.
    split_and!; [by constructor | done |].
    rewrite Hdisp, Hd. by rewrite <- app_assoc.
Qed.

Lemma batch_trips_breaker_witness :
  dispatched
    (handleBatchMessagesAt
       [(mkReadings 1000 1000 1003, Sample.crash "m1");
        (mkReadings 1000 1004 1009, Sample.crash "m2");
        (mkReadings 1000 1010 1010, Sample.crash "m3");
        (mkReadings 1000 1011 1011, Sample.crash "m4")]
       Sample.crashing).2
  = [Sample.crash "m1"; Sample.crash "m2"].
Proof.
  refine (proj2 (proj2 (batch_trips_breaker "collector"
                          [(mkReadings 1000 1000 1003, Sample.crash "m1");
                           (mkReadings 1000 1004 1009, Sample.crash "m2");
                           (mkReadings 1000 1010 1010, Sample.crash "m3");
                           (mkReadings 1000 1011 1011, Sample.crash "m4")]
                          Sample.crashing (mkBreaker CLOSED 0 0 0) _ _ _ _ _ _))).
  - reflexivity.
  - vm_compute. reflexivity.
  - discriminate.
  - vm_compute. reflexivity.
  - repeat constructor; by eexists _, _.
  - unfold served_within. repeat constructor; vm_compute; discriminate.
Defined.

End BreakerFacts.

(** ** Agent registration *)

Section RegistrationFacts.
Import Protocol Registration.

(** X25: registering resets the breaker: when an agent with a valid status
    (a non-empty name of letters, digits, [_] and [-], a port between 1 and
    65535, an array of capabilities) registers, it is stored under its name
    and, with the breaker enabled, gets a CLOSED breaker without failures,
    whatever the breaker for that name was before; so an agent whose breaker
    is OPEN is admitted again as soon as it has registered again. The
    breakers of the other agents are left alone. *)
Theorem registration_resets_breaker agentStatus h :
  validateAgentStatus agentStatus = true ->
  enabled (circuitBreakerConfig (protocol h)) = true ->
  (handleAgentRegistration agentStatus h).1 = Respond 200 None /\
  connectedAgents (handleAgentRegistration agentStatus h).2 !! agent_name agentStatus
  = Some agentStatus /\
  circuitBreaker (protocol (handleAgentRegistration agentStatus h).2)
    !! agent_name agentStatus
  = Some (mkBreaker CLOSED 0 0 0) /\
  (forall now,
     (isCircuitBreakerOpen (agent_name agentStatus) now
        (protocol (handleAgentRegistration agentStatus h).2)).1 = false) /\
  (forall other, other ≠ agent_name agentStatus ->
     circuitBreaker (protocol (handleAgentRegistration agentStatus h).2) !! other
     = circuitBreaker (protocol h) !! other).
Proof.
  intros Hvalid Hen. unfold handleAgentRegistration. rewrite Hvalid.
  cbn [negb fst snd protocol connectedAgents].
  assert (circuitBreaker
            (initializeCircuitBreakerForAgent (agent_name agentStatus) (protocol h))
          !! agent_name agentStatus = Some (mkBreaker CLOSED 0 0 0)) as Hb.
  { unfold initializeCircuitBreakerForAgent. rewrite Hen. apply lookup_insert_eq. }
  split_and!; [done | apply lookup_insert_eq | done | |].
  - intros now.
    assert (enabled (circuitBreakerConfig
                       (initializeCircuitBreakerForAgent (agent_name agentStatus)
                          (protocol h))) = true) as Hen'.
    { unfold initializeCircuitBreakerForAgent. by rewrite Hen. }
    rewrite (isCircuitBreakerOpen_known _ _ _ _ Hen' Hb).
    by rewrite decide_False by (by intros [? _]).
  - intros other Hne. unfold initializeCircuitBreakerForAgent. rewrite Hen.
    by apply lookup_insert_ne.
Qed.

Lemma registration_resets_breaker_witness :
  (isCircuitBreakerOpen "collector" 6000
     (protocol
        (handleAgentRegistration Sample.collector_status
           (mk (reportFailures "collector" [1000; 2000; 3000; 4000; 5000]
                  (initializeCircuitBreakerForAgent "collector" Sample.protocol))
               ∅)).2)).1 = false.
Proof.
  refine (proj1 (proj2 (proj2 (proj2
            (registration_resets_breaker Sample.collector_status
               (mk (reportFailures "collector" [1000; 2000; 3000; 4000; 5000]
                      (initializeCircuitBreakerForAgent "collector" Sample.protocol))
                   ∅) _ _)))) 6000).
  - vm_compute. reflexivity.
  - vm_compute. reflexivity.
Defined.
End RegistrationFacts.

(** ** The registry: heartbeats, health checks, expiry and tags *)

Section RegistryFacts.
Import ServiceRegistry.

Lemma expire_fold (kvs : list (string * ServiceInstance)) emitted r :
  NoDup kvs.*1 ->
  (forall k v, (k, v) ∈ kvs -> services r !! k = Some v) ->
  (foldl expire (emitted, r) kvs.*1).1 = emitted ++ (service_expired <$> kvs.*2) /\
  events (foldl expire (emitted, r) kvs.*1).2 = events r /\
  (forall serviceId,
     services (foldl expire (emitted, r) kvs.*1).2 !! serviceId
     = if decide (serviceId ∈ kvs.*1) then None else services r !! serviceId).
Proof.
  revert emitted r. induction kvs as [|[k v] kvs IH]; intros emitted r Hnd Hin.
  { cbn [fmap list_fmap foldl fst snd]. rewrite app_nil_r.
    split_and!; [done..|]. intros serviceId.
    rewrite decide_False; [done | apply not_elem_of_nil]. }
  cbn [fmap list_fmap fst snd] in *. apply NoDup_cons in Hnd as [Hk Hnd].
  cbn [foldl]. unfold expire at 2 4 6. cbn [fst snd].
  rewrite (Hin k v) by apply list_elem_of_here.
  destruct (IH (emitted ++ [service_expired v])
              (with_services r (delete k (services r))) Hnd) as (H1 & H2 & H3).
  { intros k' v' Hkv. cbn [with_services services].
    rewrite lookup_delete_ne; [apply Hin; by apply list_elem_of_further|].
    intros <-. apply Hk. apply list_elem_of_fmap. by exists (k, v'). }
  split_and!.
  - rewrite H1. by rewrite <- app_assoc.
  - by rewrite H2.
  - intros serviceId. rewrite H3. cbn [with_services services].
    destruct (decide (serviceId = k)) as [->|Hne].
    + rewrite (decide_True (P := k ∈ k :: kvs.*1)) by apply list_elem_of_here.
      destruct (decide (k ∈ kvs.*1)); [done | apply lookup_delete_eq].
    + rewrite lookup_delete_ne by done.
      destruct (decide (serviceId ∈ kvs.*1)) as [Hi|Hi].
      * rewrite decide_True; [done | by apply list_elem_of_further].
      * rewrite decide_False; [done|]. by intros [?|?]%elem_of_cons.
Qed.

Lemma cleanup_lookup cfg now r serviceId :
  services (cleanupExpiredServices cfg now r).2 !! serviceId
  = match services r !! serviceId with
    | Some s => if decide (overdue cfg now s) then None else Some s
    | None => None
    end.
Proof.
  unfold cleanupExpiredServices.
  set (m := filter _ (services r)).
  destruct (expire_fold (map_to_list m) [] r) as (_ & _ & H3).
  { apply NoDup_fst_map_to_list. }
  { intros k v Hkv. apply elem_of_map_to_list in Hkv.
    by apply map_lookup_filter_Some in Hkv as [? _]. }
  rewrite H3.
  destruct (decide (serviceId ∈ (map_to_list m).*1)) as [Hi|Hi].
  - apply list_elem_of_fmap in Hi as ([k v] & -> & Hkv). simpl.
    apply elem_of_map_to_list, map_lookup_filter_Some in Hkv as [Hl Hov].
    rewrite Hl. simpl in Hov. by rewrite decide_True.
  - destruct (services r !! serviceId) as [s|] eqn:Es; [|done].
    rewrite decide_False; [done|]. intros Hov. apply Hi.
    apply list_elem_of_fmap. exists (serviceId, s). split; [done|].
    apply elem_of_map_to_list, map_lookup_filter_Some. by split.
Qed.

(** X26: the expiry sweep removes exactly the overdue services: after
    [cleanupExpiredServices] a service is in the registry exactly when it was
    there before and its last heartbeat is at most [heartbeat_timeout] old,
    whatever its status, and it is stored unchanged; [service_expired] is
    emitted for the removed services, once for each, and for no other; the
    log of registrations is left alone. *)
Theorem cleanupExpiredServices_exact cfg now r :
  (forall serviceId,
     services (cleanupExpiredServices cfg now r).2 !! serviceId
     = match services r !! serviceId with
       | Some s => if decide (overdue cfg now s) then None else Some s
       | None => None
       end) /\
  (forall signal,
     signal ∈ (cleanupExpiredServices cfg now r).1 <->
     exists serviceId s,
       services r !! serviceId = Some s /\ overdue cfg now s /\
       signal = service_expired s) /\
  length (cleanupExpiredServices cfg now r).1
  = size (filter (fun kv : string * ServiceInstance => overdue cfg now kv.2)
            (services r)) /\
  events (cleanupExpiredServices cfg now r).2 = events r.
Proof.
  split; [intros; apply cleanup_lookup|].
  unfold cleanupExpiredServices.
  set (m := filter _ (services r)).
  destruct (expire_fold (map_to_list m) [] r) as (H1 & H2 & _).
  { apply NoDup_fst_map_to_list. }
  { intros k v Hkv. apply elem_of_map_to_list in Hkv.
    by apply map_lookup_filter_Some in Hkv as [? _]. }
  rewrite H1, H2. cbn [app]. split_and!; [|by rewrite !length_fmap, length_map_to_list | done].
  intros signal. rewrite list_elem_of_fmap. split.
  - intros (s & -> & Hs). apply list_elem_of_fmap in Hs as ([k v] & -> & Hkv).
    apply elem_of_map_to_list, map_lookup_filter_Some in Hkv as [Hl Hov].
    by exists k, v.
  - intros (k & s & Hl & Hov & ->). exists s. split; [done|].
    apply list_elem_of_fmap. exists (k, s). split; [done|].
    apply elem_of_map_to_list, map_lookup_filter_Some. by split.
Qed.

(** X27: a heartbeat keeps a service alive: after [heartbeat] for a
    registered service at time [t], the expiry sweep at any time up to
    [t + heartbeat_timeout] keeps the service, stored with
    [last_heartbeat = t] and with the status given in the call (its old
    status if none is given). *)
Theorem heartbeat_keeps_alive cfg serviceId status' t now r s :
  services r !! serviceId = Some s ->
  now - t <= heartbeat_timeout cfg ->
  (heartbeat serviceId status' t r).1.1 = true /\
  services (cleanupExpiredServices cfg now (heartbeat serviceId status' t r).2).2
    !! serviceId
  = Some (with_heartbeat s t (default (status s) status')).
Proof.
  intros Hs Hgap. unfold heartbeat. rewrite Hs. cbn [fst snd]. split; [done|].
  rewrite cleanup_lookup. cbn [with_services services].
  rewrite lookup_insert_eq. rewrite decide_False; [done|].
  unfold overdue. cbn [with_heartbeat last_heartbeat]. lia.
Qed.

Lemma heartbeat_keeps_alive_witness :
  services
    (cleanupExpiredServices Sample.registry_cfg 60000
       (heartbeat "analyzer-localhost-3003-1500" None 40000 Sample.registry).2).2
    !! "analyzer-localhost-3003-1500"
  = Some (with_heartbeat Sample.stored_analyzer 40000 healthy).
Proof.
  refine (proj2 (heartbeat_keeps_alive Sample.registry_cfg
                   "analyzer-localhost-3003-1500" None 40000 60000 Sample.registry
                   Sample.stored_analyzer _ _)).
  - vm_compute. reflexivity.
  - vm_compute. discriminate.
Defined.

Lemma checkServiceHealth_confirms s (ok : bool) now r :
  status s = (if ok then healthy else unhealthy) ->
  checkServiceHealth s ok now r = ([], r).
Proof.
  intros Hst. unfold checkServiceHealth.
  destruct (health_check_url s) as [url|]; [|done].
  destruct (decide (url = "")); [done|]. by rewrite decide_True.
Qed.

(** X28: health checks alone do not keep a service alive: a check whose
    outcome agrees with the recorded status (a healthy service that answers,
    an unhealthy one that does not) sends no heartbeat and leaves the
    registry as it is, so a service that passes every check but sends no
    heartbeat of its own is removed by the sweep once its last heartbeat is
    older than [heartbeat_timeout]. *)
Theorem health_checks_do_not_refresh cfg (checks : list (bool * Z)) now r s :
  services r !! id s = Some s ->
  Forall (fun c : bool * Z => status s = if c.1 then healthy else unhealthy) checks ->
  overdue cfg now s ->
  foldl (fun r c => (checkServiceHealth s c.1 c.2 r).2) r checks = r /\
  services
    (cleanupExpiredServices cfg now
       (foldl (fun r c => (checkServiceHealth s c.1 c.2 r).2) r checks)).2 !! id s
  = None.
Proof.
  intros Hs Hchecks Hov.
  assert (foldl (fun r c => (checkServiceHealth s c.1 c.2 r).2) r checks = r) as ->.
  { induction Hchecks as [|[ok t] checks Hc _ IH]; [done|].
    cbn [foldl fst snd]. by rewrite (checkServiceHealth_confirms s ok t r Hc). }
  split; [done|]. rewrite cleanup_lookup, Hs. by rewrite decide_True.
Qed.

Lemma health_checks_do_not_refresh_witness :
  services
    (cleanupExpiredServices Sample.registry_cfg 40000
       (foldl (fun r c => (checkServiceHealth Sample.stored_analyzer c.1 c.2 r).2)
          Sample.registry [(true, 10000); (true, 20000); (true, 30000)])).2
    !! "analyzer-localhost-3003-1500"
  = None.
Proof.
  refine (proj2 (health_checks_do_not_refresh Sample.registry_cfg
                   [(true, 10000); (true, 20000); (true, 30000)] 40000
                   Sample.registry Sample.stored_analyzer _ _ _)).
  - vm_compute. reflexivity.
  - repeat constructor.
  - vm_compute. reflexivity.
Defined.

Lemma splice_tag_snoc tag l : tag ∉ l -> splice_tag tag (l ++ [tag]) = l.
Proof.
  induction l as [|x l IH]; intros Hni; simpl.
  - by rewrite decide_True.
  - apply not_elem_of_cons in Hni as [Hne Hni].
    rewrite decide_False by done. by rewrite IH.
Qed.

Lemma with_tags_same s : with_tags s (tags s) = s.
Proof. by destruct s. Qed.

(** X29: tags: for a registered service that does not have the tag,
    [addTag] appends it and [removeTag] right after restores the stored
    services as they were; a second [addTag] of the same tag changes nothing
    and emits nothing. *)
Theorem tag_round_trip serviceId tag r s :
  services r !! serviceId = Some s ->
  tag ∉ tags s ->
  services (addTag serviceId tag r).2 !! serviceId
  = Some (with_tags s (tags s ++ [tag])) /\
  addTag serviceId tag (addTag serviceId tag r).2 = (true, [], (addTag serviceId tag r).2) /\
  services (removeTag serviceId tag (addTag serviceId tag r).2).2 = services r.
Proof.
  intros Hs Hni.
  set (s1 := with_tags s (tags s ++ [tag])).
  set (r1 := with_services r (<[serviceId := s1]> (services r))).
  assert (addTag serviceId tag r = (true, [service_tag_added s1 tag], r1)) as ->.
  { unfold addTag. rewrite Hs. by rewrite bool_decide_eq_false_2. }
  cbn [snd].
  assert (services r1 !! serviceId = Some s1) as Hs1 by apply lookup_insert_eq.
  assert (tag ∈ tags s1) as Hin.
  { unfold s1. cbn [with_tags tags]. apply elem_of_app. right. apply list_elem_of_here. }
  split_and!; [done | |].
  - unfold addTag. rewrite Hs1. by rewrite bool_decide_eq_true_2.
  - unfold removeTag. rewrite Hs1. rewrite bool_decide_eq_true_2 by done.
    cbn [snd with_services services r1].
    rewrite insert_insert_eq.
    unfold s1. cbn [with_tags tags id name type host port status capabilities metadata
                    last_heartbeat registered_at health_check_url version].
    rewrite splice_tag_snoc by done.
    change (with_tags (with_tags s (tags s ++ [tag])) (tags s))
      with (with_tags s (tags s)).
    rewrite with_tags_same. by apply insert_id.
Qed.

Lemma tag_round_trip_witness :
  services
    (removeTag "collector-localhost-3001-1000" "rss-feeds"
       (addTag "collector-localhost-3001-1000" "rss-feeds" Sample.registry).2).2
  = services Sample.registry.
Proof.
  refine (proj2 (proj2 (tag_round_trip "collector-localhost-3001-1000" "rss-feeds"
                          Sample.registry Sample.stored_collector _ _))).
  - vm_compute. reflexivity.
  - apply (bool_decide_unpack _). vm_compute. exact I.
Defined.
End RegistryFacts.
